(** * Smart-routing layer of the Ethereum MCP server

    A shallow embedding of [src/router/index.ts] (circuit breaker, fallback
    executor, L2 TVL routing, on-chain source selection, ETH price
    comparison), of [growthepie.getL2Chain] and of the variance computation
    of the [compare_eth_price_sources] tool in [src/index.ts].

    Conventions of the embedding
    - [Date.now()] reads the field [clock] of the world; the clock advances
      only while a provider call is awaited, by the latency of that call.
    - a provider thunk [() => Promise<T>] is a function from the instant at
      which it is started to how it settles and after how many milliseconds.
    - the module-level [circuitBreakers] map is a [gmap string CircuitState];
      mutation of the object returned by [getCircuit] is an insertion at its
      key.
    - the field [trace] of the world is ghost state: the executor logs there
      each provider invocation, each skip and each call of
      [recordSuccess]/[recordFailure], so that statements can speak about
      what was invoked and in which order.
    - a call of the router runs on its own: nothing else touches the table
      while a provider is awaited.  Several calls are composed by passing
      the world of one to the next.
    - JavaScript numbers are naturals ([N]) for the failure counter,
      integers ([Z]) for timestamps and rationals ([Q]) for the prices and
      TVL figures that the router compares and passes on.  Where the tool
      computes with prices (the variance line), the computation is made on
      IEEE 754 doubles ([Stdlib]'s [spec_float] at 53 bits), with NaN, the
      infinities and both zeros.
    - strings are byte strings and [toLowerCase] acts on ASCII letters.
    - what a thunk throws is an [Error] object with a name and a message. *)

From Stdlib Require Import ZArith QArith Qround Qabs DecimalString String Ascii List Lia Lqa.
From Stdlib Require SpecFloat.
From stdpp Require Import gmap strings list sorting.

Local Open Scope Z_scope.

(** ** JavaScript values the router looks at *)

Module Js.

(** An [Error] object, as far as [error.message || String(error)] can see. *)
Record Error := { err_name : string; message : string }.

(** [new Error(msg)] *)
Definition newError (msg : string) : Error :=
  {| err_name := "Error"; message := msg |}.

(** Truthiness of a string: only the empty string is falsy. *)
Definition truthy_string (s : string) : bool :=
  negb (String.eqb s "").

(** [String(error)], that is [Error.prototype.toString]. *)
Definition String_of_error (e : Error) : string :=
  if String.eqb (err_name e) "" then message e
  else if String.eqb (message e) "" then err_name e
  else (err_name e ++ ": " ++ message e)%string.

(** [error.message || String(error)] *)
Definition message_or_string (e : Error) : string :=
  if truthy_string (message e) then message e else String_of_error e.

(** How a promise settles. *)
Inductive Outcome (T : Type) : Type :=
| Resolved (v : T)
| Rejected (e : Error).
Arguments Resolved {T} v.
Arguments Rejected {T} e.

(** Truthiness of a number: [0] is falsy. *)
Definition truthy_number (q : Q) : bool :=
  negb (Z.eqb (Qnum q) 0).

(** [String.prototype.toLowerCase] on ASCII text. *)
Definition lower_ascii (c : ascii) : ascii :=
  let n := nat_of_ascii c in
  if (Nat.leb 65 n && Nat.leb n 90)%bool then ascii_of_nat (n + 32) else c.

Fixpoint toLowerCase (s : string) : string :=
  match s with
  | EmptyString => EmptyString
  | String c s' => String (lower_ascii c) (toLowerCase s')
  end.

End Js.

Import Js.

(** ** Circuit breaker *)

Record CircuitState := {
  failures : N;
  lastFailure : Z;
  isOpen : bool
}.

Definition FAILURE_THRESHOLD : N := 3.
Definition RECOVERY_TIME : Z := 60 * 1000.

(** [getCircuit(source)]: the entry of [source], created on first reference.
    Returns the entry and the (possibly extended) table. *)
Definition getCircuit (source : string) (cb : gmap string CircuitState)
  : CircuitState * gmap string CircuitState :=
  match cb !! source with
  | Some c => (c, cb)
  | None =>
      let c := {| failures := 0%N; lastFailure := 0; isOpen := false |} in
      (c, <[source := c]> cb)
  end.

Definition recordSuccess (source : string) (cb : gmap string CircuitState)
  : gmap string CircuitState :=
  let '(circuit, cb) := getCircuit source cb in
  <[source := {| failures := 0%N;
                 lastFailure := lastFailure circuit;
                 isOpen := false |}]> cb.

(** [now] is the value of [Date.now()] at the call. *)
Definition recordFailure (source : string) (now : Z) (cb : gmap string CircuitState)
  : gmap string CircuitState :=
  let '(circuit, cb) := getCircuit source cb in
  let failures' := (failures circuit + 1)%N in
  <[source := {| failures := failures';
                 lastFailure := now;
                 isOpen := if N.leb FAILURE_THRESHOLD failures'
                           then true else isOpen circuit |}]> cb.

Definition isCircuitOpen (source : string) (now : Z) (cb : gmap string CircuitState)
  : bool * gmap string CircuitState :=
  let '(circuit, cb) := getCircuit source cb in
  if negb (isOpen circuit) then (false, cb)
  else if Z.ltb RECOVERY_TIME (now - lastFailure circuit) then
    (false, <[source := {| failures := failures circuit;
                           lastFailure := lastFailure circuit;
                           isOpen := false |}]> cb)
  else (true, cb).

(** [getCircuitStatus()]: the diagnostic view, per provider. *)
Definition getCircuitStatus (cb : gmap string CircuitState) : gmap string (bool * N) :=
  (fun c => (isOpen c, failures c)) <$> cb.

(** ** Fallback executor *)

Inductive event :=
| EvInvoke (i : nat) (name : string) (started : Z)
| EvSkip (i : nat) (name : string)
| EvRecordSuccess (name : string)
| EvRecordFailure (name : string).

Record World := {
  clock : Z;
  circuitBreakers : gmap string CircuitState;
  trace : list event
}.

(** How a provider call settles, and how long it was awaited. *)
Record Settled (T : Type) := {
  outcome : Outcome T;
  latency : N
}.
Arguments outcome {T} _.
Arguments latency {T} _.

Record Source (T : Type) := {
  name : string;
  fn : Z -> Settled T
}.
Arguments name {T} _.
Arguments fn {T} _.

Record ErrorEntry := { e_source : string; e_error : string }.

Record FallbackResult (T : Type) := {
  result : T;
  source : string;
  fallbacksUsed : nat
}.
Arguments result {T} _.
Arguments source {T} _.
Arguments fallbacksUsed {T} _.

(** [options.validate && !options.validate(result)] *)
Definition rejects {T} (validate : option (T -> bool)) (v : T) : bool :=
  match validate with
  | Some f => negb (f v)
  | None => false
  end.

(** The body of the [try]: the awaited value, or what reaches [catch]. *)
Definition tryBody {T} (validate : option (T -> bool)) (o : Outcome T) : Outcome T :=
  match o with
  | Resolved v => if rejects validate v then Rejected (newError "Validation failed")
                  else Resolved v
  | Rejected e => Rejected e
  end.

(** [errors.map((e) => `${e.source}: ${e.error}`).join('; ')] *)
Definition errorSummary (errors : list ErrorEntry) : string :=
  String.concat "; " (map (fun e => (e_source e ++ ": " ++ e_error e)%string) errors).

Definition allFailed (errors : list ErrorEntry) : Error :=
  newError ("All sources failed: " ++ errorSummary errors).

(** The [for] loop from index [i] on, [rest] being [options.sources] from
    [i] on and [errors] the array built so far. *)
Fixpoint fallbackLoop {T} (validate : option (T -> bool)) (i : nat)
    (rest : list (Source T)) (errors : list ErrorEntry) (w : World)
  : Outcome (FallbackResult T) * World :=
  match rest with
  | [] => (Rejected (allFailed errors), w)
  | s :: rest' =>
      let '(open, cb) := isCircuitOpen (name s) (clock w) (circuitBreakers w) in
      if open then
        fallbackLoop validate (S i) rest'
          (errors ++ [{| e_source := name s; e_error := "Circuit breaker open" |}])
          {| clock := clock w; circuitBreakers := cb;
             trace := trace w ++ [EvSkip i (name s)] |}
      else
        let r := fn s (clock w) in
        let now := clock w + Z.of_N (latency r) in
        match tryBody validate (outcome r) with
        | Resolved v =>
            (Resolved {| result := v; source := name s; fallbacksUsed := i |},
             {| clock := now;
                circuitBreakers := recordSuccess (name s) cb;
                trace := trace w ++ [EvInvoke i (name s) (clock w);
                                     EvRecordSuccess (name s)] |})
        | Rejected e =>
            fallbackLoop validate (S i) rest'
              (errors ++ [{| e_source := name s; e_error := message_or_string e |}])
              {| clock := now;
                 circuitBreakers := recordFailure (name s) now cb;
                 trace := trace w ++ [EvInvoke i (name s) (clock w);
                                      EvRecordFailure (name s)] |}
        end
  end.

Definition executeWithFallback {T} (sources : list (Source T))
    (validate : option (T -> bool)) (w : World)
  : Outcome (FallbackResult T) * World :=
  fallbackLoop validate 0%nat sources [] w.

(** The entry [getCircuit] hands out: the stored one, or a fresh closed one. *)
Definition circuitOf (source : string) (cb : gmap string CircuitState) : CircuitState :=
  fst (getCircuit source cb).

(** *** Reading the ghost trace *)

(** What a call added to the trace. *)
Definition events_since (w w' : World) : list event :=
  drop (length (trace w)) (trace w').

(** One iteration that did not return: the provider at index [i] was either
    skipped on an open circuit, or invoked once at some instant [t], reached
    [catch] with [e] and had [recordFailure] applied.  The second index is
    the entry pushed on [errors]. *)
Inductive failedAttempt {T} (validate : option (T -> bool)) (i : nat) (s : Source T)
  : list event -> ErrorEntry -> Prop :=
| fa_skipped :
    failedAttempt validate i s
      [EvSkip i (name s)]
      {| e_source := name s; e_error := "Circuit breaker open" |}
| fa_failed t e :
    tryBody validate (outcome (fn s t)) = Rejected e ->
    failedAttempt validate i s
      [EvInvoke i (name s) t; EvRecordFailure (name s)]
      {| e_source := name s; e_error := message_or_string e |}.

(** Consecutive failed iterations over the providers [ss], the first of
    which has index [i]. *)
Inductive failedRun {T} (validate : option (T -> bool))
  : nat -> list (Source T) -> list event -> list ErrorEntry -> Prop :=
| fr_nil i : failedRun validate i [] [] []
| fr_cons i s ss b evs e errs :
    failedAttempt validate i s b e ->
    failedRun validate (S i) ss evs errs ->
    failedRun validate i (s :: ss) (b ++ evs) (e :: errs).

(** *** The loop, one iteration at a time *)

(** One iteration that does not return, made for the provider [s] at index
    [i] in the world [w].  Either [isCircuitOpen] answers true on the table
    of [w] and the provider is not invoked; or it answers false, the thunk
    is invoked at the instant of [w], what reaches [catch] is [e], and
    [recordFailure] is applied to the table when the call has settled.  The
    iteration pushes the entry on [errors] and leaves the world in which the
    next iteration starts. *)
Inductive failedIteration {T} (validate : option (T -> bool)) (i : nat) (s : Source T)
    (w : World) : ErrorEntry -> World -> Prop :=
| fi_skipped cb :
    isCircuitOpen (name s) (clock w) (circuitBreakers w) = (true, cb) ->
    failedIteration validate i s w
      {| e_source := name s; e_error := "Circuit breaker open" |}
      {| clock := clock w;
         circuitBreakers := cb;
         trace := trace w ++ [EvSkip i (name s)] |}
| fi_failed cb e :
    isCircuitOpen (name s) (clock w) (circuitBreakers w) = (false, cb) ->
    tryBody validate (outcome (fn s (clock w))) = Rejected e ->
    failedIteration validate i s w
      {| e_source := name s; e_error := message_or_string e |}
      {| clock := clock w + Z.of_N (latency (fn s (clock w)));
         circuitBreakers :=
           recordFailure (name s) (clock w + Z.of_N (latency (fn s (clock w)))) cb;
         trace := trace w ++ [EvInvoke i (name s) (clock w);
                              EvRecordFailure (name s)] |}.

(** Failed iterations for the providers [ss] one after the other, the first
    of them at index [i], from the world [w] to the world [w']. *)
Inductive failedIterations {T} (validate : option (T -> bool))
  : nat -> list (Source T) -> World -> list ErrorEntry -> World -> Prop :=
| fis_nil i w : failedIterations validate i [] w [] w
| fis_cons i s ss w e w1 errs w' :
    failedIteration validate i s w e w1 ->
    failedIterations validate (S i) ss w1 errs w' ->
    failedIterations validate i (s :: ss) w (e :: errs) w'.


(** The provider [s] with the validator folded into its thunk: where the
    validator would reject the value, the thunk throws
    [new Error('Validation failed')] itself. *)
Definition throwingInstead {T} (validate : option (T -> bool)) (s : Source T) : Source T :=
  {| name := name s;
     fn := fun t => {| outcome := tryBody validate (outcome (fn s t));
                       latency := latency (fn s t) |} |}.

(** [await p] followed by synchronous code [k] inside an [async] function. *)
Definition thenSync {A B} (r : Settled A) (k : A -> Outcome B) : Settled B :=
  {| outcome := match outcome r with
                | Resolved v => k v
                | Rejected e => Rejected e
                end;
     latency := latency r |}.

(** ** Price routing: the canonical result and its validator *)

Record NormalizedPrice := {
  price : Q;
  currency : string;
  change24h : option Q;
  marketCap : option Q
}.

(** [(r) => r.price > 0] *)
Definition validatePrice (r : NormalizedPrice) : bool :=
  negb (Qle_bool (price r) 0).

(** ** L2 analytics adapter: [getL2Chain] *)

Module growthepie.

Record L2Chain := {
  chain : string;
  tvl : Q;
  txcount : Q;
  fees : Q;
  daa : Q;
  stablesMcap : Q;
  fdv : Q;
  marketCap : Q;
  profit : Q;
  throughput : Q;
  rentPaid : Q
}.

(** [metrics.get(key) || 0] *)
Definition metric (metrics : gmap string Q) (key : string) : Q :=
  match metrics !! key with
  | Some v => if truthy_number v then v else 0%Q
  | None => 0%Q
  end.

(** The synchronous part of [getL2Chain], after [getFundamentals] resolved
    with the chain -> metrics map. *)
Definition lookupChain (chainMetrics : gmap string (gmap string Q)) (chain : string)
  : option L2Chain :=
  match chainMetrics !! toLowerCase chain with
  | None => None
  | Some metrics =>
      Some {| chain := toLowerCase chain;
              tvl := metric metrics "tvl";
              txcount := metric metrics "txcount";
              fees := metric metrics "txcosts";
              daa := metric metrics "daa";
              stablesMcap := metric metrics "stables_mcap";
              fdv := metric metrics "fdv";
              marketCap := metric metrics "market_cap";
              profit := metric metrics "profit";
              throughput := metric metrics "throughput";
              rentPaid := metric metrics "rent_paid" |}
  end.

Definition getL2Chain (getFundamentals : Z -> Settled (gmap string (gmap string Q)))
    (chain : string) (t : Z) : Settled (option L2Chain) :=
  thenSync (getFundamentals t) (fun chainMetrics => Resolved (lookupChain chainMetrics chain)).

End growthepie.

(** ** TVL routing *)

(** An entry of the DeFi aggregator's chain list, as far as the router reads it. *)
Record LlamaChain := { ll_name : string; ll_tvl : Q }.

Record NormalizedTvl := {
  n_tvl : Q;
  n_breakdown : option (list (string * Q))
}.

Record TvlResult := {
  tvl : Q;
  tvl_source : string;
  tvl_fallbacksUsed : nat;
  breakdown : option (list (string * Q))
}.

(** [(r) => r.tvl >= 0] *)
Definition validateTvl (r : NormalizedTvl) : bool := Qle_bool 0 (n_tvl r).

(** [chains.find((c) => c.name.toLowerCase() === normalizedChain)] *)
Definition findChain (chains : list LlamaChain) (normalizedChain : string)
  : option LlamaChain :=
  find (fun c => String.eqb (toLowerCase (ll_name c)) normalizedChain) chains.

(** The two providers of [getL2Tvl], for the already lower-cased chain. *)
Definition growthepieTvlSource
    (getFundamentals : Z -> Settled (gmap string (gmap string Q)))
    (normalizedChain : string) : Source NormalizedTvl :=
  {| name := "growthepie";
     fn := fun t =>
       thenSync (growthepie.getL2Chain getFundamentals normalizedChain t)
         (fun data =>
            match data with
            | Some d =>
                if truthy_number (growthepie.tvl d)
                then Resolved {| n_tvl := growthepie.tvl d; n_breakdown := None |}
                else Rejected (newError "Chain not found")
            | None => Rejected (newError "Chain not found")
            end) |}.

Definition defillamaTvlSource
    (getChains : Z -> Settled (list LlamaChain))
    (normalizedChain : string) : Source NormalizedTvl :=
  {| name := "defillama";
     fn := fun t =>
       thenSync (getChains t)
         (fun chains =>
            match findChain chains normalizedChain with
            | Some chainData =>
                if truthy_number (ll_tvl chainData)
                then Resolved {| n_tvl := ll_tvl chainData; n_breakdown := None |}
                else Rejected (newError "Chain not found")
            | None => Rejected (newError "Chain not found")
            end) |}.

Definition l2TvlSources
    (getFundamentals : Z -> Settled (gmap string (gmap string Q)))
    (getChains : Z -> Settled (list LlamaChain))
    (normalizedChain : string) : list (Source NormalizedTvl) :=
  [ growthepieTvlSource getFundamentals normalizedChain;
    defillamaTvlSource getChains normalizedChain ].

Definition getL2Tvl
    (getFundamentals : Z -> Settled (gmap string (gmap string Q)))
    (getChains : Z -> Settled (list LlamaChain))
    (chain : string) (w : World) : Outcome TvlResult * World :=
  let normalizedChain := toLowerCase chain in
  let '(r, w') :=
    executeWithFallback (l2TvlSources getFundamentals getChains normalizedChain)
      (Some validateTvl) w in
  (match r with
   | Resolved fr =>
       Resolved {| tvl := n_tvl (result fr);
                   tvl_source := source fr;
                   tvl_fallbacksUsed := fallbacksUsed fr;
                   breakdown := n_breakdown (result fr) |}
   | Rejected e => Rejected e
   end, w').

(** The L2-analytics service, asked at [t], reports a TVL of 0 for the chain:
    [getL2Chain] resolves with an object whose [tvl] is 0. *)
Definition growthepieReportsZero
    (getFundamentals : Z -> Settled (gmap string (gmap string Q)))
    (chain : string) (t : Z) : Prop :=
  exists chainMetrics d,
    outcome (getFundamentals t) = Resolved chainMetrics /\
    growthepie.lookupChain chainMetrics chain = Some d /\
    (growthepie.tvl d == 0)%Q.

(** The DeFi aggregator, asked at [t], lists the chain with a TVL of 0. *)
Definition defillamaReportsZero
    (getChains : Z -> Settled (list LlamaChain))
    (chain : string) (t : Z) : Prop :=
  exists chains c,
    outcome (getChains t) = Resolved chains /\
    findChain chains (toLowerCase chain) = Some c /\
    (ll_tvl c == 0)%Q.

(** Two chain names that differ only in the case of ASCII letters. *)
Definition isUpper (c : ascii) : bool :=
  (Nat.leb 65 (nat_of_ascii c) && Nat.leb (nat_of_ascii c) 90)%bool.

Definition sameLetter (a b : ascii) : bool :=
  (Ascii.eqb a b
   || (isUpper a && Nat.eqb (nat_of_ascii b) (nat_of_ascii a + 32))
   || (isUpper b && Nat.eqb (nat_of_ascii a) (nat_of_ascii b + 32)))%bool.

Fixpoint differOnlyInCase (s1 s2 : string) : bool :=
  match s1, s2 with
  | EmptyString, EmptyString => true
  | String a s1', String b s2' => (sameLetter a b && differOnlyInCase s1' s2')%bool
  | _, _ => false
  end.

(** Text in which every character is an ASCII character: on such text
    [toLowerCase] above is [String.prototype.toLowerCase]. *)
Fixpoint asciiOnly (s : string) : bool :=
  match s with
  | EmptyString => true
  | String c s' => (Nat.ltb (nat_of_ascii c) 128 && asciiOnly s')%bool
  end.

(** ** On-chain routing *)

(** What [onChainSources] asks of the two adapters.  [etherscan.getChainId]
    throws on an unknown chain name: [None]. *)
Record Adapters := {
  jsonrpc_isConfigured : bool;
  jsonrpc_getNodeChainId : option string;
  etherscan_isConfigured : bool;
  etherscan_getChainId : string -> option string
}.

Definition NO_SOURCE_MESSAGE : string :=
  "No data source configured. Set an Etherscan API key (set_etherscan_key) or connect a JSON-RPC node (set_node_url).".

Definition onChainSources {T} (env : Adapters)
    (jsonrpcFn etherscanFn : Z -> Settled T) (requestedChain : option string)
  : list (Source T) :=
  let sources : list (Source T) := [] in
  let sources :=
    if jsonrpc_isConfigured env then
      let includeJsonRpc :=
        match requestedChain with
        | Some rc =>
            if truthy_string rc then
              match etherscan_getChainId env rc with
              | Some requestedChainId =>
                  match jsonrpc_getNodeChainId env with
                  | Some nodeChainId =>
                      if (truthy_string nodeChainId
                          && negb (String.eqb requestedChainId nodeChainId))%bool
                      then false else true
                  | None => true
                  end
              | None => false
              end
            else true
        | None => true
        end in
      if includeJsonRpc then sources ++ [{| name := "JSON-RPC"; fn := jsonrpcFn |}]
      else sources
    else sources in
  let sources :=
    if etherscan_isConfigured env
    then sources ++ [{| name := "Etherscan"; fn := etherscanFn |}]
    else sources in
  if Nat.eqb (length sources) 0
  then sources ++ [{| name := "No source";
                      fn := fun _ => {| outcome := Rejected (newError NO_SOURCE_MESSAGE);
                                        latency := 0%N |} |}]
  else sources.

Record OnChainResult (T : Type) := {
  oc_result : T;
  oc_source : string
}.
Arguments oc_result {T} _.
Arguments oc_source {T} _.

(** The common shape of [getBalance], [getBlockNumber], [getBlock],
    [getTransaction], [getTransactionReceipt], [onChainEthCall], [getCode],
    [getStorageAt], [onChainEstimateGas], [getGasPrice], [onChainGetLogs],
    [onChainGetTransactionCount] and [onChainGetBalanceMulti]: they differ
    only in the two adapter calls and in whether a chain is passed on. *)
Definition onChainOperation {T} (env : Adapters)
    (jsonrpcFn etherscanFn : Z -> Settled T) (requestedChain : option string)
    (w : World) : Outcome (OnChainResult T) * World :=
  let '(r, w') :=
    executeWithFallback (onChainSources env jsonrpcFn etherscanFn requestedChain) None w in
  (match r with
   | Resolved fr => Resolved {| oc_result := result fr; oc_source := source fr |}
   | Rejected e => Rejected e
   end, w').

(** [getBalance(address)]: no chain is passed to [onChainSources]. *)
Definition getBalance (env : Adapters)
    (jsonrpc_getBalance etherscan_getBalance : string -> Z -> Settled string)
    (address : string) (w : World) : Outcome (OnChainResult string) * World :=
  onChainOperation env (jsonrpc_getBalance address) (etherscan_getBalance address) None w.

(** ** Source comparison *)

(** A price as an adapter hands it over: a number, [null] or [undefined]. *)
Inductive value :=
| Num (q : Q)
| Null
| Undefined.

Definition truthy (v : value) : bool :=
  match v with
  | Num q => truthy_number q
  | Null | Undefined => false
  end.

(** [v || null] *)
Definition orNull (v : value) : value :=
  if truthy v then v else Null.

Record ComparisonRow := {
  c_source : string;
  c_value : value;
  latencyMs : Z;
  c_error : option string
}.

Record SourceComparison := {
  query : string;
  results : list ComparisonRow
}.

(** One [try]/[catch] block of [compareEthPrice]: the call is started at
    [start = Date.now()]; [read] is what the block stores of a resolved
    response. *)
Definition compareBlock (source : string) (read : value -> value)
    (call : Z -> Settled value) (w : World) : ComparisonRow * World :=
  let start := clock w in
  let r := call start in
  let w' := {| clock := clock w + Z.of_N (latency r);
               circuitBreakers := circuitBreakers w;
               trace := trace w |} in
  (match outcome r with
   | Resolved data =>
       {| c_source := source; c_value := read data;
          latencyMs := clock w' - start; c_error := None |}
   | Rejected e =>
       {| c_source := source; c_value := Null;
          latencyMs := clock w' - start; c_error := Some (message e) |}
   end, w').

(** [etherscan_usd] is [data.usd] of [etherscan.getEthPrice()],
    [coingecko_usd] is [data['ethereum']?.usd] of [coingecko.getPrice] and
    [defillama_price] is [Object.values(coins)[0]?.price] of
    [defillama.getCoinPrices]. *)
Definition compareEthPrice
    (etherscan_usd coingecko_usd defillama_price : Z -> Settled value)
    (w : World) : SourceComparison * World :=
  let results : list ComparisonRow := [] in
  let '(row, w) := compareBlock "etherscan" (fun v => v) etherscan_usd w in
  let results := results ++ [row] in
  let '(row, w) := compareBlock "coingecko" orNull coingecko_usd w in
  let results := results ++ [row] in
  let '(row, w) := compareBlock "defillama" orNull defillama_price w in
  let results := results ++ [row] in
  ({| query := "ETH Price (USD)"; results := results |}, w).

(** What a row of the comparison says about the provider call [r] it was
    built from, [read] being what its block stores of a resolved response. *)
Definition rowReflects (row : ComparisonRow) (call : (value -> value) * Settled value)
  : Prop :=
  let '(read, r) := call in
  latencyMs row = Z.of_N (latency r) /\
  match outcome r with
  | Resolved data => c_value row = read data /\ c_error row = None
  | Rejected e => c_value row = Null /\ c_error row = Some (message e)
  end.

(** *** The variance line of the [compare_eth_price_sources] tool *)

(** [results.filter((r) => r.value != null).map((r) => r.value)] *)
Definition validPrices (rows : list ComparisonRow) : list Q :=
  omap (fun r => match c_value r with
                 | Num q => Some q
                 | Null | Undefined => None
                 end) rows.

(** The numbers the tool computes with are IEEE 754 binary64 values: sign,
    53-bit significand and exponent, two zeros, two infinities and NaN, with
    every operation rounded to the nearest value, ties to the even one. *)
Module Double.

Definition double : Type := SpecFloat.spec_float.

Definition prec : Z := 53.
Definition emax : Z := 1024.

Definition add : double -> double -> double := SpecFloat.SFadd prec emax.
Definition sub : double -> double -> double := SpecFloat.SFsub prec emax.
Definition mul : double -> double -> double := SpecFloat.SFmul prec emax.
Definition div : double -> double -> double := SpecFloat.SFdiv prec emax.
Definition abs : double -> double := SpecFloat.SFabs.
Definition ltb : double -> double -> bool := SpecFloat.SFltb.
Definition leb : double -> double -> bool := SpecFloat.SFleb.

Definition NaN : double := SpecFloat.S754_nan.

#[global] Instance double_eq_dec : EqDecision double.
Proof. unfold double. solve_decision. Defined.

(** An integer as a double. *)
Definition ofZ (n : Z) : double := SpecFloat.binary_normalize prec emax n 0 false.

(** The double that a number of a row is: the one nearest to the rational
    that stands for it, the rational itself when it is a double. *)
Definition ofQ (q : Q) : double :=
  match Qnum q with
  | Z0 => SpecFloat.S754_zero false
  | Zpos n =>
      div (SpecFloat.S754_finite false n 0) (SpecFloat.S754_finite false (Qden q) 0)
  | Zneg n =>
      div (SpecFloat.S754_finite true n 0) (SpecFloat.S754_finite false (Qden q) 0)
  end.

(** The magnitude of the finite double with significand [m] and exponent [e]. *)
Definition magnitude (m : positive) (e : Z) : Q :=
  (inject_Z (Zpos m) * (2 # 1) ^ e)%Q.

End Double.

(** [validPrices.reduce((a, b) => a + b, 0) / validPrices.length] *)
Definition average (prices : list Double.double) : Double.double :=
  Double.div (fold_left Double.add prices (Double.ofZ 0))
             (Double.ofZ (Z.of_nat (length prices))).

(** One step of [Math.max]: the highest value so far and the next argument.
    NaN wins over everything, and [+0] over [-0]. *)
Definition maxStep (highest number : Double.double) : Double.double :=
  match highest, number with
  | SpecFloat.S754_nan, _ | _, SpecFloat.S754_nan => Double.NaN
  | SpecFloat.S754_zero true, SpecFloat.S754_zero false => number
  | _, _ => if Double.ltb highest number then number else highest
  end.

(** [Math.max(...xs)]: [-Infinity] when there is no argument. *)
Definition Math_max (xs : list Double.double) : Double.double :=
  fold_left maxStep xs (SpecFloat.S754_infinity true).

(** [Math.abs(p - avg)] for each price. *)
Definition deviations (prices : list Double.double) : list Double.double :=
  map (fun p => Double.abs (Double.sub p (average prices))) prices.

(** [(maxDiff / avg) * 100] *)
Definition maxVariancePercent (prices : list Double.double) : Double.double :=
  let avg := average prices in
  let maxDiff := Math_max (deviations prices) in
  Double.mul (Double.div maxDiff avg) (Double.ofZ 100).

(** The digits of [toFixed(3)] for a magnitude below [10^21]: the nearest
    multiple of 1/1000 (the larger one on a tie), with at least one digit
    before the point. *)
Definition fixed3Digits (x : Q) : string :=
  let n := Z.to_N (Qfloor (x * 1000 + (1 # 2))%Q) in
  let a := NilZero.string_of_uint (N.to_uint (n / 1000)) in
  let b := NilZero.string_of_uint (N.to_uint (n mod 1000)) in
  let pad := match String.length b with
             | 1%nat => "00"%string
             | 2%nat => "0"%string
             | _ => ""%string
             end in
  (a ++ "." ++ pad ++ b)%string.

(** [x.toFixed(3)].  From [10^21] on the method gives the text of
    [Number.prototype.toString], which is taken as [numberToString]. *)
Definition toFixed3 (numberToString : Double.double -> string) (x : Double.double)
  : string :=
  match x with
  | SpecFloat.S754_nan => "NaN"
  | SpecFloat.S754_infinity false => "Infinity"
  | SpecFloat.S754_infinity true => "-Infinity"
  | SpecFloat.S754_zero _ => "0.000"
  | SpecFloat.S754_finite s m e =>
      let sign := if s then "-"%string else ""%string in
      if Qle_bool (inject_Z (10 ^ 21)) (Double.magnitude m e)
      then (sign ++ numberToString (SpecFloat.S754_finite false m e))%string
      else (sign ++ fixed3Digits (Double.magnitude m e))%string
  end.

(** A double that [Math.abs] can give, NaN apart: [+0], a positive finite
    value or [+Infinity]. *)
Definition isMagnitude (x : Double.double) : bool :=
  match x with
  | SpecFloat.S754_zero false
  | SpecFloat.S754_infinity false
  | SpecFloat.S754_finite false _ _ => true
  | _ => false
  end.

(** The line break that opens the variance line. *)
Definition newline : string := String "010"%char EmptyString.

(** The line pushed on the report when at least two prices are valid:
    [`\nMax variance: ${diffPct}%`]. *)
Definition varianceLine (numberToString : Double.double -> string)
    (comparison : SourceComparison) : option string :=
  let validPrices := map Double.ofQ (validPrices (results comparison)) in
  if Nat.leb 2 (length validPrices) then
    Some (newline ++ "Max variance: " ++
          toFixed3 numberToString (maxVariancePercent validPrices) ++ "%")%string
  else None.

(** ** Price routing: [getEthPrice] and [getTokenPrice] *)

Module PriceRouting.

(** [NormalizedPrice] as the thunks build it from what the adapters hand
    over: any field may be a number or [undefined]. *)
Record NormalizedPrice := {
  price : value;
  currency : string;
  change24h : value;
  marketCap : value
}.

Record PriceResult := {
  r_price : value;
  r_currency : string;
  r_source : string;
  r_change24h : value;
  r_marketCap : value;
  r_fallbacksUsed : nat
}.

(** [a || b] *)
Definition jsOr (a b : value) : value := if truthy a then a else b.

(** [v > 0]: [null] converts to 0 and [undefined] to NaN. *)
Definition greaterThanZero (v : value) : bool :=
  match v with
  | Num q => negb (Qle_bool q 0)
  | Null | Undefined => false
  end.

(** [(r) => r.price > 0] *)
Definition validate (r : NormalizedPrice) : bool := greaterThanZero (price r).

(** [o[key]] on a [Record<string, number>]. *)
Definition field (o : gmap string Q) (key : string) : value :=
  match o !! key with
  | Some q => Num q
  | None => Undefined
  end.

(** What the routing layer asks of the three price adapters.
    [etherscan_usd] is [data.usd] of [etherscan.getEthPrice()];
    [coingecko_getPrice ids] is the object [coingecko.getPrice(ids)]
    resolves with; [coingecko_byContract platform address] is what
    [coingecko.getTokenPriceByContract] resolves with ([None]: [null] or
    [undefined]); [defillama_price coins] is
    [Object.values(data.coins || data)[0]?.price] of
    [defillama.getCoinPrices(coins)]. *)
Record PriceAdapters := {
  etherscan_usd : Z -> Settled value;
  coingecko_getPrice : string -> Z -> Settled (gmap string (gmap string Q));
  coingecko_byContract : string -> string -> Z -> Settled (option (gmap string Q));
  defillama_price : string -> Z -> Settled value
}.

(** The [defillama] thunk of all three chains, up to the message it throws
    when [!coin?.price]. *)
Definition defillamaSource (api : PriceAdapters) (coins notFound : string)
  : Source NormalizedPrice :=
  {| name := "defillama";
     fn := fun t =>
       thenSync (defillama_price api coins t)
         (fun coinPrice =>
            if truthy coinPrice
            then Resolved {| price := coinPrice; currency := "USD";
                             change24h := Undefined; marketCap := Undefined |}
            else Rejected (newError notFound)) |}.

Definition ethPriceSources (api : PriceAdapters) : list (Source NormalizedPrice) :=
  [ {| name := "etherscan";
       fn := fun t =>
         thenSync (etherscan_usd api t)
           (fun usd => Resolved {| price := usd; currency := "USD";
                                   change24h := Undefined; marketCap := Undefined |}) |};
    {| name := "coingecko";
       fn := fun t =>
         thenSync (coingecko_getPrice api "ethereum" t)
           (fun data =>
              match data !! "ethereum"%string with
              | None => Rejected (newError "No data returned")
              | Some ethData =>
                  Resolved
                    {| price := jsOr (field ethData "usd") (field ethData "usd");
                       currency := "USD";
                       change24h := jsOr (field ethData "usd_24h_change")
                                         (field ethData "usd_24h_change");
                       marketCap := jsOr (field ethData "usd_market_cap")
                                         (field ethData "usd_market_cap") |}
              end) |};
    defillamaSource api "coingecko:ethereum" "No price data" ].

Definition withProvenance (run : Outcome (FallbackResult NormalizedPrice) * World)
  : Outcome PriceResult * World :=
  (match fst run with
   | Resolved fr =>
       Resolved {| r_price := price (result fr);
                   r_currency := currency (result fr);
                   r_source := source fr;
                   r_change24h := change24h (result fr);
                   r_marketCap := marketCap (result fr);
                   r_fallbacksUsed := fallbacksUsed fr |}
   | Rejected e => Rejected e
   end, snd run).

Definition getEthPrice (api : PriceAdapters) (w : World) : Outcome PriceResult * World :=
  withProvenance (executeWithFallback (ethPriceSources api) (Some validate) w).

(** [token.startsWith('0x') && token.length === 42] *)
Definition isContract (token : string) : bool :=
  (String.prefix "0x" token && Nat.eqb (String.length token) 42)%bool.

(** The own properties of the [mappings] object literal. *)
Definition mappings : list (string * string) :=
  [ ("bitcoin", "coingecko:bitcoin");
    ("btc", "coingecko:bitcoin");
    ("ethereum", "coingecko:ethereum");
    ("eth", "coingecko:ethereum");
    ("usdc", "ethereum:0xA0b86991c6218b36c1d19D4a2e9Eb0cE3606eB48");
    ("usdt", "ethereum:0xdAC17F958D2ee523a2206206994597C13D831ec7");
    ("dai", "ethereum:0x6B175474E89094C44Da98b954EesadadcD732172601") ]%string.

(** [mappings[token.toLowerCase()] || `coingecko:${token.toLowerCase()}`] *)
Definition defillamaKey (token : string) : string :=
  match find (fun kv => String.eqb (fst kv) (toLowerCase token)) mappings with
  | Some (_, key) => if truthy_string key then key
                     else ("coingecko:" ++ toLowerCase token)%string
  | None => ("coingecko:" ++ toLowerCase token)%string
  end.

(** The coingecko thunk of the contract chain. *)
Definition coingeckoByContractSource (api : PriceAdapters) (chain token : string)
  : Source NormalizedPrice :=
  {| name := "coingecko";
     fn := fun t =>
       thenSync (coingecko_byContract api chain token t)
         (fun data =>
            match data with
            | Some d =>
                if truthy (field d "usd")
                then Resolved {| price := field d "usd"; currency := "USD";
                                 change24h := field d "usd_24h_change";
                                 marketCap := field d "usd_market_cap" |}
                else Rejected (newError "Token not found")
            | None => Rejected (newError "Token not found")
            end) |}.

(** The coingecko thunk of the name chain. *)
Definition coingeckoByNameSource (api : PriceAdapters) (token : string)
  : Source NormalizedPrice :=
  {| name := "coingecko";
     fn := fun t =>
       let tokenId := toLowerCase token in
       thenSync (coingecko_getPrice api tokenId t)
         (fun data =>
            match data !! tokenId with
            | Some tokenData =>
                if truthy (field tokenData "usd")
                then Resolved {| price := field tokenData "usd"; currency := "USD";
                                 change24h := field tokenData "usd_24h_change";
                                 marketCap := field tokenData "usd_market_cap" |}
                else Rejected (newError "Token not found")
            | None => Rejected (newError "Token not found")
            end) |}.

Definition tokenPriceSources (api : PriceAdapters) (token chain : string)
  : list (Source NormalizedPrice) :=
  if isContract token then
    [ defillamaSource api (chain ++ ":" ++ token) "Token not found";
      coingeckoByContractSource api chain token ]
  else
    [ coingeckoByNameSource api token;
      defillamaSource api (defillamaKey token) "Token not found" ].

Definition getTokenPrice (api : PriceAdapters) (token chain : string) (w : World)
  : Outcome PriceResult * World :=
  withProvenance (executeWithFallback (tokenPriceSources api token chain) (Some validate) w).

End PriceRouting.

(** ** [Array.prototype.sort] with a comparator *)

(** The sort is stable; for a comparator that orders by a numeric key its
    result is the one of insertion sort: each element, taken in the order of
    the array, goes before the first element it compares below. *)
Fixpoint insertSorted {A} (compareFn : A -> A -> Q) (x : A) (sorted : list A) : list A :=
  match sorted with
  | [] => [x]
  | y :: ys =>
      if negb (Qle_bool 0 (compareFn x y)) then x :: y :: ys
      else y :: insertSorted compareFn x ys
  end.

Definition sortWith {A} (compareFn : A -> A -> Q) (l : list A) : list A :=
  fold_left (fun sorted x => insertSorted compareFn x sorted) l [].

(** [v || 0] for a number [v]. *)
Definition orZero (q : Q) : Q := if truthy_number q then q else 0%Q.

(** ** L2 analytics adapter: the list views *)

Module GrowthepieViews.

(** [Array.from(chainMetrics.entries())]: the chains in the order in which
    [processData] met them, each with its metrics. *)
Definition ChainMetrics := list (string * gmap string Q).

Record L2Summary := { chain : string; tvl : Q; txcount : Q }.

Record ChainValue := { cv_chain : string; cv_value : Q }.

(** [getL2Overview(limit)], for a limit that is a non-negative integer. *)
Definition getL2Overview (chainMetrics : ChainMetrics) (limit : nat) : list L2Summary :=
  take limit
    (sortWith (fun a b => (tvl b - tvl a)%Q)
       (map (fun '(chain, metrics) =>
               {| chain := chain;
                  tvl := growthepie.metric metrics "tvl";
                  txcount := growthepie.metric metrics "txcount" |})
            chainMetrics)).

(** [getL2Fees()]: [cv_value] is the field [fees]. *)
Definition getL2Fees (chainMetrics : ChainMetrics) : list ChainValue :=
  sortWith (fun a b => (cv_value a - cv_value b)%Q)
    (filter (fun c => negb (Qle_bool (cv_value c) 0))
       (map (fun '(chain, metrics) =>
               {| cv_chain := chain; cv_value := growthepie.metric metrics "txcosts" |})
            chainMetrics)).

(** [getBlobData()]: [cv_value] is the field [blobFees]. *)
Definition getBlobData (chainMetrics : ChainMetrics) : list ChainValue :=
  sortWith (fun a b => (cv_value b - cv_value a)%Q)
    (filter (fun c => negb (Qle_bool (cv_value c) 0))
       (map (fun '(chain, metrics) =>
               {| cv_chain := chain; cv_value := growthepie.metric metrics "rent_paid" |})
            chainMetrics)).

(** [getMetricRanking(metric, limit)], for a limit that is a non-negative
    integer. *)
Definition getMetricRanking (chainMetrics : ChainMetrics) (metric : string) (limit : nat)
  : list ChainValue :=
  take limit
    (sortWith (fun a b => (cv_value b - cv_value a)%Q)
       (filter (fun c => negb (Qle_bool (cv_value c) 0))
          (map (fun '(chain, metrics) =>
                  {| cv_chain := chain; cv_value := growthepie.metric metrics metric |})
               chainMetrics))).

(** [getAvailableChains()] *)
Definition getAvailableChains (chainMetrics : ChainMetrics) : list string :=
  map fst chainMetrics.


End GrowthepieViews.

(** ** Blob statistics *)

Module BlobRouting.

(** What [blobscan.getBlobStats()] resolves with. *)
Record BlobscanStats := {
  s_recentBlobCount : Q;
  s_avgBlobSize : Q;
  totalRecentSize : Q
}.

(** [b.size || 0], [size] being a number, [null] or [undefined]. *)
Definition sizeOrZero (size : value) : Q :=
  match size with
  | Num q => orZero q
  | Null | Undefined => 0%Q
  end.

(** [Math.round]: the nearest integer, the larger one on a tie. *)
Definition Math_round (x : Q) : Q := inject_Z (Qfloor (x + (1 # 2))).

(** The synchronous part of [blobscan.getBlobStats], [blobs] being the sizes
    of the blobs [getRecentBlobs(100)] resolved with. *)
Definition blobscanStats (blobs : list value) : BlobscanStats :=
  let totalSize := fold_left (fun sum b => (sum + sizeOrZero b)%Q) blobs 0%Q in
  let length := inject_Z (Z.of_nat (length blobs)) in
  {| s_recentBlobCount := length;
     s_avgBlobSize := if Nat.ltb 0 (List.length blobs)
                      then Math_round (totalSize / length) else 0%Q;
     totalRecentSize := totalSize |}.

Record NormalizedBlobStats := {
  recentBlobCount : Q;
  avgBlobSize : Q
}.

Record BlobStatsResult := {
  r_recentBlobCount : Q;
  r_avgBlobSize : Q;
  r_source : string;
  r_fallbacksUsed : nat
}.

(** [(r) => r.recentBlobCount >= 0] *)
Definition validate (r : NormalizedBlobStats) : bool := Qle_bool 0 (recentBlobCount r).

(** [d.blob_count] on an entry of [getBlobData()]: the entries are built as
    [{ chain, blobFees }] and carry no such property. *)
Definition blob_count (d : GrowthepieViews.ChainValue) : value := Undefined.

(** [d.blob_count || 0] *)
Definition blobCountOrZero (d : GrowthepieViews.ChainValue) : Q :=
  match blob_count d with
  | Num q => orZero q
  | Null | Undefined => 0%Q
  end.

Definition blobStatsSources
    (getRecentBlobs : Z -> Settled (list value))
    (getFundamentals : Z -> Settled GrowthepieViews.ChainMetrics)
  : list (Source NormalizedBlobStats) :=
  [ {| name := "blobscan";
       fn := fun t =>
         thenSync (getRecentBlobs t)
           (fun blobs =>
              let stats := blobscanStats blobs in
              Resolved {| recentBlobCount := orZero (s_recentBlobCount stats);
                          avgBlobSize := orZero (s_avgBlobSize stats) |}) |};
    {| name := "growthepie";
       fn := fun t =>
         thenSync (getFundamentals t)
           (fun chainMetrics =>
              let data := GrowthepieViews.getBlobData chainMetrics in
              let totalBlobs :=
                fold_left (fun sum d => (sum + blobCountOrZero d)%Q) data 0%Q in
              Resolved {| recentBlobCount := totalBlobs;
                          avgBlobSize := (128 * 1024)%Q |}) |} ].

Definition getBlobStats
    (getRecentBlobs : Z -> Settled (list value))
    (getFundamentals : Z -> Settled GrowthepieViews.ChainMetrics)
    (w : World) : Outcome BlobStatsResult * World :=
  let run := executeWithFallback (blobStatsSources getRecentBlobs getFundamentals)
               (Some validate) w in
  (match fst run with
   | Resolved fr =>
       Resolved {| r_recentBlobCount := recentBlobCount (result fr);
                   r_avgBlobSize := avgBlobSize (result fr);
                   r_source := source fr;
                   r_fallbacksUsed := fallbacksUsed fr |}
   | Rejected e => Rejected e
   end, snd run).

End BlobRouting.

(** ** The response cache of the adapters ([utils/cache.ts]) *)

Module CacheModel.

Record CacheEntry (T : Type) := { value : T; expiry : Z }.
Arguments value {T} _.
Arguments expiry {T} _.

(** A [Map<string, V>]: its entries in insertion order. *)
Abbreviation JsMap V := (list (string * V)).

(** [map.get(key)] *)
Definition mapGet {V} (key : string) (m : JsMap V) : option V :=
  snd <$> find (fun kv => String.eqb (fst kv) key) m.

(** [map.delete(key)] *)
Definition mapDelete {V} (key : string) (m : JsMap V) : JsMap V :=
  filter (fun kv => negb (String.eqb (fst kv) key)) m.

(** [map.set(key, v)]: an existing key keeps its place, a new one goes to
    the end. *)
Fixpoint mapSet {V} (key : string) (v : V) (m : JsMap V) : JsMap V :=
  match m with
  | [] => [(key, v)]
  | (k, v') :: m' =>
      if String.eqb k key then (key, v) :: m' else (k, v') :: mapSet key v m'
  end.

Record Cache (T : Type) := {
  cache : JsMap (CacheEntry T);
  maxSize : nat
}.
Arguments cache {T} _.
Arguments maxSize {T} _.

(** [get(key)] at the instant [now]: the value, if any, and the cache
    afterwards. *)
Definition get {T} (key : string) (now : Z) (c : Cache T) : option T * Cache T :=
  match mapGet key (cache c) with
  | None => (None, c)
  | Some entry =>
      if Z.ltb (expiry entry) now then
        (None, {| cache := mapDelete key (cache c); maxSize := maxSize c |})
      else
        (Some (value entry),
         {| cache := mapSet key entry (mapDelete key (cache c));
            maxSize := maxSize c |})
  end.

(** [set(key, value, ttlMs)] at the instant [now]. *)
Definition put {T} (key : string) (v : T) (ttlMs : Z) (now : Z) (c : Cache T) : Cache T :=
  let m :=
    if Nat.leb (maxSize c) (length (cache c)) then
      match cache c with
      | (oldestKey, _) :: _ =>
          if truthy_string oldestKey then mapDelete oldestKey (cache c) else cache c
      | [] => cache c
      end
    else cache c in
  {| cache := mapSet key {| value := v; expiry := now + ttlMs |} m;
     maxSize := maxSize c |}.

(** [clear()] *)
Definition clear {T} (c : Cache T) : Cache T :=
  {| cache := []; maxSize := maxSize c |}.

(** The end of [cachedFetch]: [await fetcher()], then store and return the
    result. *)
Definition fetchAndStore {T} (key : string) (ttl : Z) (fetcher : Z -> Settled T)
    (now : Z) (c : Cache T) : Outcome T * Z * Cache T :=
  let r := fetcher now in
  let now' := now + Z.of_N (latency r) in
  match outcome r with
  | Resolved result => (Resolved result, now', put key result ttl now' c)
  | Rejected e => (Rejected e, now', c)
  end.

(** [cachedFetch(key, ttl, fetcher, noCache)] started at [now] on the shared
    cache [c]; [truthyT] is the truthiness of the cached values.  Returns
    how the promise settles, the instant at which it does, and the cache
    afterwards. *)
Definition cachedFetch {T} (truthyT : T -> bool) (key : string) (ttl : Z)
    (fetcher : Z -> Settled T) (noCache : bool) (now : Z) (c : Cache T)
  : Outcome T * Z * Cache T :=
  let '(cached, c) := if noCache then (None, c) else get key now c in
  match cached with
  | Some v =>
      if truthyT v then (Resolved v, now, c)
      else fetchAndStore key ttl fetcher now c
  | None => fetchAndStore key ttl fetcher now c
  end.

(** What holds of the shared cache as the adapters use it: keys are unique
    (it is a [Map]), none is the empty string, and there are at most
    [maxSize] entries. *)
Definition wellFormed {T} (c : Cache T) : Prop :=
  NoDup (map fst (cache c)) /\
  Forall (fun k => k <> ""%string) (map fst (cache c)) /\
  (length (cache c) <= maxSize c)%nat.

End CacheModel.

(** ** L2 analytics adapter: from the flat export to the metrics of each chain *)

Module GrowthepieData.

(** An entry of [fundamentals.json], as far as [processData] reads it.
    [date] is an ISO day such as [2024-05-17]; the code compares dates as
    strings. *)
Record Item := {
  origin_key : string;
  metric_key : string;
  date : string;
  value : Q
}.

(** [`${item.origin_key}_${item.metric_key}`] *)
Definition key (item : Item) : string :=
  (origin_key item ++ "_" ++ metric_key item)%string.

(** One turn of the first loop: [latestDates] afterwards.  [a > b] on
    strings is the order of their character codes. *)
Definition noteDate (latestDates : gmap string string) (item : Item)
  : gmap string string :=
  match latestDates !! key item with
  | None => <[key item := date item]> latestDates
  | Some latest =>
      if String.ltb latest (date item) then <[key item := date item]> latestDates
      else latestDates
  end.

(** One turn of the second loop: [chainMetrics] afterwards.  The inner map
    is changed in place, so the chain keeps its position. *)
Definition extract (latestDates : gmap string string)
    (chainMetrics : GrowthepieViews.ChainMetrics) (item : Item)
  : GrowthepieViews.ChainMetrics :=
  if bool_decide (latestDates !! key item = Some (date item)) then
    let chainMetrics :=
      match CacheModel.mapGet (origin_key item) chainMetrics with
      | None => CacheModel.mapSet (origin_key item) ∅ chainMetrics
      | Some _ => chainMetrics
      end in
    match CacheModel.mapGet (origin_key item) chainMetrics with
    | Some metrics =>
        CacheModel.mapSet (origin_key item)
          (<[metric_key item := value item]> metrics) chainMetrics
    | None => chainMetrics
    end
  else chainMetrics.

(** [processData(data)] *)
Definition processData (data : list Item) : GrowthepieViews.ChainMetrics :=
  let latestDates := fold_left noteDate data ∅ in
  fold_left (extract latestDates) data [].

End GrowthepieData.

(** ** Rate limiting of the adapters ([utils/security.ts]) *)

Module Security.

Record RateLimiter := {
  requests : list Z;
  maxRequests : Z;
  windowMs : Z
}.

(** [new RateLimiter(maxRequests, windowMs)] *)
Definition create (maxRequests windowMs : Z) : RateLimiter :=
  {| requests := []; maxRequests := maxRequests; windowMs := windowMs |}.

(** [canMakeRequest()] at the instant [now]: the answer, and the limiter
    afterwards. *)
Definition canMakeRequest (now : Z) (rl : RateLimiter) : bool * RateLimiter :=
  let requests' := filter (fun t => now - t < windowMs rl) (requests rl) in
  (Z.of_nat (length requests') <? maxRequests rl,
   {| requests := requests'; maxRequests := maxRequests rl; windowMs := windowMs rl |}).

(** [recordRequest()] at the instant [now]. *)
Definition recordRequest (now : Z) (rl : RateLimiter) : RateLimiter :=
  {| requests := requests rl ++ [now];
     maxRequests := maxRequests rl;
     windowMs := windowMs rl |}.

(** One turn of the loop of [waitForSlot], made at the instant [now] without
    giving control away: whether the caller has its slot, and the limiter
    afterwards. *)
Definition turn (now : Z) (rl : RateLimiter) : bool * RateLimiter :=
  let '(ok, rl) := canMakeRequest now rl in
  if ok then (true, recordRequest now rl) else (false, rl).

(** [waitForSlot()] called at [now] by the only caller; [timer t] is the
    instant at which [setTimeout(r, 100)] started at [t] lets the loop go
    on.  Returns the instant at which the slot is taken, and the limiter
    afterwards. *)
Fixpoint waitForSlot (timer : Z -> Z) (fuel : nat) (now : Z) (rl : RateLimiter)
  : option (Z * RateLimiter) :=
  match fuel with
  | O => None
  | S fuel' =>
      let '(ok, rl') := turn now rl in
      if ok then Some (now, rl') else waitForSlot timer fuel' (timer now) rl'
  end.

(** The turns that any number of callers of [waitForSlot] take on one
    limiter, in the order and at the instants at which the event loop runs
    them; [granted] collects the instants at which a slot was taken. *)
Fixpoint turns (instants : list Z) (rl : RateLimiter) (granted : list Z)
  : list Z * RateLimiter :=
  match instants with
  | [] => (granted, rl)
  | now :: rest =>
      let '(ok, rl') := turn now rl in
      turns rest rl' (if ok then granted ++ [now] else granted)
  end.

(** The slots of [granted] taken in the window [(x - windowMs, x]]. *)
Definition slotsWithin (windowMs x : Z) (granted : list Z) : list Z :=
  filter (fun t => x - windowMs < t <= x) granted.

End Security.

(** ** The limiter and the slots it has granted *)

(** How the limiter [rl] stands to the slots [granted] so far, the last
    turn having been made at [p]: it remembers the slots that were less than
    [windowMs] old at [p], and each slot was, when it was taken, at most the
    [maxRequests]-th of its window. *)
Definition limiterTracks (p : Z) (rl : Security.RateLimiter) (granted : list Z) : Prop :=
  Security.requests rl = filter (fun t => p - t < Security.windowMs rl) granted /\
  forall before g after,
    granted = before ++ g :: after ->
    Z.of_nat (length (filter (fun t => g - t < Security.windowMs rl) (before ++ [g])))
    <= Security.maxRequests rl.

(** ** The two loops of [processData] *)

(** What the first loop has in [latestDates] after the items [seen]. *)
Definition latestOf (seen : list GrowthepieData.Item)
    (latestDates : gmap string string) : Prop :=
  (forall k d, latestDates !! k = Some d ->
     (exists i, i ∈ seen /\ GrowthepieData.key i = k /\ GrowthepieData.date i = d) /\
     (forall j, j ∈ seen -> GrowthepieData.key j = k ->
                String.ltb d (GrowthepieData.date j) = false)) /\
  (forall j, j ∈ seen -> is_Some (latestDates !! GrowthepieData.key j)).

(** What the second loop has in [chainMetrics] after the items [seen]. *)
Definition extractedFrom (latestDates : gmap string string)
    (seen : list GrowthepieData.Item)
    (chainMetrics : GrowthepieViews.ChainMetrics) : Prop :=
  NoDup (map fst chainMetrics) /\
  (forall o metrics m v,
      CacheModel.mapGet o chainMetrics = Some metrics -> metrics !! m = Some v ->
      exists item,
        item ∈ seen /\
        GrowthepieData.origin_key item = o /\
        GrowthepieData.metric_key item = m /\
        GrowthepieData.value item = v /\
        latestDates !! GrowthepieData.key item = Some (GrowthepieData.date item)) /\
  (forall item,
      item ∈ seen ->
      latestDates !! GrowthepieData.key item = Some (GrowthepieData.date item) ->
      exists metrics,
        CacheModel.mapGet (GrowthepieData.origin_key item) chainMetrics = Some metrics /\
        is_Some (metrics !! GrowthepieData.metric_key item)).

(** ** Reachable circuit tables *)

(** What every table built by the three circuit operations satisfies: a
    circuit is only ever open with at least [FAILURE_THRESHOLD] failures on
    its counter. *)
Definition breakerInvariant (cb : gmap string CircuitState) : Prop :=
  forall source c,
    cb !! source = Some c -> isOpen c = true -> (FAILURE_THRESHOLD <= failures c)%N.

(** [recordFailure(source)] called once at each of the instants [times]. *)
Definition recordFailures (source : string) (times : list Z)
    (cb : gmap string CircuitState) : gmap string CircuitState :=
  fold_left (fun acc t => recordFailure source t acc) times cb.

(** A provider whose call throws, or resolves with a value the validator
    rejects, whenever it is made. *)
Definition alwaysFails {T} (validate : option (T -> bool)) (s : Source T) : Prop :=
  forall t, exists e, tryBody validate (outcome (fn s t)) = Rejected e.

(** ** Health check *)

Record HealthStatus := {
  h_source : string;
  healthy : bool;
  h_latencyMs : Z;
  h_error : option string
}.

(** One iteration of the loop over [checks]. *)
Definition healthProbe {T} (source : string) (call : Z -> Settled T) (w : World)
  : HealthStatus * World :=
  let start := clock w in
  let r := call start in
  let w' := {| clock := clock w + Z.of_N (latency r);
               circuitBreakers := circuitBreakers w;
               trace := trace w |} in
  (match outcome r with
   | Resolved _ =>
       {| h_source := source; healthy := true;
          h_latencyMs := clock w' - start; h_error := None |}
   | Rejected e =>
       {| h_source := source; healthy := false;
          h_latencyMs := clock w' - start; h_error := Some (message_or_string e) |}
   end, w').

(** The loop [for (const check of checks)] over the checks still to make. *)
Fixpoint healthLoop (probe : string -> Z -> Settled unit) (checks : list string)
    (results : list HealthStatus) (w : World) : list HealthStatus * World :=
  match checks with
  | [] => (results, w)
  | source :: checks' =>
      let '(row, w') := healthProbe source (probe source) w in
      healthLoop probe checks' (results ++ [row]) w'
  end.

(** [checkHealth()], [probe source] being the representative call of each
    source: [getBlockNumber] for [jsonrpc] and [etherscan], [getChains] for
    [defillama], [getGlobalData] for [coingecko], [listChains] for
    [growthepie], [getLatestBlock] for [blobscan].  What a probe resolves
    with is not looked at. *)
Definition checkHealth (env : Adapters) (probe : string -> Z -> Settled unit)
    (w : World) : list HealthStatus * World :=
  let checks : list string := [] in
  let checks := if jsonrpc_isConfigured env then checks ++ ["jsonrpc"%string] else checks in
  let checks :=
    checks ++ ["etherscan"; "defillama"; "coingecko"; "growthepie"; "blobscan"]%string in
  healthLoop probe checks [] w.

(** What a row of the health report says about the probe it was built
    from, in a check started in world [w]. *)
Definition healthRowReflects (probe : string -> Z -> Settled unit) (w : World)
    (h : HealthStatus) : Prop :=
  exists t, clock w <= t /\
    h_latencyMs h = Z.of_N (latency (probe (h_source h) t)) /\
    match outcome (probe (h_source h) t) with
    | Resolved _ => healthy h = true /\ h_error h = None
    | Rejected e => healthy h = false /\ h_error h = Some (message_or_string e)
    end.

(** [circuit?.isOpen ? ' [CIRCUIT OPEN]' : ''] of the [api_health_check]
    tool, [circuit] being [circuitStatus[h.source]]. *)
Definition circuitInfo (circuitStatus : gmap string (bool * N)) (source : string) : string :=
  match circuitStatus !! source with
  | Some (true, _) => " [CIRCUIT OPEN]"
  | _ => ""
  end.

(** ** Concrete inputs used in the examples below *)

Definition freshWorld : World :=
  {| clock := 0; circuitBreakers := ∅; trace := [] |}.

(** A provider call that settles the same way whenever it is started,
    after [ms] milliseconds. *)
Definition settles {T} (o : Outcome T) (ms : N) : Z -> Settled T :=
  fun _ => {| outcome := o; latency := ms |}.

Definition usdPrice (p : Q) : NormalizedPrice :=
  {| price := p; currency := "USD"; change24h := None; marketCap := None |}.

(** Providers [A (throws "timeout"), B (returns price 0), C (returns price 100)]. *)
Definition providersABC : list (Source NormalizedPrice) :=
  [ {| name := "A"; fn := settles (Rejected (newError "timeout")) 40 |};
    {| name := "B"; fn := settles (Resolved (usdPrice 0)) 25 |};
    {| name := "C"; fn := settles (Resolved (usdPrice 100)) 30 |} ].

(** Neither the node nor the explorer is configured. *)
Definition nothingConfigured : Adapters :=
  {| jsonrpc_isConfigured := false;
     jsonrpc_getNodeChainId := None;
     etherscan_isConfigured := false;
     etherscan_getChainId := fun _ => Some "1"%string |}.

(** Time passing between two calls of the router. *)
Definition elapse (ms : N) (w : World) : World :=
  {| clock := clock w + Z.of_N ms;
     circuitBreakers := circuitBreakers w;
     trace := trace w |}.

(** The table after [coingecko] failed at 1000, 2000 and 3000 ms. *)
Definition coingeckoTripped : gmap string CircuitState :=
  recordFailure "coingecko" 3000
    (recordFailure "coingecko" 2000 (recordFailure "coingecko" 1000 ∅)).

(** Fundamentals in which [arbitrum] has a TVL and [ghostchain] has none. *)
Definition sampleFundamentals : gmap string (gmap string Q) :=
  {[ "arbitrum"%string := {[ "tvl"%string := 17500000000%Q; "txcount"%string := 2100000%Q ]};
     "ghostchain"%string := {[ "tvl"%string := 0%Q; "txcount"%string := 12%Q ]} ]}.

Definition sampleChains : list LlamaChain :=
  [ {| ll_name := "Ethereum"; ll_tvl := 61000000000 |};
    {| ll_name := "Arbitrum"; ll_tvl := 17400000000 |};
    {| ll_name := "GhostChain"; ll_tvl := 0 |} ].

(** Two providers answer 3000 and 3006, the third one fails. *)
Definition compare3000and3006 : SourceComparison :=
  fst (compareEthPrice (settles (Resolved (Num 3000)) 110)
         (settles (Resolved (Num 3006)) 240)
         (settles (Rejected (newError "DefiLlama API error: Too Many Requests")) 35)
         freshWorld).

(** Price adapters in which the explorer reports a price of 0 and the
    market-data service knows [ethereum] and [usd-coin]. *)
Definition samplePriceAdapters : PriceRouting.PriceAdapters :=
  {| PriceRouting.etherscan_usd := settles (Resolved (Num 0)) 90;
     PriceRouting.coingecko_getPrice := fun ids =>
       settles (Resolved
         {[ "ethereum"%string :=
              {[ "usd"%string := 3000%Q; "usd_24h_change"%string := (3 # 2)%Q ]};
            "usd-coin"%string := {[ "usd"%string := 1%Q ]} ]}) 150;
     PriceRouting.coingecko_byContract := fun _ _ => settles (Resolved None) 140;
     PriceRouting.defillama_price := fun _ => settles (Resolved (Num (2999 # 1))) 60 |}.

(** An export with two days of Arbitrum's TVL and one of Base's. *)
Definition sampleExport : list GrowthepieData.Item :=
  [ {| GrowthepieData.origin_key := "arbitrum"; GrowthepieData.metric_key := "tvl";
       GrowthepieData.date := "2024-05-17"; GrowthepieData.value := 17500000000 |};
    {| GrowthepieData.origin_key := "arbitrum"; GrowthepieData.metric_key := "tvl";
       GrowthepieData.date := "2024-05-16"; GrowthepieData.value := 17400000000 |};
    {| GrowthepieData.origin_key := "base"; GrowthepieData.metric_key := "tvl";
       GrowthepieData.date := "2024-05-17"; GrowthepieData.value := 9000000000 |} ].

(** ** Facts about the circuit breaker *)

Section CircuitFacts.

Implicit Types (cb : gmap string CircuitState) (source other : string) (now : Z).

Lemma circuitOf_Some source cb c : cb !! source = Some c -> circuitOf source cb = c.
Proof. unfold circuitOf, getCircuit. by intros ->. Qed.

Lemma getCircuit_lookup source cb :
  snd (getCircuit source cb) !! source = Some (circuitOf source cb).
Proof.
  unfold circuitOf, getCircuit.
  destruct (cb !! source) as [c|] eqn:E; simpl; [done|].
  apply lookup_insert_eq.
Qed.

Lemma getCircuit_other source other cb :
  source <> other -> snd (getCircuit source cb) !! other = cb !! other.
Proof.
  intros Hne. unfold getCircuit.
  destruct (cb !! source); simpl; [done|]. by apply lookup_insert_ne.
Qed.

Lemma recordFailure_lookup source now cb :
  recordFailure source now cb !! source =
  Some {| failures := (failures (circuitOf source cb) + 1)%N;
          lastFailure := now;
          isOpen := if N.leb FAILURE_THRESHOLD (failures (circuitOf source cb) + 1)%N
                    then true else isOpen (circuitOf source cb) |}.
Proof.
  unfold recordFailure, circuitOf.
  destruct (getCircuit source cb) as [c cb']. simpl. apply lookup_insert_eq.
Qed.

Lemma recordFailure_other source other now cb :
  source <> other -> recordFailure source now cb !! other = cb !! other.
Proof.
  intros Hne. unfold recordFailure.
  pose proof (getCircuit_other source other cb Hne) as H.
  destruct (getCircuit source cb) as [c cb']. simpl in *.
  by rewrite lookup_insert_ne.
Qed.

Lemma recordSuccess_lookup source cb :
  recordSuccess source cb !! source =
  Some {| failures := 0%N; lastFailure := lastFailure (circuitOf source cb);
          isOpen := false |}.
Proof.
  unfold recordSuccess, circuitOf.
  destruct (getCircuit source cb) as [c cb']. simpl. apply lookup_insert_eq.
Qed.

Lemma recordSuccess_other source other cb :
  source <> other -> recordSuccess source cb !! other = cb !! other.
Proof.
  intros Hne. unfold recordSuccess.
  pose proof (getCircuit_other source other cb Hne) as H.
  destruct (getCircuit source cb) as [c cb']. simpl in *.
  by rewrite lookup_insert_ne.
Qed.

Lemma isCircuitOpen_other source other now cb :
  source <> other -> snd (isCircuitOpen source now cb) !! other = cb !! other.
Proof.
  intros Hne. unfold isCircuitOpen.
  pose proof (getCircuit_other source other cb Hne) as H.
  destruct (getCircuit source cb) as [c cb']. simpl in *.
  destruct (negb (isOpen c)); simpl; [done|].
  destruct (RECOVERY_TIME <? now - lastFailure c); simpl; [|done].
  by rewrite lookup_insert_ne.
Qed.

(** A query inside the recovery window on an open circuit answers "open"
    and leaves the table as it is. *)
Lemma isCircuitOpen_within source now cb c :
  cb !! source = Some c -> isOpen c = true ->
  now - lastFailure c <= RECOVERY_TIME ->
  isCircuitOpen source now cb = (true, cb).
Proof.
  intros Hc Ho Hw. unfold isCircuitOpen, getCircuit. rewrite Hc, Ho. simpl.
  destruct (Z.ltb_spec RECOVERY_TIME (now - lastFailure c)); [lia|done].
Qed.

(** A query on a closed circuit answers "closed"; the entry is unchanged. *)
Lemma isCircuitOpen_closed source now cb :
  isOpen (circuitOf source cb) = false ->
  fst (isCircuitOpen source now cb) = false /\
  snd (isCircuitOpen source now cb) !! source = Some (circuitOf source cb).
Proof.
  intros Ho. pose proof (getCircuit_lookup source cb) as Hl.
  unfold isCircuitOpen, circuitOf in *.
  destruct (getCircuit source cb) as [c cb']. simpl in *. by rewrite Ho.
Qed.

(** A query after the recovery window answers "closed" and clears [isOpen],
    keeping the failure count. *)
Lemma isCircuitOpen_recovered source now cb c :
  cb !! source = Some c -> isOpen c = true ->
  RECOVERY_TIME < now - lastFailure c ->
  isCircuitOpen source now cb =
  (false, <[source := {| failures := failures c; lastFailure := lastFailure c;
                         isOpen := false |}]> cb).
Proof.
  intros Hc Ho Hw. unfold isCircuitOpen, getCircuit. rewrite Hc, Ho. simpl.
  destruct (Z.ltb_spec RECOVERY_TIME (now - lastFailure c)); [done|lia].
Qed.

(** Three failures in a row leave the circuit open, whatever came before. *)
Lemma three_failures_state source t1 t2 t3 cb :
  recordFailure source t3 (recordFailure source t2 (recordFailure source t1 cb))
    !! source =
  Some {| failures := (failures (circuitOf source cb) + 3)%N;
          lastFailure := t3; isOpen := true |}.
Proof.
  rewrite recordFailure_lookup.
  rewrite (circuitOf_Some _ _ _ (recordFailure_lookup source t2 _)).
  rewrite (circuitOf_Some _ _ _ (recordFailure_lookup source t1 _)).
  simpl. unfold FAILURE_THRESHOLD.
  destruct (N.leb_spec 3 (failures (circuitOf source cb) + 1 + 1 + 1)); [|lia].
  do 2 f_equal. lia.
Qed.

End CircuitFacts.

(** ** Facts about the fallback executor *)

Section ExecutorFacts.

Context {T : Type}.
Implicit Types (validate : option (T -> bool)) (rest sources : list (Source T)).
Implicit Types (w : World) (errors : list ErrorEntry) (P : string).

Lemma events_since_app w w' evs :
  trace w' = trace w ++ evs -> events_since w w' = evs.
Proof. intros H. unfold events_since. rewrite H. apply drop_app_length. Qed.

(** [tryBody] yields a value exactly when the call resolved with it and
    the validator, if any, did not reject it. *)
Lemma tryBody_Resolved validate (o : Outcome T) v :
  tryBody validate o = Resolved v <->
  o = Resolved v /\ rejects validate v = false.
Proof.
  unfold tryBody. destruct o as [v'|e].
  - destruct (rejects validate v') eqn:E; split.
    + discriminate.
    + intros [[= ->] H]. congruence.
    + intros [= ->]. done.
    + intros [[= ->] _]. done.
  - split; [discriminate | intros [? _]; discriminate].
Qed.

Lemma tryBody_None (o : Outcome T) : tryBody None o = o.
Proof. by destruct o. Qed.

(** The clock never runs backwards during the loop. *)
Lemma fallbackLoop_clock validate rest :
  forall i errors w, clock w <= clock (snd (fallbackLoop validate i rest errors w)).
Proof.
  induction rest as [|s rest IH]; intros i errors w; simpl; [lia|].
  destruct (isCircuitOpen (name s) (clock w) (circuitBreakers w)) as [open cb].
  destruct open.
  - etransitivity; [|apply IH]. simpl. lia.
  - destruct (tryBody validate (outcome (fn s (clock w)))); simpl; [lia|].
    etransitivity; [|apply IH]. simpl. lia.
Qed.

(** The shape of a run of the loop: a block of failed iterations, then
    either the one successful invocation or the end of the list. *)
Lemma fallbackLoop_shape validate rest :
  forall i errors w res w',
    fallbackLoop validate i rest errors w = (res, w') ->
    exists evs, trace w' = trace w ++ evs /\
      match res with
      | Resolved r =>
          exists pre s post t evs0 errs,
            rest = pre ++ s :: post /\
            fallbacksUsed r = (i + length pre)%nat /\
            source r = name s /\
            failedRun validate i pre evs0 errs /\
            evs = evs0 ++ [EvInvoke (i + length pre) (name s) t;
                           EvRecordSuccess (name s)] /\
            outcome (fn s t) = Resolved (result r) /\
            rejects validate (result r) = false
      | Rejected e =>
          exists errs,
            failedRun validate i rest evs errs /\
            e = allFailed (errors ++ errs)
      end.
Proof.
  induction rest as [|s rest IH]; intros i errors w res w' H; simpl in H.
  - injection H as <- <-. exists []. split; [by rewrite app_nil_r|].
    exists []. split; [constructor|]. by rewrite app_nil_r.
  - destruct (isCircuitOpen (name s) (clock w) (circuitBreakers w)) as [open cb].
    destruct open.
    + apply IH in H as (evs & Htr & Hres). simpl in Htr.
      exists ([EvSkip i (name s)] ++ evs). split.
      { rewrite Htr. by rewrite <- app_assoc. }
      destruct res as [r|e].
      * destruct Hres as (pre & s' & post & t & evs0 & errs & -> & Hk & Hs & Hrun & -> & Ho & Hv).
        exists (s :: pre), s', post, t, ([EvSkip i (name s)] ++ evs0),
          ({| e_source := name s; e_error := "Circuit breaker open" |} :: errs).
        repeat split; try done.
        -- simpl. lia.
        -- apply fr_cons; [apply fa_skipped | done].
        -- simpl. do 4 f_equal. lia.
      * destruct Hres as (errs & Hrun & ->).
        exists ({| e_source := name s; e_error := "Circuit breaker open" |} :: errs).
        split.
        -- apply fr_cons; [apply fa_skipped | done].
        -- by rewrite <- app_assoc.
    + destruct (tryBody validate (outcome (fn s (clock w)))) as [v|e0] eqn:Et.
      * injection H as <- <-. simpl.
        exists [EvInvoke i (name s) (clock w); EvRecordSuccess (name s)].
        split; [done|].
        apply tryBody_Resolved in Et as [Ho Hv].
        exists [], s, rest, (clock w), [], []. simpl.
        repeat split; try done; try (simpl; lia); try constructor.
        by rewrite Nat.add_0_r.
      * apply IH in H as (evs & Htr & Hres). simpl in Htr.
        exists ([EvInvoke i (name s) (clock w); EvRecordFailure (name s)] ++ evs). split.
        { rewrite Htr. by rewrite <- app_assoc. }
        destruct res as [r|e].
        -- destruct Hres as (pre & s' & post & t & evs0 & errs & -> & Hk & Hs & Hrun & -> & Ho & Hv).
           exists (s :: pre), s', post, t,
             ([EvInvoke i (name s) (clock w); EvRecordFailure (name s)] ++ evs0),
             ({| e_source := name s; e_error := message_or_string e0 |} :: errs).
           repeat split; try done.
           ++ simpl. lia.
           ++ apply fr_cons; [by apply fa_failed | done].
           ++ simpl. do 5 f_equal. lia.
        -- destruct Hres as (errs & Hrun & ->).
           exists ({| e_source := name s; e_error := message_or_string e0 |} :: errs).
           split.
           ++ apply fr_cons; [by apply fa_failed | done].
           ++ by rewrite <- app_assoc.
Qed.

(** While the circuit of [P] is open and the loop ends inside the recovery
    window, no iteration invokes a thunk registered under [P], and the
    entry of [P] is left as it was. *)
Lemma fallbackLoop_open_skipped validate P c rest :
  forall i errors w res w',
    fallbackLoop validate i rest errors w = (res, w') ->
    circuitBreakers w !! P = Some c -> isOpen c = true ->
    clock w' - lastFailure c <= RECOVERY_TIME ->
    exists evs, trace w' = trace w ++ evs /\
      (forall j t, EvInvoke j P t ∉ evs) /\
      circuitBreakers w' !! P = Some c.
Proof.
  induction rest as [|s rest IH]; intros i errors w res w' H Hc Ho Hw.
  - simpl in H. injection H as <- <-. exists []. rewrite app_nil_r.
    repeat split; [|done]. intros j t Hin. by apply not_elem_of_nil in Hin.
  - pose proof (fallbackLoop_clock validate (s :: rest) i errors w) as Hmono.
    rewrite H in Hmono. simpl in Hmono.
    simpl in H. destruct (decide (name s = P)) as [Heq|Hne].
    + rewrite Heq in H.
      rewrite (isCircuitOpen_within P (clock w) _ c Hc Ho) in H by lia.
      apply IH in H as (evs & Htr & Hno & Hc'); try done. simpl in Htr.
      exists ([EvSkip i P] ++ evs). split; [by rewrite Htr, <- app_assoc|].
      split; [|done]. intros j t [Hin|Hin]%elem_of_app.
      * apply list_elem_of_singleton in Hin. discriminate.
      * by apply (Hno j t).
    + pose proof (isCircuitOpen_other (name s) P (clock w) (circuitBreakers w) Hne) as Hoth.
      destruct (isCircuitOpen (name s) (clock w) (circuitBreakers w)) as [open cb].
      simpl in Hoth. destruct open.
      * apply IH in H as (evs & Htr & Hno & Hc'); try done; [|simpl; congruence].
        simpl in Htr.
        exists ([EvSkip i (name s)] ++ evs). split; [by rewrite Htr, <- app_assoc|].
        split; [|done]. intros j t [Hin|Hin]%elem_of_app.
        -- apply list_elem_of_singleton in Hin. discriminate.
        -- by apply (Hno j t).
      * destruct (tryBody validate (outcome (fn s (clock w)))) as [v|e0].
        -- injection H as <- <-. simpl.
           exists [EvInvoke i (name s) (clock w); EvRecordSuccess (name s)].
           split; [done|]. split.
           ++ intros j t Hin. apply elem_of_cons in Hin as [Hin|Hin].
              ** injection Hin as _ Hn _. congruence.
              ** apply list_elem_of_singleton in Hin. discriminate.
           ++ rewrite recordSuccess_other by done. congruence.
        -- apply IH in H as (evs & Htr & Hno & Hc'); try done.
           2:{ simpl. rewrite recordFailure_other by done. congruence. }
           simpl in Htr.
           exists ([EvInvoke i (name s) (clock w); EvRecordFailure (name s)] ++ evs).
           split; [by rewrite Htr, <- app_assoc|].
           split; [|done]. intros j t [Hin|Hin]%elem_of_app.
           ++ apply elem_of_cons in Hin as [Hin|Hin].
              ** injection Hin as _ Hn _. congruence.
              ** apply list_elem_of_singleton in Hin. discriminate.
           ++ by apply (Hno j t).
Qed.

(** Folding the validator into the thunks changes nothing. *)
Lemma fallbackLoop_throwingInstead validate rest :
  forall i errors w,
    fallbackLoop None i (map (throwingInstead validate) rest) errors w =
    fallbackLoop validate i rest errors w.
Proof.
  induction rest as [|s rest IH]; intros i errors w; simpl; [done|].
  destruct (isCircuitOpen (name s) (clock w) (circuitBreakers w)) as [open cb].
  destruct open; [apply IH|].
  rewrite tryBody_None.
  destruct (tryBody validate (outcome (fn s (clock w)))); [done|apply IH].
Qed.

End ExecutorFacts.

(** ** The circuit breaker, as specified *)

(** C8 (amended): [recordFailure] increments the failure counter of the
    provider and sets its [lastFailure] to the current time on every call;
    it sets [isOpen] to true when the resulting counter reaches or exceeds
    the threshold of 3, and leaves [isOpen] unchanged when the resulting
    counter is below the threshold.  The entries of the other providers are
    not touched. *)
Theorem recordFailure_effect (source : string) (now : Z) (cb : gmap string CircuitState) :
  let c := circuitOf source cb in
  exists c',
    recordFailure source now cb !! source = Some c' /\
    failures c' = (failures c + 1)%N /\
    lastFailure c' = now /\
    ((FAILURE_THRESHOLD <= failures c')%N -> isOpen c' = true) /\
    ((failures c' < FAILURE_THRESHOLD)%N -> isOpen c' = isOpen c) /\
    (forall other, source <> other -> recordFailure source now cb !! other = cb !! other).
Proof.
  intros c. eexists. split; [apply recordFailure_lookup|]. simpl. fold c.
  repeat split.
  - intros H. destruct (N.leb_spec FAILURE_THRESHOLD (failures c + 1)); [done|lia].
  - intros H. destruct (N.leb_spec FAILURE_THRESHOLD (failures c + 1)); [lia|done].
  - intros other Hne. by apply recordFailure_other.
Qed.

(** C8 as stated fails: a first failure, recorded at 5000 ms on an empty
    table, leaves the counter at 1, below the threshold, and yet moves
    [lastFailure] from 0 to 5000. *)
Lemma recordFailure_below_threshold_moves_lastFailure :
  exists c',
    recordFailure "etherscan" 5000 ∅ !! "etherscan"%string = Some c' /\
    (failures c' < FAILURE_THRESHOLD)%N /\
    lastFailure (circuitOf "etherscan" ∅) = 0 /\
    lastFailure c' = 5000 /\
    lastFailure c' <> lastFailure (circuitOf "etherscan" ∅).
Proof.
  eexists. split; [apply recordFailure_lookup|]. vm_compute.
  repeat split; congruence.
Qed.

(** C2: after three [recordFailure] calls in a row for a provider [P]
    (at any instants [t1], [t2], [t3], from any table), the entry of [P]
    has [isOpen] set and [lastFailure = t3], and (1) [isCircuitOpen]
    answers true at every instant within 60,000 ms of the last failure and
    changes nothing; (2) an iteration of the executor that meets [P] at such
    an instant pushes the reason 'Circuit breaker open' under its name and
    goes on with the next provider; (3) in a whole call of
    [executeWithFallback] that ends within 60,000 ms of the last failure, no
    thunk registered under [P] is invoked. *)
Theorem open_circuit_skips_provider (P : string) (t1 t2 t3 : Z)
    (cb0 : gmap string CircuitState) :
  let cb3 := recordFailure P t3 (recordFailure P t2 (recordFailure P t1 cb0)) in
  (exists c, cb3 !! P = Some c /\ isOpen c = true /\ lastFailure c = t3) /\
  (forall now, now - t3 <= RECOVERY_TIME -> isCircuitOpen P now cb3 = (true, cb3)) /\
  (forall T (validate : option (T -> bool)) i (s : Source T) rest errors w,
      name s = P -> circuitBreakers w !! P = cb3 !! P ->
      clock w - t3 <= RECOVERY_TIME ->
      fallbackLoop validate i (s :: rest) errors w =
      fallbackLoop validate (S i) rest
        (errors ++ [{| e_source := P; e_error := "Circuit breaker open" |}])
        {| clock := clock w; circuitBreakers := circuitBreakers w;
           trace := trace w ++ [EvSkip i P] |}) /\
  (forall T (sources : list (Source T)) validate w,
      circuitBreakers w !! P = cb3 !! P ->
      let w' := snd (executeWithFallback sources validate w) in
      clock w' - t3 <= RECOVERY_TIME ->
      forall j t, EvInvoke j P t ∉ events_since w w').
Proof.
  intros cb3. pose proof (three_failures_state P t1 t2 t3 cb0) as H3. fold cb3 in H3.
  split; [|split; [|split]].
  - by eexists.
  - intros now Hw. by eapply isCircuitOpen_within.
  - intros T validate i s rest errors w Hn Hc Hw. simpl. rewrite Hn.
    rewrite H3 in Hc.
    by rewrite (isCircuitOpen_within P (clock w) _ _ Hc eq_refl) by done.
  - intros T sources validate w Hc w' Hw j t. rewrite H3 in Hc.
    unfold executeWithFallback in w'.
    destruct (fallbackLoop validate 0 sources [] w) as [res w1] eqn:E.
    destruct (fallbackLoop_open_skipped validate P _ sources 0%nat [] w res w1 E Hc eq_refl Hw)
      as (evs & Htr & Hno & _).
    subst w'. simpl. rewrite (events_since_app _ _ _ Htr). apply Hno.
Qed.

(** Provider B of the scenario, tripped at 1000, 2000 and 3000 ms and met
    by a call that starts at 10000 ms. *)
Lemma open_circuit_skips_provider_witness :
  let cb3 := recordFailure "B" 3000 (recordFailure "B" 2000 (recordFailure "B" 1000 ∅)) in
  let w := {| clock := 10000; circuitBreakers := cb3; trace := [] |} in
  let w' := snd (executeWithFallback providersABC (Some validatePrice) w) in
  isCircuitOpen "B" 10000 cb3 = (true, cb3) /\
  clock w' - 3000 <= RECOVERY_TIME /\
  forall j t, EvInvoke j "B" t ∉ events_since w w'.
Proof.
  intros cb3 w w'.
  destruct (open_circuit_skips_provider "B" 1000 2000 3000 ∅) as (_ & H1 & _ & H3).
  assert (clock w' - 3000 <= RECOVERY_TIME) as Hw by (vm_compute; discriminate).
  split; [apply H1; vm_compute; discriminate|]. split; [exact Hw|].
  exact (H3 NormalizedPrice providersABC (Some validatePrice) w eq_refl Hw).
Defined.

Example tripped_B_is_skipped :
  let cb3 := recordFailure "B" 3000 (recordFailure "B" 2000 (recordFailure "B" 1000 ∅)) in
  let w := {| clock := 10000; circuitBreakers := cb3; trace := [] |} in
  let run := executeWithFallback providersABC (Some validatePrice) w in
  trace (snd run) =
    [EvInvoke 0 "A" 10000; EvRecordFailure "A"; EvSkip 1 "B";
     EvInvoke 2 "C" 10040; EvRecordSuccess "C"] /\
  fst run = Resolved {| result := usdPrice 100; source := "C"; fallbacksUsed := 2 |}.
Proof. vm_compute. split; reflexivity. Qed.

(** Once a query has cleared [isOpen], later queries keep answering
    "closed" for as long as no failure is recorded. *)
Lemma isCircuitOpen_stays_closed (source : string) (now now' : Z)
    (cb : gmap string CircuitState) (c : CircuitState) :
  cb !! source = Some c -> isOpen c = true ->
  RECOVERY_TIME < now - lastFailure c ->
  fst (isCircuitOpen source now' (snd (isCircuitOpen source now cb))) = false.
Proof.
  intros Hc Ho Hw. rewrite (isCircuitOpen_recovered _ _ _ _ Hc Ho Hw). simpl.
  apply isCircuitOpen_closed.
  by rewrite (circuitOf_Some _ _ _ (lookup_insert_eq _ _ _)).
Qed.

(** C3 (the code departs from it): with [coingecko] tripped by failures at
    1000, 2000 and 3000 ms, queries inside the recovery window answer
    "open" and change nothing, and the first query after the window, at
    63001 ms, answers "closed".  But the two queries that follow it, at
    63002 and 63003 ms, answer "closed" as well, although no outcome of the
    probe was reported in between. *)
Theorem halfopen_probe_is_not_single :
  isCircuitOpen "coingecko" 10000 coingeckoTripped = (true, coingeckoTripped) /\
  isCircuitOpen "coingecko" 63000 coingeckoTripped = (true, coingeckoTripped) /\
  let '(q1, cb1) := isCircuitOpen "coingecko" 63001 coingeckoTripped in
  let '(q2, cb2) := isCircuitOpen "coingecko" 63002 cb1 in
  let '(q3, cb3) := isCircuitOpen "coingecko" 63003 cb2 in
  q1 = false /\ q2 = false /\ q3 = false /\
  cb3 !! "coingecko"%string = Some {| failures := 3; lastFailure := 3000; isOpen := false |}.
Proof. vm_compute. repeat split. Qed.

(** ** The fallback executor, as specified *)

Section IterationFacts.

Context {T : Type}.
Implicit Types (validate : option (T -> bool)) (rest ss : list (Source T)).
Implicit Types (w : World) (errors errs : list ErrorEntry).


(** Failed iterations for the whole list are a run that throws. *)
Lemma fallbackLoop_all_failed validate i ss w errs w' :
  failedIterations validate i ss w errs w' ->
  forall errors,
    fallbackLoop validate i ss errors w = (Rejected (allFailed (errors ++ errs)), w').
Proof.
  induction 1 as [i w|i s ss w e w1 errs w' Hstep _ IH]; intros errors.
  - simpl. by rewrite app_nil_r.
  - cbn [fallbackLoop]. destruct Hstep as [cb Hopen|cb e0 Hopen He].
    + rewrite Hopen. rewrite IH. by rewrite <- app_assoc.
    + rewrite Hopen. cbv zeta. rewrite He. rewrite IH. by rewrite <- app_assoc.
Qed.

Lemma failedIterations_sources validate i ss w errs w' :
  failedIterations validate i ss w errs w' ->
  Forall2 (fun s e => e_source e = name s) ss errs.
Proof.
  induction 1 as [|i s ss w e w1 errs w' Hstep _ IH]; constructor; [|done].
  by destruct Hstep.
Qed.



End IterationFacts.


(** C5: if every provider of the list, in its turn, is skipped because its
    circuit is open or fails (its thunk throws, or the validator rejects its
    value), [executeWithFallback] throws one error.  Its message is
    'All sources failed: ' followed by one '<name>: <reason>' per provider
    of the list, in order and joined by '; ', the reason being the one of
    that provider's own iteration: 'Circuit breaker open' if it was
    skipped, [error.message || String(error)] of what reached [catch]
    otherwise.  The world is left as the last iteration left it. *)
Theorem all_sources_failed_message {T} (sources : list (Source T))
    (validate : option (T -> bool)) (w : World) (errs : list ErrorEntry) (w' : World) :
  failedIterations validate 0 sources w errs w' ->
  executeWithFallback sources validate w =
    (Rejected (newError
       ("All sources failed: " ++
        String.concat "; "
          (map (fun e => (e_source e ++ ": " ++ e_error e)%string) errs))),
     w') /\
  Forall2 (fun s e => e_source e = name s) sources errs.
Proof.
  intros Hrun. split; [|by eapply failedIterations_sources].
  unfold executeWithFallback. by rewrite (fallbackLoop_all_failed _ _ _ _ _ _ Hrun []).
Qed.

(** A run in which everything fails: A throws "timeout", the price 0 of B
    is rejected by the validator. *)
Lemma all_sources_failed_message_witness :
  fst (executeWithFallback (take 2 providersABC) (Some validatePrice) freshWorld) =
  Rejected (newError "All sources failed: A: timeout; B: Validation failed").
Proof.
  refine (f_equal fst
            (proj1 (all_sources_failed_message (take 2 providersABC)
                      (Some validatePrice) freshWorld
                      [ {| e_source := "A"; e_error := "timeout" |};
                        {| e_source := "B"; e_error := "Validation failed" |} ]
                      _ _))).
  simpl take.
  eapply fis_cons.
  { apply (fi_failed (Some validatePrice) 0
             {| name := "A"; fn := settles (Rejected (newError "timeout")) 40 |}
             freshWorld (snd (isCircuitOpen "A" 0 ∅)) (newError "timeout"));
      reflexivity. }
  eapply fis_cons; [|apply fis_nil].
  apply (fi_failed (Some validatePrice) 1
           {| name := "B"; fn := settles (Resolved (usdPrice 0)) 25 |}
           _ (snd (isCircuitOpen "B" 40 (recordFailure "A" 40 (snd (isCircuitOpen "A" 0 ∅)))))
           (newError "Validation failed"));
    reflexivity.
Defined.

Example A_and_B_fail :
  fst (executeWithFallback (take 2 providersABC) (Some validatePrice) freshWorld) =
  Rejected (newError "All sources failed: A: timeout; B: Validation failed").
Proof. vm_compute. reflexivity. Qed.

(** C6: a value the validator rejects is handled as a throw of
    [new Error('Validation failed')] by the same provider.  (1) Running the
    executor with a validator is running it without one over the providers
    whose thunks throw that error themselves: same result, same circuit
    table, same clock, same trace.  (2) Whatever reaches [catch], thrown by
    the thunk or raised on rejection, the iteration applies [recordFailure]
    to the provider, pushes the reason under its name and goes on with the
    next provider.  (3) For [A (throws "timeout"), B (returns price 0),
    C (returns price 100)] and the validator [price > 0], the result is
    price 100 from source "C" with [fallbacksUsed = 2], and both A and B
    have a failure recorded. *)
Theorem validator_rejection_is_a_throw :
  (forall T (sources : list (Source T)) (validate : option (T -> bool)) w,
      executeWithFallback (map (throwingInstead validate) sources) None w =
      executeWithFallback sources validate w) /\
  (forall T (validate : option (T -> bool)) (v : T) e,
      (rejects validate v = true ->
       tryBody validate (Resolved v) = Rejected (newError "Validation failed")) /\
      tryBody validate (Rejected e) = Rejected e) /\
  (forall T (validate : option (T -> bool)) i (s : Source T) rest errors w e,
      fst (isCircuitOpen (name s) (clock w) (circuitBreakers w)) = false ->
      tryBody validate (outcome (fn s (clock w))) = Rejected e ->
      let now := clock w + Z.of_N (latency (fn s (clock w))) in
      fallbackLoop validate i (s :: rest) errors w =
      fallbackLoop validate (S i) rest
        (errors ++ [{| e_source := name s; e_error := message_or_string e |}])
        {| clock := now;
           circuitBreakers :=
             recordFailure (name s) now
               (snd (isCircuitOpen (name s) (clock w) (circuitBreakers w)));
           trace := trace w ++ [EvInvoke i (name s) (clock w);
                                EvRecordFailure (name s)] |}) /\
  (let run := executeWithFallback providersABC (Some validatePrice) freshWorld in
   fst run = Resolved {| result := usdPrice 100; source := "C"; fallbacksUsed := 2 |} /\
   trace (snd run) =
     [EvInvoke 0 "A" 0; EvRecordFailure "A";
      EvInvoke 1 "B" 40; EvRecordFailure "B";
      EvInvoke 2 "C" 65; EvRecordSuccess "C"] /\
   getCircuitStatus (circuitBreakers (snd run)) !! "A"%string = Some (false, 1%N) /\
   getCircuitStatus (circuitBreakers (snd run)) !! "B"%string = Some (false, 1%N) /\
   getCircuitStatus (circuitBreakers (snd run)) !! "C"%string = Some (false, 0%N)).
Proof.
  split; [|split; [|split]].
  - intros T sources validate w. apply fallbackLoop_throwingInstead.
  - intros T validate v e. split; [|done]. intros Hr. simpl. by rewrite Hr.
  - intros T validate i s rest errors w e Hclosed Het now. simpl.
    destruct (isCircuitOpen (name s) (clock w) (circuitBreakers w)) as [open cb].
    simpl in Hclosed. subst open. by rewrite Het.
  - vm_compute. repeat split.
Qed.

(** The third part of the theorem above at provider B of the scenario, met
    after A has failed. *)
Lemma validator_rejection_is_a_throw_witness :
  let w := {| clock := 40; circuitBreakers := recordFailure "A" 40 ∅;
              trace := [EvInvoke 0 "A" 0; EvRecordFailure "A"] |} in
  fallbackLoop (Some validatePrice) 1 (drop 1 providersABC)
    [{| e_source := "A"; e_error := "timeout" |}] w =
  fallbackLoop (Some validatePrice) 2 (drop 2 providersABC)
    ([{| e_source := "A"; e_error := "timeout" |}] ++
     [{| e_source := "B"; e_error := "Validation failed" |}])
    {| clock := 65;
       circuitBreakers :=
         recordFailure "B" 65 (snd (isCircuitOpen "B" 40 (recordFailure "A" 40 ∅)));
       trace := [EvInvoke 0 "A" 0; EvRecordFailure "A"] ++
                [EvInvoke 1 "B" 40; EvRecordFailure "B"] |}.
Proof.
  intros w.
  apply (proj1 (proj2 (proj2 validator_rejection_is_a_throw))
           NormalizedPrice (Some validatePrice) 1%nat
           {| name := "B"; fn := settles (Resolved (usdPrice 0)) 25 |}
           (drop 2 providersABC)
           [{| e_source := "A"; e_error := "timeout" |}] w
           (newError "Validation failed")).
  - vm_compute. reflexivity.
  - vm_compute. reflexivity.
Defined.

(** ** On-chain routing *)

(** With nothing configured, [onChainSources] is the single synthetic
    provider. *)
Lemma onChainSources_unconfigured {T} (env : Adapters)
    (jsonrpcFn etherscanFn : Z -> Settled T) (requestedChain : option string) :
  jsonrpc_isConfigured env = false -> etherscan_isConfigured env = false ->
  map name (onChainSources env jsonrpcFn etherscanFn requestedChain) = ["No source"%string].
Proof. intros Hj He. unfold onChainSources. by rewrite Hj, He. Qed.

(** As long as the circuit of the synthetic provider is not open, an
    unconfigured operation fails with the message that names both
    remedies. *)
Lemma unconfigured_message_on_closed_circuit {T} (env : Adapters)
    (jsonrpcFn etherscanFn : Z -> Settled T) (requestedChain : option string)
    (w : World) :
  jsonrpc_isConfigured env = false -> etherscan_isConfigured env = false ->
  fst (isCircuitOpen "No source" (clock w) (circuitBreakers w)) = false ->
  fst (onChainOperation env jsonrpcFn etherscanFn requestedChain w) =
  Rejected (newError ("All sources failed: No source: " ++ NO_SOURCE_MESSAGE)).
Proof.
  intros Hj He Hclosed. unfold onChainOperation, onChainSources, executeWithFallback.
  rewrite Hj, He. simpl.
  destruct (isCircuitOpen "No source" (clock w) (circuitBreakers w)) as [open cb].
  simpl in Hclosed. subst open. reflexivity.
Qed.

(** C7 (the code departs from it): with neither the node nor the explorer
    configured, the first three calls of [getBalance] fail with the message
    that names both remedies; each of them counts as a failure of the
    synthetic provider "No source", so its circuit opens, and the fourth
    call, one second later, fails with a message that names neither. *)
Theorem unconfigured_message_lost_on_open_circuit
    (jsonrpc_getBalance etherscan_getBalance : string -> Z -> Settled string)
    (address : string) :
  let call := getBalance nothingConfigured jsonrpc_getBalance etherscan_getBalance address in
  let configurationError :=
    Rejected (newError ("All sources failed: No source: " ++ NO_SOURCE_MESSAGE)) in
  let '(r1, w1) := call freshWorld in
  let '(r2, w2) := call (elapse 1000 w1) in
  let '(r3, w3) := call (elapse 1000 w2) in
  let '(r4, w4) := call (elapse 1000 w3) in
  r1 = configurationError /\ r2 = configurationError /\ r3 = configurationError /\
  r4 = Rejected (newError "All sources failed: No source: Circuit breaker open") /\
  r4 <> configurationError.
Proof. vm_compute. repeat split. discriminate. Qed.

(** ** TVL routing *)

Section CaseFacts.

Lemma lower_ascii_upper (a : ascii) :
  isUpper a = true -> lower_ascii a = ascii_of_nat (nat_of_ascii a + 32).
Proof. unfold isUpper, lower_ascii. by intros ->. Qed.

Lemma lower_ascii_other (a : ascii) :
  isUpper a = false -> lower_ascii a = a.
Proof. unfold isUpper, lower_ascii. by intros ->. Qed.

Lemma isUpper_bounds (a : ascii) :
  isUpper a = true -> (65 <= nat_of_ascii a <= 90)%nat.
Proof.
  unfold isUpper. intros [H1 H2]%andb_true_iff.
  apply Nat.leb_le in H1, H2. lia.
Qed.

Lemma isUpper_shifted (a b : ascii) :
  isUpper a = true -> nat_of_ascii b = (nat_of_ascii a + 32)%nat -> isUpper b = false.
Proof.
  intros Ha Hb. apply isUpper_bounds in Ha. unfold isUpper. rewrite Hb.
  apply andb_false_iff. right. apply Nat.leb_gt. lia.
Qed.

Lemma sameLetter_lower (a b : ascii) :
  sameLetter a b = true <-> lower_ascii a = lower_ascii b.
Proof.
  unfold sameLetter. split.
  - intros [[H|[Ha Hb]%andb_true_iff]%orb_true_iff|[Hb Ha]%andb_true_iff]%orb_true_iff.
    + apply Ascii.eqb_eq in H. by subst.
    + apply Nat.eqb_eq in Hb.
      rewrite (lower_ascii_upper a Ha), (lower_ascii_other b (isUpper_shifted a b Ha Hb)).
      by rewrite <- Hb, ascii_nat_embedding.
    + apply Nat.eqb_eq in Ha.
      rewrite (lower_ascii_upper b Hb), (lower_ascii_other a (isUpper_shifted b a Hb Ha)).
      by rewrite <- Ha, ascii_nat_embedding.
  - intros H. destruct (isUpper a) eqn:Ha, (isUpper b) eqn:Hb; simpl.
    + rewrite !lower_ascii_upper in H by done.
      apply isUpper_bounds in Ha, Hb.
      apply (f_equal nat_of_ascii) in H. rewrite !nat_ascii_embedding in H by lia.
      assert (a = b) as ->.
      { rewrite <- (ascii_nat_embedding a), <- (ascii_nat_embedding b). f_equal. lia. }
      by rewrite Ascii.eqb_refl.
    + rewrite lower_ascii_upper, lower_ascii_other in H by done.
      apply isUpper_bounds in Ha.
      apply (f_equal nat_of_ascii) in H. rewrite nat_ascii_embedding in H by lia.
      rewrite <- H, Nat.eqb_refl. by rewrite orb_true_r.
    + rewrite lower_ascii_other, lower_ascii_upper in H by done.
      apply isUpper_bounds in Hb.
      apply (f_equal nat_of_ascii) in H. rewrite nat_ascii_embedding in H by lia.
      rewrite H, Nat.eqb_refl. by rewrite !orb_true_r.
    + rewrite !lower_ascii_other in H by done. subst.
      by rewrite Ascii.eqb_refl.
Qed.

Lemma differOnlyInCase_lower (s1 s2 : string) :
  differOnlyInCase s1 s2 = true <-> toLowerCase s1 = toLowerCase s2.
Proof.
  revert s2. induction s1 as [|a s1 IH]; intros [|b s2]; simpl; try done.
  rewrite andb_true_iff, sameLetter_lower, IH. split.
  - by intros [-> ->].
  - by intros [= -> ->].
Qed.

Lemma toLowerCase_idem (s : string) : toLowerCase (toLowerCase s) = toLowerCase s.
Proof.
  induction s as [|a s IH]; simpl; [done|]. rewrite IH. f_equal.
  destruct (isUpper a) eqn:Ha.
  - rewrite (lower_ascii_upper a Ha). apply lower_ascii_other.
    apply (isUpper_shifted a); [done|].
    apply isUpper_bounds in Ha. by rewrite nat_ascii_embedding by lia.
  - rewrite (lower_ascii_other a Ha). by apply lower_ascii_other.
Qed.

Lemma find_pointwise {A} (f g : A -> bool) (l : list A) :
  (forall x, f x = g x) -> find f l = find g l.
Proof. intros H. induction l as [|x l IH]; simpl; [done|]. by rewrite H, IH. Qed.

End CaseFacts.

(** C9 (amended): [getL2Tvl] lower-cases its chain argument before both
    lookups.  So for two arguments that differ only in letter case it
    behaves identically in every world and for all provider responses.
    With the L2-analytics service it looks up the lower-cased argument as
    it is among the chain keys, and with the DeFi aggregator it selects the
    first entry of the chain list whose name equals the argument up to
    letter case.  (The last two parts are stated for ASCII text, on which
    [toLowerCase] of this development is that of the code.) *)
Theorem getL2Tvl_case_insensitive
    (getFundamentals : Z -> Settled (gmap string (gmap string Q)))
    (getChains : Z -> Settled (list LlamaChain))
    (c1 c2 : string) :
  differOnlyInCase c1 c2 = true ->
  (forall w, getL2Tvl getFundamentals getChains c1 w =
             getL2Tvl getFundamentals getChains c2 w) /\
  (forall chainMetrics,
      growthepie.lookupChain chainMetrics c1 = growthepie.lookupChain chainMetrics c2 /\
      (asciiOnly c1 = true ->
       match chainMetrics !! toLowerCase c1 with
       | Some metrics =>
           exists d,
             growthepie.lookupChain chainMetrics c1 = Some d /\
             growthepie.chain d = toLowerCase c1 /\
             growthepie.tvl d = growthepie.metric metrics "tvl"
       | None => growthepie.lookupChain chainMetrics c1 = None
       end)) /\
  (forall chains,
      findChain chains (toLowerCase c1) = findChain chains (toLowerCase c2) /\
      (asciiOnly c1 = true ->
       Forall (fun c => asciiOnly (ll_name c) = true) chains ->
       findChain chains (toLowerCase c1) =
         find (fun c => differOnlyInCase (ll_name c) c1) chains)).
Proof.
  intros H%differOnlyInCase_lower. split; [|split].
  - intros w. unfold getL2Tvl. by rewrite H.
  - intros chainMetrics. unfold growthepie.lookupChain. split; [by rewrite H|].
    intros _. destruct (chainMetrics !! toLowerCase c1) as [metrics|]; [|done].
    eexists. split; [reflexivity|]. done.
  - intros chains. split; [by rewrite H|]. intros _ _.
    unfold findChain. apply find_pointwise. intros c.
    destruct (differOnlyInCase (ll_name c) c1) eqn:E.
    + apply differOnlyInCase_lower in E. by apply String.eqb_eq.
    + apply String.eqb_neq. intros E'%differOnlyInCase_lower. congruence.
Qed.

(** "Arbitrum" and "arbitrum" against the sample responses. *)
Lemma getL2Tvl_case_insensitive_witness :
  let gf := settles (Resolved sampleFundamentals) 120 in
  let gc := settles (Resolved sampleChains) 80 in
  differOnlyInCase "Arbitrum" "arbitrum" = true /\
  fst (getL2Tvl gf gc "Arbitrum" freshWorld) = fst (getL2Tvl gf gc "arbitrum" freshWorld) /\
  findChain sampleChains (toLowerCase "ARBITRUM") =
    Some {| ll_name := "Arbitrum"; ll_tvl := 17400000000 |}.
Proof.
  intros gf gc.
  destruct (getL2Tvl_case_insensitive gf gc "Arbitrum" "arbitrum" eq_refl) as (H1 & _ & _).
  split; [reflexivity|]. split; [by rewrite H1|]. vm_compute. reflexivity.
Defined.

(** C9 as stated fails for the keys of the L2-analytics service: a chain
    that the service reports under the key [Base] is found for no spelling
    of the argument, while the aggregator's entry of the same name is found
    for all of them; the call answers from the aggregator. *)
Lemma getL2Tvl_analytics_key_case_matters :
  let fundamentals : gmap string (gmap string Q) :=
    {[ "Base"%string := {[ "tvl"%string := 9000000000%Q ]} ]} in
  let chains := [ {| ll_name := "Base"; ll_tvl := 8900000000 |} ] in
  growthepie.lookupChain fundamentals "Base" = None /\
  growthepie.lookupChain fundamentals "base" = None /\
  growthepie.lookupChain fundamentals "BASE" = None /\
  findChain chains (toLowerCase "Base") = Some {| ll_name := "Base"; ll_tvl := 8900000000 |} /\
  findChain chains (toLowerCase "BASE") = Some {| ll_name := "Base"; ll_tvl := 8900000000 |} /\
  fst (getL2Tvl (settles (Resolved fundamentals) 120) (settles (Resolved chains) 80)
         "Base" freshWorld) =
    Resolved {| tvl := 8900000000; tvl_source := "defillama";
                tvl_fallbacksUsed := 1; breakdown := None |}.
Proof. vm_compute. repeat split. Qed.

Section ZeroTvlFacts.

Variable getFundamentals : Z -> Settled (gmap string (gmap string Q)).
Variable getChains : Z -> Settled (list LlamaChain).

Lemma truthy_number_zero (q : Q) : (q == 0)%Q -> truthy_number q = false.
Proof.
  unfold Qeq, truthy_number. simpl. intros H.
  apply negb_false_iff, Z.eqb_eq. lia.
Qed.

Lemma truthy_number_nonzero (q : Q) : truthy_number q = true -> ~ (q == 0)%Q.
Proof.
  unfold Qeq, truthy_number. simpl. intros H%negb_true_iff%Z.eqb_neq. lia.
Qed.

Lemma lookupChain_lower (chainMetrics : gmap string (gmap string Q)) (chain : string) :
  growthepie.lookupChain chainMetrics (toLowerCase chain) =
  growthepie.lookupChain chainMetrics chain.
Proof. unfold growthepie.lookupChain. by rewrite toLowerCase_idem. Qed.

Lemma growthepie_zero_rejected (chain : string) (t : Z) :
  growthepieReportsZero getFundamentals chain t ->
  outcome (fn (growthepieTvlSource getFundamentals (toLowerCase chain)) t) =
  Rejected (newError "Chain not found").
Proof.
  intros (m & d & Hm & Hd & Hz). simpl. rewrite Hm. simpl.
  rewrite lookupChain_lower, Hd. by rewrite (truthy_number_zero _ Hz).
Qed.

Lemma defillama_zero_rejected (chain : string) (t : Z) :
  defillamaReportsZero getChains chain t ->
  outcome (fn (defillamaTvlSource getChains (toLowerCase chain)) t) =
  Rejected (newError "Chain not found").
Proof.
  intros (chains & c & Hm & Hc & Hz). simpl. rewrite Hm. simpl.
  rewrite Hc. by rewrite (truthy_number_zero _ Hz).
Qed.

(** Neither provider of [getL2Tvl] ever resolves with a TVL of 0. *)
Lemma l2TvlSources_nonzero (normalizedChain : string) (s : Source NormalizedTvl)
    (t : Z) (v : NormalizedTvl) :
  s ∈ l2TvlSources getFundamentals getChains normalizedChain ->
  outcome (fn s t) = Resolved v -> ~ (n_tvl v == 0)%Q.
Proof.
  unfold l2TvlSources. intros [->|[->|[]%elem_of_nil]%elem_of_cons]%elem_of_cons; simpl.
  - destruct (outcome (getFundamentals t)) as [m|e]; simpl; [|discriminate].
    destruct (growthepie.lookupChain m normalizedChain) as [d|]; [|discriminate].
    destruct (truthy_number (growthepie.tvl d)) eqn:E; [|discriminate].
    intros [= <-]. simpl. by apply truthy_number_nonzero.
  - destruct (outcome (getChains t)) as [m|e]; simpl; [|discriminate].
    destruct (findChain m normalizedChain) as [d|]; [|discriminate].
    destruct (truthy_number (ll_tvl d)) eqn:E; [|discriminate].
    intros [= <-]. simpl. by apply truthy_number_nonzero.
Qed.

End ZeroTvlFacts.

(** C10: the validator of [getL2Tvl] accepts a TVL of 0, and yet (1) a
    response of the L2-analytics service, or of the DeFi aggregator, that
    reports a TVL of exactly 0 for the chain makes the provider's thunk throw
    'Chain not found'; (2) when that happens to the first provider on a
    closed circuit, a failure is recorded for it and the executor goes on
    with the DeFi aggregator; (3) [getL2Tvl] never returns a TVL of 0; (4) if
    both providers report 0 whenever asked, [getL2Tvl] throws the aggregate
    error, each reason being 'Chain not found' or, for a provider skipped on
    an open circuit, 'Circuit breaker open'. *)
Theorem getL2Tvl_zero_is_failure
    (getFundamentals : Z -> Settled (gmap string (gmap string Q)))
    (getChains : Z -> Settled (list LlamaChain))
    (chain : string) :
  validateTvl {| n_tvl := 0; n_breakdown := None |} = true /\
  (forall t,
      (growthepieReportsZero getFundamentals chain t ->
       outcome (fn (growthepieTvlSource getFundamentals (toLowerCase chain)) t) =
       Rejected (newError "Chain not found")) /\
      (defillamaReportsZero getChains chain t ->
       outcome (fn (defillamaTvlSource getChains (toLowerCase chain)) t) =
       Rejected (newError "Chain not found"))) /\
  (forall w,
      fst (isCircuitOpen "growthepie" (clock w) (circuitBreakers w)) = false ->
      growthepieReportsZero getFundamentals chain (clock w) ->
      let now := clock w + Z.of_N (latency (getFundamentals (clock w))) in
      executeWithFallback (l2TvlSources getFundamentals getChains (toLowerCase chain))
        (Some validateTvl) w =
      fallbackLoop (Some validateTvl) 1
        [defillamaTvlSource getChains (toLowerCase chain)]
        [{| e_source := "growthepie"; e_error := "Chain not found" |}]
        {| clock := now;
           circuitBreakers :=
             recordFailure "growthepie" now
               (snd (isCircuitOpen "growthepie" (clock w) (circuitBreakers w)));
           trace := trace w ++ [EvInvoke 0 "growthepie" (clock w);
                                EvRecordFailure "growthepie"] |}) /\
  (forall w r,
      fst (getL2Tvl getFundamentals getChains chain w) = Resolved r -> ~ (tvl r == 0)%Q) /\
  ((forall t, growthepieReportsZero getFundamentals chain t) ->
   (forall t, defillamaReportsZero getChains chain t) ->
   forall w, exists reason1 reason2,
     (reason1 = "Chain not found" \/ reason1 = "Circuit breaker open")%string /\
     (reason2 = "Chain not found" \/ reason2 = "Circuit breaker open")%string /\
     fst (getL2Tvl getFundamentals getChains chain w) =
     Rejected (newError ("All sources failed: growthepie: " ++ reason1 ++
                         "; defillama: " ++ reason2))).
Proof.
  split; [reflexivity|]. split; [|split; [|split]].
  - intros t. split.
    + apply growthepie_zero_rejected.
    + apply defillama_zero_rejected.
  - intros w Hclosed Hz now.
    pose proof (growthepie_zero_rejected getFundamentals chain (clock w) Hz) as Ho.
    unfold executeWithFallback, l2TvlSources.
    cbn [fallbackLoop].
    change (name (growthepieTvlSource getFundamentals (toLowerCase chain)))
      with "growthepie"%string.
    destruct (isCircuitOpen "growthepie" (clock w) (circuitBreakers w)) as [open cb].
    simpl in Hclosed. subst open. rewrite Ho. reflexivity.
  - intros w r Hr. unfold getL2Tvl in Hr.
    destruct (executeWithFallback _ _ w) as [res w'] eqn:E.
    simpl in Hr. destruct res as [fr|e]; [|discriminate].
    injection Hr as <-. simpl.
    apply fallbackLoop_shape in E as (evs & _ & pre & s & post & t & _ & _ & Hsplit & _ & _ & _ & _ & Ho & _).
    eapply l2TvlSources_nonzero; [|exact Ho].
    rewrite Hsplit. apply elem_of_app. right. apply list_elem_of_here.
  - intros Hg Hd w.
    unfold getL2Tvl, executeWithFallback, l2TvlSources. cbn [fallbackLoop].
    change (name (growthepieTvlSource getFundamentals (toLowerCase chain)))
      with "growthepie"%string.
    change (name (defillamaTvlSource getChains (toLowerCase chain)))
      with "defillama"%string.
    destruct (isCircuitOpen "growthepie" (clock w) (circuitBreakers w)) as [open1 cb1].
    destruct open1.
    + cbn [clock circuitBreakers].
      destruct (isCircuitOpen "defillama" (clock w) cb1) as [open2 cb2].
      destruct open2.
      * exists "Circuit breaker open"%string, "Circuit breaker open"%string. auto.
      * rewrite (defillama_zero_rejected getChains chain (clock w) (Hd _)).
        exists "Circuit breaker open"%string, "Chain not found"%string. auto.
    + rewrite (growthepie_zero_rejected getFundamentals chain (clock w) (Hg _)).
      cbn [tryBody clock circuitBreakers].
      match goal with |- context [isCircuitOpen "defillama" ?t ?c] =>
        destruct (isCircuitOpen "defillama" t c) as [open2 cb2] eqn:E2 end.
      destruct open2.
      * exists "Chain not found"%string, "Circuit breaker open"%string. auto.
      * match goal with |- context [fn (defillamaTvlSource _ _) ?t] =>
          rewrite (defillama_zero_rejected getChains chain t (Hd _)) end.
        exists "Chain not found"%string, "Chain not found"%string. auto.
Qed.

(** A chain that both sample responses list with a TVL of 0. *)
Lemma getL2Tvl_zero_is_failure_witness :
  let gf := settles (Resolved sampleFundamentals) 120 in
  let gc := settles (Resolved sampleChains) 80 in
  (forall t, growthepieReportsZero gf "GhostChain" t) /\
  (forall t, defillamaReportsZero gc "GhostChain" t) /\
  exists reason1 reason2,
    (reason1 = "Chain not found" \/ reason1 = "Circuit breaker open")%string /\
    (reason2 = "Chain not found" \/ reason2 = "Circuit breaker open")%string /\
    fst (getL2Tvl gf gc "GhostChain" freshWorld) =
    Rejected (newError ("All sources failed: growthepie: " ++ reason1 ++
                        "; defillama: " ++ reason2)).
Proof.
  intros gf gc.
  assert (forall t, growthepieReportsZero gf "GhostChain" t) as Hg.
  { intros t. eexists _, _. split; [reflexivity|].
    split; [vm_compute; reflexivity|]. vm_compute. reflexivity. }
  assert (forall t, defillamaReportsZero gc "GhostChain" t) as Hd.
  { intros t. eexists _, _. split; [reflexivity|].
    split; [vm_compute; reflexivity|]. vm_compute. reflexivity. }
  split; [exact Hg|]. split; [exact Hd|].
  exact (proj2 (proj2 (proj2 (proj2 (getL2Tvl_zero_is_failure gf gc "GhostChain"))))
           Hg Hd freshWorld).
Defined.

Example getL2Tvl_ghostchain :
  fst (getL2Tvl (settles (Resolved sampleFundamentals) 120)
         (settles (Resolved sampleChains) 80) "GhostChain" freshWorld) =
  Rejected (newError
    "All sources failed: growthepie: Chain not found; defillama: Chain not found").
Proof. vm_compute. reflexivity. Qed.

Example getL2Tvl_arbitrum :
  fst (getL2Tvl (settles (Resolved sampleFundamentals) 120)
         (settles (Resolved sampleChains) 80) "Arbitrum" freshWorld) =
  Resolved {| tvl := 17500000000; tvl_source := "growthepie";
              tvl_fallbacksUsed := 0; breakdown := None |}.
Proof. vm_compute. reflexivity. Qed.

(** ** Source comparison *)

Section VarianceFacts.

Import SpecFloat.

Implicit Types (x y z highest : Double.double) (xs : list Double.double).

Lemma abs_cases x : Double.abs x = Double.NaN \/ isMagnitude (Double.abs x) = true.
Proof. destruct x; simpl; auto. Qed.

(** The order of two positive finite doubles. *)
Lemma finite_compare_refl (m : positive) (e : Z) :
  match (e ?= e)%Z with
  | Lt => Lt
  | Gt => Gt
  | Eq => Pos.compare_cont Eq m m
  end = Eq.
Proof.
  rewrite Z.compare_refl. change (Pos.compare_cont Eq m m) with (m ?= m)%positive.
  apply Pos.compare_refl.
Qed.

Lemma leb_refl x : isMagnitude x = true -> Double.leb x x = true.
Proof.
  destruct x as [[]|[]| |[] m e]; try done. intros _.
  unfold Double.leb, SFleb. simpl. by rewrite finite_compare_refl.
Qed.

Lemma leb_trans x y z :
  isMagnitude x = true -> isMagnitude y = true -> isMagnitude z = true ->
  Double.leb x y = true -> Double.leb y z = true -> Double.leb x z = true.
Proof.
  destruct x as [[]|[]| |[] m1 e1]; try done;
    destruct y as [[]|[]| |[] m2 e2]; try done;
    destruct z as [[]|[]| |[] m3 e3]; try done.
  intros _ _ _. unfold Double.leb, SFleb. simpl.
  change (Pos.compare_cont Eq m1 m2) with (m1 ?= m2)%positive.
  change (Pos.compare_cont Eq m2 m3) with (m2 ?= m3)%positive.
  change (Pos.compare_cont Eq m1 m3) with (m1 ?= m3)%positive.
  destruct (Z.compare_spec e1 e2), (Z.compare_spec e2 e3), (Z.compare_spec e1 e3);
    try done; try lia; subst.
  destruct (Pos.compare_spec m1 m2), (Pos.compare_spec m2 m3), (Pos.compare_spec m1 m3);
    try done; lia.
Qed.

Lemma ltb_leb x y :
  isMagnitude x = true -> isMagnitude y = true ->
  if Double.ltb x y then Double.leb x y = true else Double.leb y x = true.
Proof.
  destruct x as [[]|[]| |[] m1 e1]; try done;
    destruct y as [[]|[]| |[] m2 e2]; try done.
  intros _ _. unfold Double.ltb, Double.leb, SFltb, SFleb. simpl.
  change (Pos.compare_cont Eq m1 m2) with (m1 ?= m2)%positive.
  change (Pos.compare_cont Eq m2 m1) with (m2 ?= m1)%positive.
  rewrite (Z.compare_antisym e1 e2), (Pos.compare_antisym m1 m2).
  by destruct (e1 ?= e2)%Z, (m1 ?= m2)%positive.
Qed.

Lemma maxStep_magnitudes x y :
  isMagnitude x = true -> isMagnitude y = true ->
  maxStep x y = if Double.ltb x y then y else x.
Proof.
  destruct x as [[]|[]| |[] m1 e1]; try done; destruct y as [[]|[]| |[] m2 e2]; done.
Qed.

Lemma maxStep_first y :
  isMagnitude y = true -> maxStep (S754_infinity true) y = y.
Proof. by destruct y as [[]|[]| |[] m e]. Qed.

Lemma fold_maxStep_nan xs : fold_left maxStep xs Double.NaN = Double.NaN.
Proof. induction xs as [|x xs IH]; [done|]. simpl. exact IH. Qed.

Lemma fold_maxStep_has_nan xs :
  Double.NaN ∈ xs -> forall highest, fold_left maxStep xs highest = Double.NaN.
Proof.
  induction xs as [|x xs IH]; [by intros ?%elem_of_nil|].
  intros [<-|Hin]%elem_of_cons highest; simpl.
  - replace (maxStep highest Double.NaN) with Double.NaN by (by destruct highest as [[]|[]| |]).
    apply fold_maxStep_nan.
  - by apply IH.
Qed.

Lemma fold_maxStep_magnitudes xs :
  Forall (fun x => isMagnitude x = true) xs ->
  forall highest,
    isMagnitude highest = true ->
    fold_left maxStep xs highest ∈ highest :: xs /\
    Double.leb highest (fold_left maxStep xs highest) = true /\
    forall y, y ∈ xs -> Double.leb y (fold_left maxStep xs highest) = true.
Proof.
  induction 1 as [|x xs Hx Hxs IH]; intros highest Hh; simpl.
  - split; [apply list_elem_of_here|]. split; [by apply leb_refl|].
    by intros y ?%elem_of_nil.
  - rewrite (maxStep_magnitudes highest x Hh Hx).
    pose proof (ltb_leb highest x Hh Hx) as Hcmp.
    assert (isMagnitude (fold_left maxStep xs x) = true /\
            isMagnitude (fold_left maxStep xs highest) = true) as [Hmx Hmh].
    { destruct (IH x Hx) as (Hin1 & _ & _), (IH highest Hh) as (Hin2 & _ & _).
      rewrite Forall_forall in Hxs. split.
      - apply elem_of_cons in Hin1 as [->|Hin1]; [done|by apply Hxs].
      - apply elem_of_cons in Hin2 as [->|Hin2]; [done|by apply Hxs]. }
    destruct (Double.ltb highest x).
    + destruct (IH x Hx) as (Hin & Hle & Hall). split; [|split].
      * by apply list_elem_of_further.
      * by apply (leb_trans highest x).
      * intros y [->|Hy]%elem_of_cons; [done|by apply Hall].
    + destruct (IH highest Hh) as (Hin & Hle & Hall). split; [|split].
      * apply elem_of_cons in Hin as [->|Hin]; [apply list_elem_of_here|].
        by do 2 apply list_elem_of_further.
      * done.
      * intros y [->|Hy]%elem_of_cons; [by apply (leb_trans x highest)|by apply Hall].
Qed.

(** [Math.max] of absolute values: NaN if one of them is NaN, and otherwise
    one of them that bounds them all. *)
Lemma Math_max_spec xs :
  xs <> [] ->
  Forall (fun x => x = Double.NaN \/ isMagnitude x = true) xs ->
  (Double.NaN ∈ xs /\ Math_max xs = Double.NaN) \/
  ((Double.NaN ∉ xs) /\ Math_max xs ∈ xs /\
   forall y, y ∈ xs -> Double.leb y (Math_max xs) = true).
Proof.
  intros Hne Hall. destruct (decide (Double.NaN ∈ xs)) as [Hnan|Hnan].
  - left. split; [done|]. by apply fold_maxStep_has_nan.
  - right. split; [done|].
    assert (Forall (fun x => isMagnitude x = true) xs) as Hmag.
    { apply Forall_forall. intros x Hx. rewrite Forall_forall in Hall.
      destruct (Hall x Hx) as [->|H]; [done|exact H]. }
    destruct xs as [|x xs]; [done|]. unfold Math_max. cbn [fold_left].
    apply Forall_cons in Hmag as [Hx Hxs]. rewrite (maxStep_first x Hx).
    destruct (fold_maxStep_magnitudes xs Hxs x Hx) as (Hin & Hle & Hbound).
    split; [done|]. intros y [->|Hy]%elem_of_cons; [done|by apply Hbound].
Qed.

Lemma deviations_magnitudes (prices : list Double.double) :
  Forall (fun x => x = Double.NaN \/ isMagnitude x = true) (deviations prices).
Proof.
  unfold deviations. apply Forall_forall. intros d Hd.
  apply list_elem_of_fmap in Hd as (p & -> & _). apply abs_cases.
Qed.

Lemma rowReflects_intro (source : string) (read : value -> value)
    (r : Settled value) (ms : Z) :
  ms = Z.of_N (latency r) ->
  rowReflects
    match outcome r with
    | Resolved data =>
        {| c_source := source; c_value := read data;
           latencyMs := ms; c_error := None |}
    | Rejected e =>
        {| c_source := source; c_value := Null;
           latencyMs := ms; c_error := Some (message e) |}
    end (read, r).
Proof. intros ->. unfold rowReflects. by destruct (outcome r). Qed.

End VarianceFacts.

(** C4 (amended): [compareEthPrice] calls the three ETH-price providers one
    after the other whatever the outcome of the others, and returns one row
    {source, value, latencyMs, error?} per provider; from these rows the
    comparison tool reports, when at least two providers returned a value,
    the largest deviation from the mean of the returned values, as a
    percentage of the mean, with three decimals, every step computed in
    double precision.  With two providers returning 3000 and 3006 the
    mean is 3003 and the reported maximum variance is 0.100%
    (3 / 3003 * 100). *)
Theorem compareEthPrice_rows_and_variance :
  (forall etherscan_usd coingecko_usd defillama_price w,
      let comparison :=
        fst (compareEthPrice etherscan_usd coingecko_usd defillama_price w) in
      let r0 := etherscan_usd (clock w) in
      let t1 := clock w + Z.of_N (latency r0) in
      let r1 := coingecko_usd t1 in
      let t2 := t1 + Z.of_N (latency r1) in
      let r2 := defillama_price t2 in
      map c_source (results comparison) =
        ["etherscan"; "coingecko"; "defillama"]%string /\
      Forall2 rowReflects (results comparison)
        [((fun v => v), r0); (orNull, r1); (orNull, r2)]) /\
  (forall numberToString comparison,
      let prices := map Double.ofQ (validPrices (results comparison)) in
      ((length prices < 2)%nat -> varianceLine numberToString comparison = None) /\
      ((2 <= length prices)%nat ->
       exists maxDiff,
         ((Double.NaN ∈ deviations prices /\ maxDiff = Double.NaN) \/
          ((Double.NaN ∉ deviations prices) /\
           maxDiff ∈ deviations prices /\
           forall d, d ∈ deviations prices -> Double.leb d maxDiff = true)) /\
         varianceLine numberToString comparison =
           Some (newline ++ "Max variance: " ++
                 toFixed3 numberToString
                   (Double.mul (Double.div maxDiff (average prices)) (Double.ofZ 100)) ++
                 "%")%string)) /\
  (validPrices (results compare3000and3006) = [3000%Q; 3006%Q] /\
   average [Double.ofQ 3000; Double.ofQ 3006] = Double.ofQ 3003 /\
   deviations [Double.ofQ 3000; Double.ofQ 3006] = [Double.ofQ 3; Double.ofQ 3] /\
   maxVariancePercent [Double.ofQ 3000; Double.ofQ 3006] =
     Double.mul (Double.div (Double.ofQ 3) (Double.ofQ 3003)) (Double.ofQ 100) /\
   forall numberToString,
     varianceLine numberToString compare3000and3006 =
       Some (newline ++ "Max variance: 0.100%")%string).
Proof.
  split; [|split].
  - intros e c d w. simpl. split; [by destruct (outcome _), (outcome _), (outcome _)|].
    repeat (constructor; [apply rowReflects_intro; lia|]). constructor.
  - intros numberToString comparison prices. unfold varianceLine. fold prices. split.
    + intros Hlen. by apply Nat.leb_gt in Hlen as ->.
    + intros Hlen. apply Nat.leb_le in Hlen as Hlen'. rewrite Hlen'.
      destruct (Math_max_spec (deviations prices)) as [[Hnan Hmax]|(Hnan & Hin & Hmax)].
      * unfold deviations. destruct prices; [simpl in Hlen; lia|done].
      * apply deviations_magnitudes.
      * exists Double.NaN. split; [by left|].
        unfold maxVariancePercent. cbv zeta. by rewrite Hmax.
      * exists (Math_max (deviations prices)). split; [by right|done].
  - split; [vm_compute; reflexivity|]. split; [vm_compute; reflexivity|].
    split; [vm_compute; reflexivity|]. split; [vm_compute; reflexivity|].
    intros numberToString. vm_compute. reflexivity.
Qed.

(** The second part of the theorem above at the comparison of the scenario. *)
Lemma compareEthPrice_rows_and_variance_witness :
  (2 <= length (map Double.ofQ (validPrices (results compare3000and3006))))%nat /\
  exists maxDiff,
    ((Double.NaN ∈ deviations [Double.ofQ 3000; Double.ofQ 3006] /\ maxDiff = Double.NaN) \/
     ((Double.NaN ∉ deviations [Double.ofQ 3000; Double.ofQ 3006]) /\
      maxDiff ∈ deviations [Double.ofQ 3000; Double.ofQ 3006] /\
      forall d, d ∈ deviations [Double.ofQ 3000; Double.ofQ 3006] ->
                Double.leb d maxDiff = true)) /\
    varianceLine (fun _ => ""%string) compare3000and3006 =
      Some (newline ++ "Max variance: " ++
            toFixed3 (fun _ => ""%string)
              (Double.mul
                 (Double.div maxDiff (average [Double.ofQ 3000; Double.ofQ 3006]))
                 (Double.ofZ 100)) ++
            "%")%string.
Proof.
  assert (2 <= length (map Double.ofQ (validPrices (results compare3000and3006))))%nat
    as Hlen by (vm_compute; lia).
  split; [exact Hlen|].
  exact (proj2 (proj1 (proj2 compareEthPrice_rows_and_variance)
                  (fun _ => ""%string) compare3000and3006) Hlen).
Defined.

(** C4 as stated fails: for 3000 and 3006 the largest deviation from the
    mean 3003 is 3, that is 0.0999...% of the mean and not 0.2%; the tool
    prints 0.100. *)
Lemma compare_3000_3006_is_not_0_2_percent :
  validPrices (results compare3000and3006) = [3000%Q; 3006%Q] /\
  maxVariancePercent [Double.ofQ 3000; Double.ofQ 3006] =
    SpecFloat.S754_finite false 7198560842949844 (-56) /\
  Double.ofQ (2 # 10) = SpecFloat.S754_finite false 7205759403792794 (-55) /\
  (forall numberToString,
      toFixed3 numberToString (Double.ofQ (2 # 10)) = "0.200"%string /\
      varianceLine numberToString compare3000and3006 =
        Some (newline ++ "Max variance: 0.100%")%string /\
      varianceLine numberToString compare3000and3006 <>
        Some (newline ++ "Max variance: 0.200%")%string).
Proof.
  split; [vm_compute; reflexivity|]. split; [vm_compute; reflexivity|].
  split; [vm_compute; reflexivity|].
  intros numberToString. split; [vm_compute; reflexivity|].
  split; [vm_compute; reflexivity|]. vm_compute. discriminate.
Qed.

(** Three prices whose variance falls just below a rounding boundary: in
    double precision the percentage is 1.562499999999995, printed 1.562. *)
Example variance_2940_2990_3030 :
  forall numberToString,
    varianceLine numberToString
      {| query := "ETH Price (USD)";
         results :=
           [ {| c_source := "etherscan"; c_value := Num 2940; latencyMs := 110;
                c_error := None |};
             {| c_source := "coingecko"; c_value := Num 2990; latencyMs := 240;
                c_error := None |};
             {| c_source := "defillama"; c_value := Num 3030; latencyMs := 35;
                c_error := None |} ] |} =
    Some (newline ++ "Max variance: 1.562%")%string.
Proof. intros numberToString. vm_compute. reflexivity. Qed.

(** Prices whose mean is 0: the division gives [Infinity]. *)
Example variance_of_mean_zero :
  forall numberToString,
    varianceLine numberToString
      {| query := "ETH Price (USD)";
         results :=
           [ {| c_source := "etherscan"; c_value := Num (-1); latencyMs := 110;
                c_error := None |};
             {| c_source := "coingecko"; c_value := Num 1; latencyMs := 240;
                c_error := None |} ] |} =
    Some (newline ++ "Max variance: Infinity%")%string.
Proof. intros numberToString. vm_compute. reflexivity. Qed.

(** ** Further properties of the circuit breaker *)

Section BreakerFacts.

Implicit Types (cb : gmap string CircuitState) (source other : string) (now : Z).

Lemma circuitOf_ext source cb cb' :
  cb !! source = cb' !! source -> circuitOf source cb = circuitOf source cb'.
Proof. unfold circuitOf, getCircuit. intros <-. by destruct (cb !! source). Qed.

Lemma circuitOf_recordFailure_other source other now cb :
  source <> other ->
  circuitOf other (recordFailure source now cb) = circuitOf other cb.
Proof. intros H. apply circuitOf_ext. by apply recordFailure_other. Qed.

Lemma circuitOf_recordSuccess_other source other cb :
  source <> other ->
  circuitOf other (recordSuccess source cb) = circuitOf other cb.
Proof. intros H. apply circuitOf_ext. by apply recordSuccess_other. Qed.

Lemma circuitOf_isCircuitOpen_other source other now cb :
  source <> other ->
  circuitOf other (snd (isCircuitOpen source now cb)) = circuitOf other cb.
Proof. intros H. apply circuitOf_ext. by apply isCircuitOpen_other. Qed.

(** The entry of the queried provider after a query. *)
Lemma isCircuitOpen_lookup source now cb :
  snd (isCircuitOpen source now cb) !! source =
  Some {| failures := failures (circuitOf source cb);
          lastFailure := lastFailure (circuitOf source cb);
          isOpen := isOpen (circuitOf source cb) &&
                    (now - lastFailure (circuitOf source cb) <=? RECOVERY_TIME) |}.
Proof.
  pose proof (getCircuit_lookup source cb) as Hl.
  unfold isCircuitOpen, circuitOf in *.
  destruct (getCircuit source cb) as [c cb']. simpl in *.
  destruct c as [f l o]. simpl. destruct o; simpl.
  - destruct (Z.ltb_spec RECOVERY_TIME (now - l)); simpl.
    + rewrite lookup_insert_eq. do 2 f_equal. symmetry. apply Z.leb_gt. lia.
    + rewrite Hl. do 2 f_equal. symmetry. apply Z.leb_le. lia.
  - done.
Qed.

Lemma isCircuitOpen_answer source now cb :
  fst (isCircuitOpen source now cb) =
  isOpen (circuitOf source cb) &&
  (now - lastFailure (circuitOf source cb) <=? RECOVERY_TIME).
Proof.
  unfold isCircuitOpen, circuitOf.
  destruct (getCircuit source cb) as [c cb']. simpl.
  destruct (isOpen c); simpl; [|done].
  destruct (Z.ltb_spec RECOVERY_TIME (now - lastFailure c)); simpl; symmetry.
  - apply Z.leb_gt. lia.
  - apply Z.leb_le. lia.
Qed.

End BreakerFacts.

(** X1: [recordSuccess] sets the failure counter of the provider to 0 and
    closes its circuit whatever the counter was, keeps its [lastFailure],
    leaves the other providers alone, and after it a query at any instant
    answers "closed" without changing the table. *)
Theorem recordSuccess_resets (source : string) (cb : gmap string CircuitState) :
  recordSuccess source cb !! source =
    Some {| failures := 0; lastFailure := lastFailure (circuitOf source cb);
            isOpen := false |} /\
  (forall other, source <> other -> recordSuccess source cb !! other = cb !! other) /\
  (forall now,
      isCircuitOpen source now (recordSuccess source cb) =
      (false, recordSuccess source cb)).
Proof.
  split; [apply recordSuccess_lookup|]. split.
  - intros other H. by apply recordSuccess_other.
  - intros now. unfold isCircuitOpen, getCircuit.
    by rewrite recordSuccess_lookup.
Qed.

(** X2: a query answers "open" exactly when the stored flag is set and at
    most [RECOVERY_TIME] ms have passed since [lastFailure]; it never
    changes the failure counter or [lastFailure] of any provider, never
    changes the flag of another provider, and leaves the whole table as it
    is when it answers "open". *)
Theorem isCircuitOpen_answer_and_frame (source : string) (now : Z)
    (cb : gmap string CircuitState) :
  let c := circuitOf source cb in
  let cb' := snd (isCircuitOpen source now cb) in
  fst (isCircuitOpen source now cb) =
    isOpen c && (now - lastFailure c <=? RECOVERY_TIME) /\
  (forall other,
      failures (circuitOf other cb') = failures (circuitOf other cb) /\
      lastFailure (circuitOf other cb') = lastFailure (circuitOf other cb)) /\
  (forall other, source <> other -> cb' !! other = cb !! other) /\
  (fst (isCircuitOpen source now cb) = true -> cb' = cb).
Proof.
  intros c cb'. split; [apply isCircuitOpen_answer|]. split; [|split].
  - intros other. destruct (decide (source = other)) as [<-|Hne].
    + subst cb'. by rewrite (circuitOf_Some _ _ _ (isCircuitOpen_lookup source now cb)).
    + subst cb'. by rewrite circuitOf_isCircuitOpen_other.
  - intros other Hne. by apply isCircuitOpen_other.
  - subst cb'. unfold isCircuitOpen, getCircuit.
    destruct (cb !! source) as [c0|] eqn:E; simpl; [|discriminate].
    destruct (isOpen c0); simpl; [|discriminate].
    by destruct (RECOVERY_TIME <? now - lastFailure c0).
Qed.

(** The tripped [coingecko] circuit, queried inside its recovery window. *)
Lemma isCircuitOpen_answer_and_frame_witness :
  fst (isCircuitOpen "coingecko" 10000 coingeckoTripped) = true /\
  snd (isCircuitOpen "coingecko" 10000 coingeckoTripped) = coingeckoTripped.
Proof.
  destruct (isCircuitOpen_answer_and_frame "coingecko" 10000 coingeckoTripped)
    as (_ & _ & _ & H).
  assert (fst (isCircuitOpen "coingecko" 10000 coingeckoTripped) = true) as Ht
    by (vm_compute; reflexivity).
  split; [exact Ht|exact (H Ht)].
Defined.

(** X3: on a tripped circuit whose recovery window has elapsed, the query
    lets the probe through; if the probe then fails, that single failure
    opens the circuit again, with [lastFailure] at the new failure, so that
    queries answer "open" for another [RECOVERY_TIME] ms; if it succeeds,
    the circuit is closed with a counter of 0. *)
Theorem halfopen_probe_outcome (source : string) (now now' later : Z)
    (cb : gmap string CircuitState) (c : CircuitState) :
  cb !! source = Some c -> isOpen c = true ->
  (FAILURE_THRESHOLD <= failures c)%N ->
  RECOVERY_TIME < now - lastFailure c ->
  later - now' <= RECOVERY_TIME ->
  let cb1 := snd (isCircuitOpen source now cb) in
  fst (isCircuitOpen source now cb) = false /\
  recordFailure source now' cb1 !! source =
    Some {| failures := failures c + 1; lastFailure := now'; isOpen := true |} /\
  fst (isCircuitOpen source later (recordFailure source now' cb1)) = true /\
  recordSuccess source cb1 !! source =
    Some {| failures := 0; lastFailure := lastFailure c; isOpen := false |}.
Proof.
  intros Hc Ho Hf Hw Hl cb1. subst cb1.
  rewrite (isCircuitOpen_recovered _ _ _ _ Hc Ho Hw). simpl.
  assert (recordFailure source now'
            (<[source:={| failures := failures c; lastFailure := lastFailure c;
                          isOpen := false |}]> cb) !! source =
          Some {| failures := failures c + 1; lastFailure := now'; isOpen := true |}) as Hrf.
  { rewrite recordFailure_lookup.
    rewrite (circuitOf_Some _ _ _ (lookup_insert_eq _ _ _)). simpl.
    destruct (N.leb_spec FAILURE_THRESHOLD (failures c + 1)); [done|lia]. }
  split; [done|]. split; [exact Hrf|]. split.
  - rewrite isCircuitOpen_answer, (circuitOf_Some _ _ _ Hrf). simpl.
    apply Z.leb_le. lia.
  - rewrite recordSuccess_lookup.
    by rewrite (circuitOf_Some _ _ _ (lookup_insert_eq _ _ _)).
Qed.

(** The tripped [coingecko] circuit, probed at 63001 ms; the probe fails at
    63500 ms. *)
Lemma halfopen_probe_outcome_witness :
  let cb1 := snd (isCircuitOpen "coingecko" 63001 coingeckoTripped) in
  fst (isCircuitOpen "coingecko" 63001 coingeckoTripped) = false /\
  recordFailure "coingecko" 63500 cb1 !! "coingecko"%string =
    Some {| failures := 3 + 1; lastFailure := 63500; isOpen := true |} /\
  fst (isCircuitOpen "coingecko" 123500 (recordFailure "coingecko" 63500 cb1)) = true /\
  recordSuccess "coingecko" cb1 !! "coingecko"%string =
    Some {| failures := 0; lastFailure := 3000; isOpen := false |}.
Proof.
  apply (halfopen_probe_outcome "coingecko" 63001 63500 123500 coingeckoTripped
           {| failures := 3; lastFailure := 3000; isOpen := true |}).
  - vm_compute. reflexivity.
  - reflexivity.
  - vm_compute. discriminate.
  - vm_compute. reflexivity.
  - vm_compute. discriminate.
Defined.

(** X4: [n] failures in a row add [n] to the counter, leave [lastFailure] at
    the last of them and open the circuit as soon as the counter reaches the
    threshold; in particular a fresh or just reset circuit is open after [n]
    failures exactly when [n >= 3]. *)
Theorem consecutive_failures (source : string) (times : list Z) (t : Z)
    (cb : gmap string CircuitState) :
  let c := circuitOf source cb in
  let n := N.of_nat (length (times ++ [t])) in
  recordFailures source (times ++ [t]) cb !! source =
    Some {| failures := failures c + n;
            lastFailure := t;
            isOpen := if N.leb FAILURE_THRESHOLD (failures c + n)
                      then true else isOpen c |} /\
  (failures c = 0%N -> isOpen c = false ->
   isOpen (circuitOf source (recordFailures source (times ++ [t]) cb)) =
   N.leb 3 n).
Proof.
  intros c n.
  assert (recordFailures source (times ++ [t]) cb !! source =
    Some {| failures := failures c + n; lastFailure := t;
            isOpen := if N.leb FAILURE_THRESHOLD (failures c + n)
                      then true else isOpen c |}) as H.
  { subst c n. revert t. induction times as [|t' times IH] using rev_ind; intros t.
    - simpl. rewrite recordFailure_lookup. done.
    - unfold recordFailures in *. rewrite fold_left_app. simpl.
      rewrite recordFailure_lookup.
      rewrite (circuitOf_Some _ _ _ (IH t')). simpl.
      rewrite !length_app. simpl.
      replace (failures (circuitOf source cb) +
               N.of_nat (length times + 1) + 1)%N
        with (failures (circuitOf source cb) +
              N.of_nat (length times + 1 + 1))%N by lia.
      do 2 f_equal. unfold FAILURE_THRESHOLD.
      destruct (N.leb_spec 3 (failures (circuitOf source cb) +
                              N.of_nat (length times + 1 + 1)));
        destruct (N.leb_spec 3 (failures (circuitOf source cb) +
                                N.of_nat (length times + 1))); try done; lia. }
  split; [exact H|]. intros Hf Ho.
  rewrite (circuitOf_Some _ _ _ H). simpl. rewrite Hf, Ho, N.add_0_l.
  unfold FAILURE_THRESHOLD. by destruct (3 <=? n)%N.
Qed.

(** Two failures leave a fresh circuit closed, a third one opens it. *)
Lemma consecutive_failures_witness :
  isOpen (circuitOf "blobscan" (recordFailures "blobscan" ([100] ++ [200]) ∅)) = false /\
  isOpen (circuitOf "blobscan" (recordFailures "blobscan" ([100; 200] ++ [300]) ∅)) = true.
Proof.
  split.
  - exact (proj2 (consecutive_failures "blobscan" [100] 200 ∅) eq_refl eq_refl).
  - exact (proj2 (consecutive_failures "blobscan" [100; 200] 300 ∅) eq_refl eq_refl).
Defined.

Section InvariantFacts.

Implicit Types (cb : gmap string CircuitState) (source : string) (now : Z).

Lemma breakerInvariant_circuitOf source cb :
  breakerInvariant cb -> isOpen (circuitOf source cb) = true ->
  (FAILURE_THRESHOLD <= failures (circuitOf source cb))%N.
Proof.
  intros Hinv. unfold circuitOf, getCircuit.
  destruct (cb !! source) as [c|] eqn:E; simpl; [|discriminate].
  by apply (Hinv source).
Qed.

Lemma breakerInvariant_recordSuccess source cb :
  breakerInvariant cb -> breakerInvariant (recordSuccess source cb).
Proof.
  intros Hinv s c Hs Ho. destruct (decide (source = s)) as [<-|Hne].
  - rewrite recordSuccess_lookup in Hs. injection Hs as <-. discriminate.
  - rewrite recordSuccess_other in Hs by done. by apply (Hinv s).
Qed.

Lemma breakerInvariant_recordFailure source now cb :
  breakerInvariant cb -> breakerInvariant (recordFailure source now cb).
Proof.
  intros Hinv s c Hs Ho. destruct (decide (source = s)) as [<-|Hne].
  - rewrite recordFailure_lookup in Hs. injection Hs as <-. simpl in *.
    destruct (N.leb_spec FAILURE_THRESHOLD (failures (circuitOf source cb) + 1));
      [done|].
    pose proof (breakerInvariant_circuitOf source cb Hinv Ho). lia.
  - rewrite recordFailure_other in Hs by done. by apply (Hinv s).
Qed.

Lemma breakerInvariant_isCircuitOpen source now cb :
  breakerInvariant cb -> breakerInvariant (snd (isCircuitOpen source now cb)).
Proof.
  intros Hinv s c Hs Ho. destruct (decide (source = s)) as [<-|Hne].
  - rewrite isCircuitOpen_lookup in Hs. injection Hs as <-. simpl in *.
    apply andb_true_iff in Ho as [Ho _].
    by apply breakerInvariant_circuitOf.
  - rewrite isCircuitOpen_other in Hs by done. by apply (Hinv s).
Qed.

Lemma breakerInvariant_fallbackLoop {T} (validate : option (T -> bool))
    (rest : list (Source T)) :
  forall i errors w,
    breakerInvariant (circuitBreakers w) ->
    breakerInvariant (circuitBreakers (snd (fallbackLoop validate i rest errors w))).
Proof.
  induction rest as [|s rest IH]; intros i errors w Hinv; simpl; [done|].
  pose proof (breakerInvariant_isCircuitOpen (name s) (clock w) _ Hinv) as H1.
  destruct (isCircuitOpen (name s) (clock w) (circuitBreakers w)) as [open cb].
  simpl in H1. destruct open.
  - by apply IH.
  - destruct (tryBody validate (outcome (fn s (clock w)))); simpl.
    + by apply breakerInvariant_recordSuccess.
    + apply IH. simpl. by apply breakerInvariant_recordFailure.
Qed.

(** What the loop does to the circuits of providers it does not list:
    nothing. *)
Lemma fallbackLoop_frame {T} (validate : option (T -> bool)) (P : string)
    (rest : list (Source T)) :
  forall i errors w,
    (forall s, s ∈ rest -> name s <> P) ->
    circuitBreakers (snd (fallbackLoop validate i rest errors w)) !! P =
    circuitBreakers w !! P.
Proof.
  induction rest as [|s rest IH]; intros i errors w Hne; simpl; [done|].
  assert (name s <> P) as Hs by (apply Hne, list_elem_of_here).
  assert (forall s', s' ∈ rest -> name s' <> P) as Hrest
    by (intros s' Hin; apply Hne; by apply list_elem_of_further).
  pose proof (isCircuitOpen_other (name s) P (clock w) (circuitBreakers w) Hs) as H1.
  destruct (isCircuitOpen (name s) (clock w) (circuitBreakers w)) as [open cb].
  simpl in H1. destruct open.
  - rewrite IH by done. done.
  - destruct (tryBody validate (outcome (fn s (clock w)))); simpl.
    + by rewrite recordSuccess_other.
    + rewrite IH by done. simpl. by rewrite recordFailure_other.
Qed.

(** The circuit of the provider that answered, after the loop. *)
Lemma fallbackLoop_success_resets {T} (validate : option (T -> bool))
    (rest : list (Source T)) :
  forall i errors w r w',
    fallbackLoop validate i rest errors w = (Resolved r, w') ->
    exists c, circuitBreakers w' !! source r = Some c /\
              failures c = 0%N /\ isOpen c = false.
Proof.
  induction rest as [|s rest IH]; intros i errors w r w' H; simpl in H; [discriminate|].
  destruct (isCircuitOpen (name s) (clock w) (circuitBreakers w)) as [open cb].
  destruct open; [by eapply IH|].
  destruct (tryBody validate (outcome (fn s (clock w)))); [|by eapply IH].
  injection H as <- <-. simpl. eexists. split; [apply recordSuccess_lookup|done].
Qed.

End InvariantFacts.

(** X5: a circuit is never open with fewer than three failures on its
    counter.  This holds of the empty table and is kept by [recordSuccess],
    [recordFailure], [isCircuitOpen] and by every call of
    [executeWithFallback]. *)
Theorem breakerInvariant_kept :
  breakerInvariant ∅ /\
  (forall source now cb,
      breakerInvariant cb ->
      breakerInvariant (recordSuccess source cb) /\
      breakerInvariant (recordFailure source now cb) /\
      breakerInvariant (snd (isCircuitOpen source now cb))) /\
  (forall T (sources : list (Source T)) validate w,
      breakerInvariant (circuitBreakers w) ->
      breakerInvariant (circuitBreakers (snd (executeWithFallback sources validate w)))).
Proof.
  split; [|split].
  - intros s c Hs. by rewrite lookup_empty in Hs.
  - intros source now cb Hinv. split; [|split].
    + by apply breakerInvariant_recordSuccess.
    + by apply breakerInvariant_recordFailure.
    + by apply breakerInvariant_isCircuitOpen.
  - intros T sources validate w Hinv. by apply breakerInvariant_fallbackLoop.
Qed.

(** The table after the A/B/C scenario, started on the empty table. *)
Lemma breakerInvariant_kept_witness :
  breakerInvariant
    (circuitBreakers (snd (executeWithFallback providersABC (Some validatePrice) freshWorld))).
Proof.
  destruct breakerInvariant_kept as (Hempty & _ & Hcall).
  exact (Hcall NormalizedPrice providersABC (Some validatePrice) freshWorld Hempty).
Defined.

(** X6: when [executeWithFallback] returns, the circuit of the provider it
    names as [source] is closed and its failure counter is 0, whatever they
    were before the call. *)
Theorem executeWithFallback_success_resets {T} (sources : list (Source T))
    (validate : option (T -> bool)) (w : World) :
  let run := executeWithFallback sources validate w in
  match fst run with
  | Resolved r =>
      exists c, circuitBreakers (snd run) !! source r = Some c /\
                failures c = 0%N /\ isOpen c = false
  | Rejected _ => True
  end.
Proof.
  intros run. subst run. unfold executeWithFallback.
  destruct (fallbackLoop validate 0 sources [] w) as [[r|e] w'] eqn:E; simpl; [|done].
  by eapply fallbackLoop_success_resets.
Qed.

(** X7: [executeWithFallback] reads and writes only the circuits of the
    providers of its list: the entry of any other provider is the same after
    the call, and a provider that had no entry still has none. *)
Theorem executeWithFallback_frame {T} (sources : list (Source T))
    (validate : option (T -> bool)) (w : World) (P : string) :
  (forall s, s ∈ sources -> name s <> P) ->
  circuitBreakers (snd (executeWithFallback sources validate w)) !! P =
  circuitBreakers w !! P.
Proof. intros H. by apply fallbackLoop_frame. Qed.

(** The A/B/C scenario on a table where [coingecko] is tripped. *)
Lemma executeWithFallback_frame_witness :
  let w := {| clock := 5000; circuitBreakers := coingeckoTripped; trace := [] |} in
  circuitBreakers (snd (executeWithFallback providersABC (Some validatePrice) w))
    !! "coingecko"%string =
  coingeckoTripped !! "coingecko"%string.
Proof.
  intros w.
  apply (executeWithFallback_frame providersABC (Some validatePrice) w "coingecko").
  intros s Hs. vm_compute in Hs.
  repeat (apply elem_of_cons in Hs as [->|Hs]; [discriminate|]).
  by apply elem_of_nil in Hs.
Defined.

Section TripFacts.

Context {T : Type}.
Implicit Types (validate : option (T -> bool)) (rest sources : list (Source T)).
Implicit Types (w : World) (errors : list ErrorEntry).

(** A call in which every listed provider has an open circuit inside its
    recovery window: nothing is invoked, no time passes, the table stays. *)
Lemma fallbackLoop_all_open validate rest :
  forall i errors w,
    (forall s, s ∈ rest ->
       exists c, circuitBreakers w !! name s = Some c /\ isOpen c = true /\
                 clock w - lastFailure c <= RECOVERY_TIME) ->
    exists evs,
      fallbackLoop validate i rest errors w =
      (Rejected (allFailed
         (errors ++ map (fun s => {| e_source := name s;
                                     e_error := "Circuit breaker open" |}) rest)),
       {| clock := clock w; circuitBreakers := circuitBreakers w;
          trace := trace w ++ evs |}) /\
      forall j n t, EvInvoke j n t ∉ evs.
Proof.
  induction rest as [|s rest IH]; intros i errors w Hopen; simpl.
  - exists []. rewrite !app_nil_r. split; [by destruct w|].
    intros j n t Hin. by apply elem_of_nil in Hin.
  - destruct (Hopen s) as (c & Hc & Ho & Hw); [apply list_elem_of_here|].
    rewrite (isCircuitOpen_within _ _ _ _ Hc Ho Hw).
    edestruct (IH (S i)
      (errors ++ [{| e_source := name s; e_error := "Circuit breaker open" |}])
      {| clock := clock w; circuitBreakers := circuitBreakers w;
         trace := trace w ++ [EvSkip i (name s)] |}) as (evs & Heq & Hno).
    { intros s' Hin. simpl. apply Hopen. by apply list_elem_of_further. }
    exists (EvSkip i (name s) :: evs). split.
    + rewrite Heq. simpl. by rewrite <- !app_assoc.
    + intros j n t [Hin|Hin]%elem_of_cons; [discriminate|]. by apply (Hno j n t).
Qed.

(** A call in which every listed provider starts with a closed circuit and
    fails: each counter goes up by one. *)
Lemma fallbackLoop_all_fail validate rest :
  forall i errors w,
    (forall s, s ∈ rest -> alwaysFails validate s) ->
    NoDup (map name rest) ->
    (forall s, s ∈ rest -> isOpen (circuitOf (name s) (circuitBreakers w)) = false) ->
    let w' := snd (fallbackLoop validate i rest errors w) in
    forall s, s ∈ rest ->
      exists c', circuitBreakers w' !! name s = Some c' /\
        failures c' = (failures (circuitOf (name s) (circuitBreakers w)) + 1)%N /\
        clock w <= lastFailure c' /\
        isOpen c' = N.leb FAILURE_THRESHOLD (failures c').
Proof.
  induction rest as [|s rest IH]; intros i errors w Hfail Hnd Hclosed w' s0 Hin.
  { by apply elem_of_nil in Hin. }
  subst w'. simpl in Hnd. apply NoDup_cons in Hnd as [Hnotin Hnd]. simpl.
  pose proof (isCircuitOpen_closed (name s) (clock w) (circuitBreakers w)
                (Hclosed s (list_elem_of_here _ _))) as [Hans Hent].
  pose proof (fun o => isCircuitOpen_other (name s) o (clock w) (circuitBreakers w)) as Hoth.
  destruct (isCircuitOpen (name s) (clock w) (circuitBreakers w)) as [open cb].
  simpl in Hans, Hent, Hoth. subst open.
  destruct (Hfail s (list_elem_of_here _ _) (clock w)) as [e He]. rewrite He.
  set (now := clock w + Z.of_N (latency (fn s (clock w)))).
  set (w1 := {| clock := now; circuitBreakers := recordFailure (name s) now cb;
                trace := _ |}).
  assert (forall s', s' ∈ rest -> name s <> name s') as Hdiff.
  { intros s' Hs' Heq. apply Hnotin. rewrite Heq. apply list_elem_of_fmap. by exists s'. }
  assert (forall s', s' ∈ rest ->
            circuitOf (name s') (circuitBreakers w1) =
            circuitOf (name s') (circuitBreakers w)) as Hsame.
  { intros s' Hs'. apply circuitOf_ext. simpl.
    rewrite recordFailure_other by by apply Hdiff. by apply Hoth, Hdiff. }
  apply elem_of_cons in Hin as [->|Hin].
  - rewrite fallbackLoop_frame.
    2:{ intros s' Hs' Heq. by apply (Hdiff s' Hs'). }
    simpl. rewrite recordFailure_lookup.
    rewrite (circuitOf_Some _ _ _ Hent).
    eexists. split; [done|]. simpl.
    rewrite (Hclosed s (list_elem_of_here _ _)).
    repeat split; [subst now; lia|].
    by destruct (N.leb FAILURE_THRESHOLD _).
  - destruct (IH (S i)
      (errors ++ [{| e_source := name s; e_error := message_or_string e |}]) w1)
      with (s := s0) as (c' & Hc' & Hf & Hl & Ho); try done.
    + intros s' Hs'. apply Hfail. by apply list_elem_of_further.
    + intros s' Hs'. rewrite Hsame by done. apply Hclosed. by apply list_elem_of_further.
    + exists c'. rewrite Hsame in Hf by done.
      repeat split; try done. simpl in Hl. subst now. lia.
Qed.

End TripFacts.

(** X8: take providers with distinct names that all fail whenever called,
    none of which has a failure on its counter.  Three calls of
    [executeWithFallback] in a row, any time apart, trip every one of them:
    a fourth call started within [RECOVERY_TIME] ms of the start of the third
    invokes no provider at all, takes no time, and throws the aggregate
    error in which every reason is 'Circuit breaker open'. *)
Theorem breaker_trips_after_three_failing_calls {T} (sources : list (Source T))
    (validate : option (T -> bool)) (w0 : World) (d1 d2 d3 : N) :
  (forall s, s ∈ sources -> alwaysFails validate s) ->
  NoDup (map name sources) ->
  (forall s, s ∈ sources ->
     failures (circuitOf (name s) (circuitBreakers w0)) = 0%N /\
     isOpen (circuitOf (name s) (circuitBreakers w0)) = false) ->
  let w1 := snd (executeWithFallback sources validate w0) in
  let w2 := snd (executeWithFallback sources validate (elapse d1 w1)) in
  let start3 := elapse d2 w2 in
  let w3 := snd (executeWithFallback sources validate start3) in
  let start4 := elapse d3 w3 in
  clock start4 - clock start3 <= RECOVERY_TIME ->
  let run4 := executeWithFallback sources validate start4 in
  fst run4 =
    Rejected (allFailed
      (map (fun s => {| e_source := name s; e_error := "Circuit breaker open" |})
           sources)) /\
  (forall j n t, EvInvoke j n t ∉ events_since start4 (snd run4)) /\
  clock (snd run4) = clock start4 /\
  circuitBreakers (snd run4) = circuitBreakers start4.
Proof.
  intros Hfail Hnd Hfresh w1 w2 start3 w3 start4 Hwin run4.
  assert (forall s, s ∈ sources ->
            exists c, circuitBreakers w1 !! name s = Some c /\
                      failures c = 1%N /\ isOpen c = false) as H1.
  { intros s Hs.
    destruct (fallbackLoop_all_fail validate sources 0%nat [] w0 Hfail Hnd
                (fun s Hs => proj2 (Hfresh s Hs)) s Hs) as (c & Hc & Hf & _ & Ho).
    exists c. rewrite (proj1 (Hfresh s Hs)) in Hf. rewrite Hf in Ho.
    by repeat split. }
  assert (forall s, s ∈ sources ->
            exists c, circuitBreakers w2 !! name s = Some c /\
                      failures c = 2%N /\ isOpen c = false) as H2.
  { intros s Hs.
    destruct (fallbackLoop_all_fail validate sources 0%nat [] (elapse d1 w1) Hfail Hnd)
      with (s := s) as (c & Hc & Hf & _ & Ho); try done.
    - intros s' Hs'. destruct (H1 s' Hs') as (c1 & Hc1 & _ & Ho1). simpl.
      by rewrite (circuitOf_Some _ _ _ Hc1).
    - exists c. destruct (H1 s Hs) as (c1 & Hc1 & Hf1 & _). simpl in Hf.
      rewrite (circuitOf_Some _ _ _ Hc1), Hf1 in Hf. rewrite Hf in Ho.
      by repeat split. }
  assert (forall s, s ∈ sources ->
            exists c, circuitBreakers w3 !! name s = Some c /\
                      isOpen c = true /\ clock start3 <= lastFailure c) as H3.
  { intros s Hs.
    destruct (fallbackLoop_all_fail validate sources 0%nat [] start3 Hfail Hnd)
      with (s := s) as (c & Hc & Hf & Hl & Ho); try done.
    - intros s' Hs'. destruct (H2 s' Hs') as (c2 & Hc2 & _ & Ho2). simpl.
      by rewrite (circuitOf_Some _ _ _ Hc2).
    - exists c. destruct (H2 s Hs) as (c2 & Hc2 & Hf2 & _). simpl in Hf.
      rewrite (circuitOf_Some _ _ _ Hc2), Hf2 in Hf. rewrite Hf in Ho.
      by repeat split. }
  destruct (fallbackLoop_all_open validate sources 0%nat [] start4) as (evs & Heq & Hno).
  { intros s Hs. destruct (H3 s Hs) as (c & Hc & Ho & Hl).
    exists c. repeat split; try done. lia. }
  subst run4. unfold executeWithFallback. rewrite Heq. simpl.
  repeat split; try done.
  intros j n t. rewrite (events_since_app start4 _ evs) by done. apply Hno.
Qed.

(** The first two providers of the scenario, called at 0 s, 10 s and 20 s
    and again at 30 s. *)
Lemma breaker_trips_after_three_failing_calls_witness :
  let sources := take 2 providersABC in
  let validate := Some validatePrice in
  let w1 := snd (executeWithFallback sources validate freshWorld) in
  let w2 := snd (executeWithFallback sources validate (elapse 10000 w1)) in
  let start3 := elapse 10000 w2 in
  let w3 := snd (executeWithFallback sources validate start3) in
  let start4 := elapse 10000 w3 in
  let run4 := executeWithFallback sources validate start4 in
  fst run4 =
    Rejected (allFailed
      (map (fun s => {| e_source := name s; e_error := "Circuit breaker open" |})
           sources)) /\
  (forall j n t, EvInvoke j n t ∉ events_since start4 (snd run4)) /\
  clock (snd run4) = clock start4 /\
  circuitBreakers (snd run4) = circuitBreakers start4.
Proof.
  apply (breaker_trips_after_three_failing_calls (take 2 providersABC)
           (Some validatePrice) freshWorld 10000 10000 10000).
  - intros s Hs t. vm_compute in Hs.
    repeat (apply elem_of_cons in Hs as [->|Hs]; [vm_compute; eauto|]).
    by apply elem_of_nil in Hs.
  - apply (bool_decide_unpack _). by vm_compute.
  - intros s Hs. vm_compute in Hs.
    repeat (apply elem_of_cons in Hs as [->|Hs]; [by vm_compute|]).
    by apply elem_of_nil in Hs.
  - vm_compute. discriminate.
Defined.

(** ** Further properties of on-chain routing *)

Section OnChainFacts.

Context {T : Type}.

Lemma failedRun_invoked_listed (validate : option (T -> bool)) i (ss : list (Source T))
    evs errs j n t :
  failedRun validate i ss evs errs -> EvInvoke j n t ∈ evs -> n ∈ map name ss.
Proof.
  induction 1 as [|i s ss b evs e errs Ha _ IH]; intros Hin.
  - by apply elem_of_nil in Hin.
  - simpl. apply elem_of_app in Hin as [Hin|Hin].
    + destruct Ha.
      * apply list_elem_of_singleton in Hin. discriminate.
      * apply elem_of_cons in Hin as [[= _ -> _]|Hin]; [apply list_elem_of_here|].
        apply list_elem_of_singleton in Hin. discriminate.
    + apply list_elem_of_further. by apply IH.
Qed.

(** Only providers of the list are ever invoked. *)
Lemma executeWithFallback_invokes_listed (sources : list (Source T))
    (validate : option (T -> bool)) (w : World) j n t :
  EvInvoke j n t ∈ events_since w (snd (executeWithFallback sources validate w)) ->
  n ∈ map name sources.
Proof.
  unfold executeWithFallback.
  destruct (fallbackLoop validate 0 sources [] w) as [res w'] eqn:E.
  apply fallbackLoop_shape in E as (evs & Htr & Hres). simpl.
  rewrite (events_since_app _ _ _ Htr). intros Hin.
  destruct res as [r|e].
  - destruct Hres as (pre & s & post & t0 & evs0 & errs & -> & _ & _ & Hrun & -> & _ & _).
    rewrite map_app. apply elem_of_app in Hin as [Hin|Hin].
    + apply elem_of_app. left. by eapply failedRun_invoked_listed.
    + apply elem_of_app. right. simpl.
      apply elem_of_cons in Hin as [[= _ -> _]|Hin]; [apply list_elem_of_here|].
      apply list_elem_of_singleton in Hin. discriminate.
  - destruct Hres as (errs & Hrun & _). by eapply failedRun_invoked_listed.
Qed.

(** The names [onChainSources] can produce. *)
Lemma onChainSources_cases (env : Adapters) (jsonrpcFn etherscanFn : Z -> Settled T)
    (requestedChain : option string) :
  let sources := onChainSources env jsonrpcFn etherscanFn requestedChain in
  let node := {| name := "JSON-RPC"; fn := jsonrpcFn |} in
  let explorer := {| name := "Etherscan"; fn := etherscanFn |} in
  (sources = [node; explorer] /\ jsonrpc_isConfigured env = true /\
   etherscan_isConfigured env = true) \/
  (sources = [node] /\ jsonrpc_isConfigured env = true /\
   etherscan_isConfigured env = false) \/
  (sources = [explorer] /\ etherscan_isConfigured env = true) \/
  (exists fallback, sources = [fallback] /\ name fallback = "No source"%string /\
                    etherscan_isConfigured env = false).
Proof.
  unfold onChainSources.
  destruct (jsonrpc_isConfigured env), (etherscan_isConfigured env);
    repeat case_match; simpl;
    first [ left; done | right; left; done | right; right; left; done
          | right; right; right; eexists; done ].
Qed.

End OnChainFacts.

(** [onChainSources] never returns an empty list.  The explorer is
    listed exactly when it is configured; the node, when listed, is
    configured and comes first; the synthetic provider "No source" is listed
    only alone, and exactly when neither the node is listed nor the explorer
    configured. *)
Theorem onChainSources_names {T} (env : Adapters)
    (jsonrpcFn etherscanFn : Z -> Settled T) (requestedChain : option string) :
  let names := map name (onChainSources env jsonrpcFn etherscanFn requestedChain) in
  names <> [] /\
  ("Etherscan"%string ∈ names <-> etherscan_isConfigured env = true) /\
  ("JSON-RPC"%string ∈ names ->
     jsonrpc_isConfigured env = true /\ head names = Some "JSON-RPC"%string) /\
  ("No source"%string ∈ names <-> names = ["No source"%string]) /\
  (names = ["No source"%string] <->
     ("JSON-RPC"%string ∉ names) /\ etherscan_isConfigured env = false).
Proof.
  intros names. subst names.
  destruct (onChainSources_cases env jsonrpcFn etherscanFn requestedChain)
    as [(-> & Hj & He)|[(-> & Hj & He)|[(-> & He)|(f & -> & Hf & He)]]];
    simpl; rewrite ?Hf, ?He; repeat split; try done; try set_solver.
Qed.

(** X9: when a chain is requested that the explorer adapter does not know,
    or whose id differs from the known chain id of the node, the node is
    left out of the provider list, and no call of the operation invokes the
    node's thunk. *)
Theorem node_left_out_for_other_chain {T} (env : Adapters)
    (jsonrpcFn etherscanFn : Z -> Settled T) (chain : string) :
  truthy_string chain = true ->
  (etherscan_getChainId env chain = None \/
   exists requestedChainId nodeChainId,
     etherscan_getChainId env chain = Some requestedChainId /\
     jsonrpc_getNodeChainId env = Some nodeChainId /\
     truthy_string nodeChainId = true /\
     requestedChainId <> nodeChainId) ->
  ("JSON-RPC"%string ∉
     map name (onChainSources env jsonrpcFn etherscanFn (Some chain))) /\
  forall w j t,
    EvInvoke j "JSON-RPC" t ∉
      events_since w
        (snd (executeWithFallback
                (onChainSources env jsonrpcFn etherscanFn (Some chain)) None w)).
Proof.
  intros Hc Hcase.
  assert ("JSON-RPC"%string ∉
            map name (onChainSources env jsonrpcFn etherscanFn (Some chain))) as Hout.
  { unfold onChainSources. rewrite Hc.
    destruct Hcase as [->|(rid & nid & -> & -> & -> & Hne)].
    - destruct (jsonrpc_isConfigured env), (etherscan_isConfigured env); simpl;
        set_solver.
    - apply String.eqb_neq in Hne. rewrite Hne. simpl.
      destruct (jsonrpc_isConfigured env), (etherscan_isConfigured env); simpl;
        set_solver. }
  split; [exact Hout|].
  intros w j t Hin. apply Hout. by eapply executeWithFallback_invokes_listed.
Qed.

(** A mainnet node and a request for [polygon]. *)
Lemma node_left_out_for_other_chain_witness :
  let env := {| jsonrpc_isConfigured := true;
                jsonrpc_getNodeChainId := Some "1"%string;
                etherscan_isConfigured := true;
                etherscan_getChainId := fun c =>
                  if String.eqb c "polygon" then Some "137"%string
                  else if String.eqb c "ethereum" then Some "1"%string else None |} in
  let jf := settles (Resolved "0x10"%string) 20 in
  let ef := settles (Resolved "0x10"%string) 300 in
  ("JSON-RPC"%string ∉ map name (onChainSources env jf ef (Some "polygon"%string))) /\
  forall w j t,
    EvInvoke j "JSON-RPC" t ∉
      events_since w
        (snd (executeWithFallback (onChainSources env jf ef (Some "polygon"%string)) None w)).
Proof.
  intros env jf ef.
  apply (node_left_out_for_other_chain env jf ef "polygon").
  - reflexivity.
  - right. exists "137"%string, "1"%string. repeat split; discriminate.
Defined.

(** X10: a configured node whose chain id is not known (the URL came from
    the environment and [setNodeUrl] was never called) is listed first for
    every chain the explorer adapter knows, whichever chain that is; unless
    its circuit is open, the call of the operation starts by invoking the
    node's thunk. *)
Theorem node_of_unknown_chain_asked_first {T} (env : Adapters)
    (jsonrpcFn etherscanFn : Z -> Settled T) (chain requestedChainId : string) :
  jsonrpc_isConfigured env = true ->
  jsonrpc_getNodeChainId env = None ->
  etherscan_getChainId env chain = Some requestedChainId ->
  let sources := onChainSources env jsonrpcFn etherscanFn (Some chain) in
  head sources = Some {| name := "JSON-RPC"; fn := jsonrpcFn |} /\
  forall w,
    fst (isCircuitOpen "JSON-RPC" (clock w) (circuitBreakers w)) = false ->
    exists evs,
      events_since w (snd (executeWithFallback sources None w)) =
      EvInvoke 0 "JSON-RPC" (clock w) :: evs.
Proof.
  intros Hj Hn Hid sources.
  assert (exists rest, sources = {| name := "JSON-RPC"; fn := jsonrpcFn |} :: rest)
    as [rest Hs].
  { subst sources. unfold onChainSources. rewrite Hj, Hn, Hid.
    destruct (truthy_string chain), (etherscan_isConfigured env); simpl; eauto. }
  rewrite Hs. split; [done|]. intros w Hclosed.
  unfold executeWithFallback. simpl.
  destruct (isCircuitOpen "JSON-RPC" (clock w) (circuitBreakers w)) as [open cb].
  simpl in Hclosed. subst open.
  destruct (tryBody None (outcome (jsonrpcFn (clock w)))) as [v|e] eqn:Et.
  - simpl. eexists. by apply events_since_app.
  - match goal with |- context [fallbackLoop ?v ?i ?r ?e ?w0] =>
      destruct (fallbackLoop v i r e w0) as [res w'] eqn:E end.
    apply fallbackLoop_shape in E as (evs & Htr & _). simpl in *.
    eexists. apply events_since_app. rewrite Htr, <- app_assoc. done.
Qed.

(** A node configured without a chain id and a request for [polygon]. *)
Lemma node_of_unknown_chain_asked_first_witness :
  let env := {| jsonrpc_isConfigured := true;
                jsonrpc_getNodeChainId := None;
                etherscan_isConfigured := true;
                etherscan_getChainId := fun c =>
                  if String.eqb c "polygon" then Some "137"%string else None |} in
  let jf := settles (Resolved "0x10"%string) 20 in
  let ef := settles (Resolved "0x10"%string) 300 in
  let sources := onChainSources env jf ef (Some "polygon"%string) in
  head sources = Some {| name := "JSON-RPC"; fn := jf |} /\
  forall w,
    fst (isCircuitOpen "JSON-RPC" (clock w) (circuitBreakers w)) = false ->
    exists evs,
      events_since w (snd (executeWithFallback sources None w)) =
      EvInvoke 0 "JSON-RPC" (clock w) :: evs.
Proof.
  intros env jf ef.
  exact (node_of_unknown_chain_asked_first env jf ef "polygon" "137"
           eq_refl eq_refl eq_refl).
Defined.

(** ** Health check *)

Section HealthFacts.

Lemma healthLoop_spec (probe : string -> Z -> Settled unit) (checks : list string) :
  forall (results : list HealthStatus) (w0 w : World),
    clock w0 <= clock w ->
    Forall (healthRowReflects probe w0) results ->
    let run := healthLoop probe checks results w in
    map h_source (fst run) = map h_source results ++ checks /\
    circuitBreakers (snd run) = circuitBreakers w /\
    trace (snd run) = trace w /\
    Forall (healthRowReflects probe w0) (fst run).
Proof.
  induction checks as [|source checks IH]; intros results w0 w Hle Hrows.
  - simpl. by rewrite app_nil_r.
  - cbn [healthLoop].
    destruct (healthProbe source (probe source) w) as [row w1] eqn:E.
    assert (h_source row = source /\ clock w <= clock w1 /\
            circuitBreakers w1 = circuitBreakers w /\ trace w1 = trace w /\
            healthRowReflects probe w0 row) as (Hsrc & Hclk & Hcb1 & Htr1 & Hrow).
    { unfold healthProbe in E. injection E as <- <-. simpl.
      split; [by destruct (outcome _)|]. split; [lia|]. do 2 (split; [done|]).
      exists (clock w). split; [done|].
      destruct (outcome (probe source (clock w))) eqn:Eo; simpl; rewrite Eo;
        split; try lia; done. }
    destruct (IH (results ++ [row]) w0 w1) as (Hs & Hcb & Htr & Hall).
    + lia.
    + apply Forall_app. split; [done|]. by apply Forall_singleton.
    + cbv zeta in *. split; [|split; [by rewrite Hcb|split; [by rewrite Htr|done]]].
      rewrite Hs, map_app, <- app_assoc. simpl. by rewrite Hsrc.
Qed.

End HealthFacts.

(** X11: [checkHealth] returns one row per source, in a fixed order
    ([jsonrpc] first when the node is configured, then [etherscan],
    [defillama], [coingecko], [growthepie], [blobscan]), whatever the
    probes do; every row is healthy exactly when its probe resolved, and
    carries its latency and, on failure, [error.message || String(error)].
    The circuit table is neither consulted nor changed: a provider whose
    circuit is open is probed all the same. *)
Theorem checkHealth_rows (env : Adapters) (probe : string -> Z -> Settled unit)
    (w : World) :
  let run := checkHealth env probe w in
  map h_source (fst run) =
    (if jsonrpc_isConfigured env then ["jsonrpc"%string] else []) ++
    ["etherscan"; "defillama"; "coingecko"; "growthepie"; "blobscan"]%string /\
  circuitBreakers (snd run) = circuitBreakers w /\
  trace (snd run) = trace w /\
  Forall (healthRowReflects probe w) (fst run).
Proof.
  intros run. subst run. unfold checkHealth.
  match goal with |- context [healthLoop probe ?checks [] w] =>
    destruct (healthLoop_spec probe checks [] w w) as (Hs & Hcb & Htr & Hall) end.
  - lia.
  - constructor.
  - cbv zeta in *. rewrite Hs. split; [by destruct (jsonrpc_isConfigured env)|done].
Qed.

(** X12: the circuits that on-chain operations trip are keyed "JSON-RPC",
    "Etherscan" and "No source", while the health report looks circuits up
    under [jsonrpc], [etherscan], ...: whatever an on-chain operation does
    to the table, the [CIRCUIT OPEN] mark of every row of a health check
    made afterwards is what it would have been before the operation. *)
Theorem onchain_circuits_not_in_health_report {T} (env : Adapters)
    (jsonrpcFn etherscanFn : Z -> Settled T) (requestedChain : option string)
    (w : World) (probe : string -> Z -> Settled unit) :
  let w' := snd (onChainOperation env jsonrpcFn etherscanFn requestedChain w) in
  let report := checkHealth env probe w' in
  forall h, h ∈ fst report ->
    circuitInfo (getCircuitStatus (circuitBreakers (snd report))) (h_source h) =
    circuitInfo (getCircuitStatus (circuitBreakers w)) (h_source h).
Proof.
  intros w' report h Hh.
  assert (map h_source (fst report) =
            (if jsonrpc_isConfigured env then ["jsonrpc"%string] else []) ++
            ["etherscan"; "defillama"; "coingecko"; "growthepie"; "blobscan"]%string /\
          circuitBreakers (snd report) = circuitBreakers w') as [Hs Hcb].
  { subst report. unfold checkHealth.
    match goal with |- context [healthLoop probe ?checks [] w'] =>
      destruct (healthLoop_spec probe checks [] w' w') as (Hs & Hcb & _ & _) end;
      [lia|constructor|].
    cbv zeta in *. rewrite Hs. split; [by destruct (jsonrpc_isConfigured env)|done]. }
  rewrite Hcb.
  assert (h_source h ∈ ["jsonrpc"; "etherscan"; "defillama"; "coingecko";
                        "growthepie"; "blobscan"]%string) as Hname.
  { assert (h_source h ∈ map h_source (fst report)) as Hin
      by (apply list_elem_of_fmap; by exists h).
    rewrite Hs in Hin. destruct (jsonrpc_isConfigured env); set_solver. }
  unfold circuitInfo, getCircuitStatus. rewrite !lookup_fmap.
  assert (circuitBreakers w' !! h_source h = circuitBreakers w !! h_source h) as ->;
    [|done].
  subst w'. unfold onChainOperation.
  destruct (executeWithFallback _ None w) as [r w1] eqn:E. simpl.
  replace w1 with (snd (executeWithFallback
    (onChainSources env jsonrpcFn etherscanFn requestedChain) None w)) by by rewrite E.
  apply fallbackLoop_frame. intros s Hs'.
  destruct (onChainSources_cases env jsonrpcFn etherscanFn requestedChain)
    as [(Hl & _)|[(Hl & _)|[(Hl & _)|(f & Hl & Hf & _)]]];
    rewrite Hl in Hs'; intros Heq; rewrite <- Heq in Hname;
    repeat (apply elem_of_cons in Hs' as [->|Hs']; [simpl in Hname; rewrite ?Hf in Hname; set_solver|]);
    by apply elem_of_nil in Hs'.
Qed.

(** The node fails for the third time and its circuit opens; the row of
    the node in the health report made next is marked as before. *)
Lemma onchain_circuits_not_in_health_report_witness :
  let env := {| jsonrpc_isConfigured := true;
                jsonrpc_getNodeChainId := Some "1"%string;
                etherscan_isConfigured := false;
                etherscan_getChainId := fun _ => Some "1"%string |} in
  let w := {| clock := 5000;
              circuitBreakers :=
                recordFailure "JSON-RPC" 2000 (recordFailure "JSON-RPC" 1000 ∅);
              trace := [] |} in
  let w' := snd (onChainOperation env
                   (settles (Rejected (newError "Node returned HTTP 502")) 15)
                   (settles (Resolved "0x10"%string) 300) None w) in
  let probe := fun _ : string => settles (Resolved tt) 20 in
  let report := checkHealth env probe w' in
  circuitInfo (getCircuitStatus (circuitBreakers (snd report))) "jsonrpc" =
  circuitInfo (getCircuitStatus (circuitBreakers w)) "jsonrpc".
Proof.
  intros env w w' probe report.
  apply (onchain_circuits_not_in_health_report env
           (settles (Rejected (newError "Node returned HTTP 502")) 15)
           (settles (Resolved "0x10"%string) 300) None w probe
           {| h_source := "jsonrpc"; healthy := true; h_latencyMs := 20;
              h_error := None |}).
  vm_compute. apply list_elem_of_here.
Defined.

(** Three failed calls to the node trip its circuit; the health row of the
    node still carries no mark. *)
Example tripped_node_not_marked :
  let env := {| jsonrpc_isConfigured := true;
                jsonrpc_getNodeChainId := Some "1"%string;
                etherscan_isConfigured := false;
                etherscan_getChainId := fun _ => Some "1"%string |} in
  let call := onChainOperation env
                (settles (Rejected (newError "Node returned HTTP 502")) 15)
                (settles (Resolved "0x10"%string) 300) None in
  let w3 := snd (call (snd (call (snd (call freshWorld))))) in
  let status := getCircuitStatus (circuitBreakers w3) in
  status !! "JSON-RPC"%string = Some (true, 3%N) /\
  circuitInfo status "JSON-RPC" = " [CIRCUIT OPEN]"%string /\
  circuitInfo status "jsonrpc" = ""%string.
Proof. vm_compute. repeat split. Qed.

(** ** Price routing *)

Section PriceFacts.

Import PriceRouting.

Lemma greaterThanZero_spec (v : value) :
  greaterThanZero v = true -> exists q, v = Num q /\ (0 < q)%Q.
Proof.
  destruct v as [q| |]; simpl; try discriminate.
  intros H%negb_true_iff. exists q. split; [done|].
  apply Qnot_le_lt. intros Hle. apply Qle_bool_iff in Hle. congruence.
Qed.

(** What a routed price says about the provider that answered. *)
Lemma withProvenance_resolved (sources : list (Source NormalizedPrice)) (w : World)
    (r : PriceResult) :
  fst (withProvenance (executeWithFallback sources (Some validate) w)) = Resolved r ->
  exists pre s post t v,
    sources = pre ++ s :: post /\
    r_fallbacksUsed r = length pre /\ r_source r = name s /\
    outcome (fn s t) = Resolved v /\ validate v = true /\
    r_price r = price v /\ r_currency r = currency v /\
    r_change24h r = change24h v /\ r_marketCap r = marketCap v.
Proof.
  unfold withProvenance, executeWithFallback.
  destruct (fallbackLoop (Some validate) 0 sources [] w) as [[fr|e] w'] eqn:E;
    simpl; [|discriminate].
  intros [= <-]. simpl.
  apply fallbackLoop_shape in E
    as (evs & _ & pre & s & post & t & evs0 & errs & Hs & Hk & Hn & _ & _ & Ho & Hv).
  exists pre, s, post, t, (result fr). repeat split; try done.
  simpl in Hv. by apply negb_false_iff in Hv.
Qed.

Lemma defillamaSource_resolved (api : PriceAdapters) (coins notFound : string)
    (t : Z) (v : NormalizedPrice) :
  outcome (fn (defillamaSource api coins notFound) t) = Resolved v ->
  currency v = "USD"%string /\ change24h v = Undefined /\ marketCap v = Undefined.
Proof.
  simpl. destruct (outcome (defillama_price api coins t)) as [p|e]; simpl; [|discriminate].
  destruct (truthy p); [|discriminate]. by intros [= <-].
Qed.

End PriceFacts.

(** X13: when [getEthPrice] returns, the price is a number greater than 0
    and the currency is USD; the source is [etherscan], [coingecko] or
    [defillama] with [fallbacksUsed] 0, 1 or 2 respectively, and only a
    result of [coingecko] can carry a 24h change or a market cap. *)
Theorem getEthPrice_result (api : PriceRouting.PriceAdapters) (w : World)
    (r : PriceRouting.PriceResult) :
  fst (PriceRouting.getEthPrice api w) = Resolved r ->
  (exists q, PriceRouting.r_price r = Num q /\ (0 < q)%Q) /\
  PriceRouting.r_currency r = "USD"%string /\
  ((PriceRouting.r_source r = "etherscan"%string /\
    PriceRouting.r_fallbacksUsed r = 0%nat /\
    PriceRouting.r_change24h r = Undefined /\ PriceRouting.r_marketCap r = Undefined) \/
   (PriceRouting.r_source r = "coingecko"%string /\
    PriceRouting.r_fallbacksUsed r = 1%nat) \/
   (PriceRouting.r_source r = "defillama"%string /\
    PriceRouting.r_fallbacksUsed r = 2%nat /\
    PriceRouting.r_change24h r = Undefined /\ PriceRouting.r_marketCap r = Undefined)).
Proof.
  intros H. unfold PriceRouting.getEthPrice in H.
  apply withProvenance_resolved in H
    as (pre & s & post & t & v & Hs & Hk & Hn & Ho & Hv & Hp & Hc & Hch & Hm).
  apply greaterThanZero_spec in Hv. rewrite Hp, Hc, Hk, Hn, Hch, Hm.
  split; [done|]. unfold PriceRouting.ethPriceSources in Hs.
  destruct pre as [|p1 [|p2 [|p3 [|p4 pre]]]]; simpl in Hs; try discriminate.
  - injection Hs as <- _. simpl in *.
    destruct (outcome (PriceRouting.etherscan_usd api t)); simpl in Ho; [|discriminate].
    injection Ho as <-. simpl. split; [done|left; done].
  - injection Hs as _ <- _. simpl in *.
    destruct (outcome (PriceRouting.coingecko_getPrice api "ethereum" t));
      simpl in Ho; [|discriminate].
    destruct (_ !! "ethereum"%string); [|discriminate].
    injection Ho as <-. simpl. split; [done|right; left; done].
  - injection Hs as _ _ <- _.
    apply defillamaSource_resolved in Ho as (-> & -> & ->). simpl.
    split; [done|right; right; done].
Qed.

(** The explorer reports 0, so the answer comes from the market-data
    service. *)
Lemma getEthPrice_result_witness :
  exists r,
    fst (PriceRouting.getEthPrice samplePriceAdapters freshWorld) = Resolved r /\
    PriceRouting.r_source r = "coingecko"%string /\
    (exists q, PriceRouting.r_price r = Num q /\ (0 < q)%Q).
Proof.
  eexists. split; [vm_compute; reflexivity|]. split; [reflexivity|].
  eapply (proj1 (getEthPrice_result samplePriceAdapters freshWorld _ _)).
  Unshelve. vm_compute. reflexivity.
Defined.

(** X14: when [getTokenPrice] returns, the price is a number greater than 0
    in USD.  For a contract address (a 42-character string that starts with
    [0x]) the DeFi aggregator is the primary source and the market-data
    service the fallback; for any other token it is the other way round.  A
    result of the aggregator carries neither a 24h change nor a market
    cap. *)
Theorem getTokenPrice_result (api : PriceRouting.PriceAdapters) (token chain : string)
    (w : World) (r : PriceRouting.PriceResult) :
  fst (PriceRouting.getTokenPrice api token chain w) = Resolved r ->
  (exists q, PriceRouting.r_price r = Num q /\ (0 < q)%Q) /\
  PriceRouting.r_currency r = "USD"%string /\
  let primary := if PriceRouting.isContract token then "defillama"%string
                 else "coingecko"%string in
  let fallback := if PriceRouting.isContract token then "coingecko"%string
                  else "defillama"%string in
  ((PriceRouting.r_source r = primary /\ PriceRouting.r_fallbacksUsed r = 0%nat) \/
   (PriceRouting.r_source r = fallback /\ PriceRouting.r_fallbacksUsed r = 1%nat)) /\
  (PriceRouting.r_source r = "defillama"%string ->
   PriceRouting.r_change24h r = Undefined /\ PriceRouting.r_marketCap r = Undefined).
Proof.
  intros H. unfold PriceRouting.getTokenPrice in H.
  apply withProvenance_resolved in H
    as (pre & s & post & t & v & Hs & Hk & Hn & Ho & Hv & Hp & Hc & Hch & Hm).
  apply greaterThanZero_spec in Hv. rewrite Hp, Hc, Hk, Hn, Hch, Hm.
  split; [done|]. unfold PriceRouting.tokenPriceSources in Hs.
  destruct (PriceRouting.isContract token);
    destruct pre as [|p1 [|p2 [|p3 pre]]]; simpl in Hs; try discriminate.
  - injection Hs as <- _.
    apply defillamaSource_resolved in Ho as (-> & -> & ->). simpl.
    split; [done|]. split; [left; done|done].
  - injection Hs as _ <- _. simpl in *.
    destruct (outcome (PriceRouting.coingecko_byContract api chain token t)) as [[d|]|];
      simpl in Ho; try discriminate.
    destruct (truthy (PriceRouting.field d "usd")); [|discriminate].
    injection Ho as <-. simpl. split; [done|]. split; [right; done|discriminate].
  - injection Hs as <- _. simpl in *.
    destruct (outcome (PriceRouting.coingecko_getPrice api (toLowerCase token) t))
      as [data|]; simpl in Ho; [|discriminate].
    destruct (data !! toLowerCase token) as [d|]; [|discriminate].
    destruct (truthy (PriceRouting.field d "usd")); [|discriminate].
    injection Ho as <-. simpl. split; [done|]. split; [left; done|discriminate].
  - injection Hs as _ <- _.
    apply defillamaSource_resolved in Ho as (-> & -> & ->). simpl.
    split; [done|]. split; [right; done|done].
Qed.

(** [usd-coin] by name: the market-data service answers first. *)
Lemma getTokenPrice_result_witness :
  exists r,
    fst (PriceRouting.getTokenPrice samplePriceAdapters "USD-Coin" "ethereum" freshWorld) =
      Resolved r /\
    PriceRouting.r_source r = "coingecko"%string /\
    PriceRouting.r_fallbacksUsed r = 0%nat /\
    (exists q, PriceRouting.r_price r = Num q /\ (0 < q)%Q).
Proof.
  eexists. split; [vm_compute; reflexivity|]. do 2 (split; [reflexivity|]).
  eapply (proj1 (getTokenPrice_result samplePriceAdapters "USD-Coin" "ethereum"
                   freshWorld _ _)).
  Unshelve. vm_compute. reflexivity.
Defined.

(** X15: for tokens that are not contract addresses, [getTokenPrice] looks
    the token up by its lower-cased name on both providers and ignores the
    chain: two such tokens that differ only in letter case give the same
    run, whatever chains are passed. *)
Theorem getTokenPrice_name_ignores_case_and_chain (api : PriceRouting.PriceAdapters)
    (token1 token2 chain1 chain2 : string) (w : World) :
  PriceRouting.isContract token1 = false ->
  PriceRouting.isContract token2 = false ->
  differOnlyInCase token1 token2 = true ->
  PriceRouting.getTokenPrice api token1 chain1 w =
  PriceRouting.getTokenPrice api token2 chain2 w.
Proof.
  intros H1 H2 Hc%differOnlyInCase_lower.
  unfold PriceRouting.getTokenPrice, PriceRouting.tokenPriceSources.
  rewrite H1, H2.
  unfold PriceRouting.coingeckoByNameSource, PriceRouting.defillamaKey.
  by rewrite Hc.
Qed.

(** "USDC" on Polygon and "usdc" on Ethereum. *)
Lemma getTokenPrice_name_ignores_case_and_chain_witness :
  PriceRouting.getTokenPrice samplePriceAdapters "USDC" "polygon" freshWorld =
  PriceRouting.getTokenPrice samplePriceAdapters "usdc" "ethereum" freshWorld.
Proof.
  exact (getTokenPrice_name_ignores_case_and_chain samplePriceAdapters
           "USDC" "usdc" "polygon" "ethereum" freshWorld eq_refl eq_refl eq_refl).
Defined.

(** An address written with an upper-case [0X] is not taken for a contract
    address: it is looked up as a name. *)
Example upper_case_prefix_is_a_name :
  PriceRouting.isContract "0xA0b86991c6218b36c1d19D4a2e9Eb0cE3606eB48" = true /\
  PriceRouting.isContract "0XA0b86991c6218b36c1d19D4a2e9Eb0cE3606eB48" = false /\
  differOnlyInCase "0xA0b86991c6218b36c1d19D4a2e9Eb0cE3606eB48"
                   "0XA0b86991c6218b36c1d19D4a2e9Eb0cE3606eB48" = true.
Proof. vm_compute. repeat split. Qed.

(** ** Sorting *)

Section SortFacts.

Context {A : Type} (compareFn : A -> A -> Q) (ord : A -> A -> Prop).
Hypothesis before_ord : forall x y, Qle_bool 0 (compareFn x y) = false -> ord x y.
Hypothesis not_before_ord : forall x y, Qle_bool 0 (compareFn x y) = true -> ord y x.
Hypothesis ord_trans : forall x y z, ord x y -> ord y z -> ord x z.

Lemma insertSorted_perm (x : A) (l : list A) : insertSorted compareFn x l ≡ₚ x :: l.
Proof.
  induction l as [|y l IH]; simpl; [done|].
  destruct (Qle_bool 0 (compareFn x y)); simpl; [|done].
  rewrite IH. apply perm_swap.
Qed.

Lemma insertSorted_sorted (x : A) (l : list A) :
  StronglySorted ord l -> StronglySorted ord (insertSorted compareFn x l).
Proof.
  induction 1 as [|y l Hs IH Hall]; simpl; [repeat constructor|].
  destruct (Qle_bool 0 (compareFn x y)) eqn:E; simpl.
  - constructor; [done|].
    rewrite insertSorted_perm. constructor; [by apply not_before_ord|done].
  - constructor; [by constructor|].
    constructor; [by apply before_ord|].
    eapply Forall_impl; [exact Hall|]. intros z Hz.
    eapply ord_trans; [|exact Hz]. by apply before_ord.
Qed.

Lemma sortLoop_perm (l acc : list A) :
  fold_left (fun sorted x => insertSorted compareFn x sorted) l acc ≡ₚ acc ++ l.
Proof.
  revert acc. induction l as [|x l IH]; intros acc; simpl; [by rewrite app_nil_r|].
  rewrite IH, insertSorted_perm. simpl. apply Permutation_middle.
Qed.

Lemma sortLoop_sorted (l acc : list A) :
  StronglySorted ord acc ->
  StronglySorted ord (fold_left (fun sorted x => insertSorted compareFn x sorted) l acc).
Proof.
  revert acc. induction l as [|x l IH]; intros acc Hs; simpl; [done|].
  by apply IH, insertSorted_sorted.
Qed.

Lemma sortWith_perm (l : list A) : sortWith compareFn l ≡ₚ l.
Proof. unfold sortWith. by rewrite sortLoop_perm. Qed.

Lemma sortWith_sorted (l : list A) : StronglySorted ord (sortWith compareFn l).
Proof. apply sortLoop_sorted. constructor. Qed.

End SortFacts.

Section KeyOrder.

Context {A : Type} (key : A -> Q).

Lemma descending_before (x y : A) :
  Qle_bool 0 (key y - key x) = false -> (key y <= key x)%Q.
Proof.
  intros H. apply Qlt_le_weak, Qnot_le_lt. intros Hle.
  assert (Qle_bool 0 (key y - key x) = true); [|congruence].
  apply Qle_bool_iff. lra.
Qed.

Lemma descending_not_before (x y : A) :
  Qle_bool 0 (key y - key x) = true -> (key x <= key y)%Q.
Proof. intros H%Qle_bool_iff. lra. Qed.

End KeyOrder.

Section KeyOrderAscending.

Context {A : Type} (key : A -> Q).

Lemma ascending_before (x y : A) :
  Qle_bool 0 (key x - key y) = false -> (key x <= key y)%Q.
Proof.
  intros H. apply Qlt_le_weak, Qnot_le_lt. intros Hle.
  assert (Qle_bool 0 (key x - key y) = true); [|congruence].
  apply Qle_bool_iff. lra.
Qed.

Lemma ascending_not_before (x y : A) :
  Qle_bool 0 (key x - key y) = true -> (key y <= key x)%Q.
Proof. intros H%Qle_bool_iff. lra. Qed.

Lemma positive_spec (q : Q) : negb (Qle_bool q 0) = true <-> (0 < q)%Q.
Proof.
  rewrite negb_true_iff. split.
  - intros H. apply Qnot_le_lt. intros Hle%Qle_bool_iff. congruence.
  - intros H. destruct (Qle_bool q 0) eqn:E; [|done].
    apply Qle_bool_iff in E. lra.
Qed.

End KeyOrderAscending.

(** ** The list views of the L2 analytics adapter *)

(** X16: [getL2Overview(limit)] returns [min limit n] of the [n] chains,
    by decreasing TVL: the rows of all the chains, one row per chain of the
    data with 0 for a metric the chain lacks, can be arranged by decreasing
    TVL so that the result is the first [min limit n] of them.  So each row
    is built from one chain of the data, no chain is shown twice unless the
    data has it twice, and every chain of the data is either in the list or
    has a TVL that is at most that of every chain in the list. *)
Theorem getL2Overview_top (chainMetrics : GrowthepieViews.ChainMetrics) (limit : nat) :
  let summary := fun '(chain, metrics) =>
    {| GrowthepieViews.chain := chain;
       GrowthepieViews.tvl := growthepie.metric metrics "tvl";
       GrowthepieViews.txcount := growthepie.metric metrics "txcount" |} in
  let top := GrowthepieViews.getL2Overview chainMetrics limit in
  length top = Nat.min limit (length chainMetrics) /\
  (exists rest,
     top ++ rest ≡ₚ map summary chainMetrics /\
     StronglySorted (fun a b => (GrowthepieViews.tvl b <= GrowthepieViews.tvl a)%Q)
       (top ++ rest)) /\
  StronglySorted (fun a b => (GrowthepieViews.tvl b <= GrowthepieViews.tvl a)%Q) top /\
  (forall x, x ∈ top -> exists entry, entry ∈ chainMetrics /\ x = summary entry) /\
  (forall entry, entry ∈ chainMetrics ->
     summary entry ∈ top \/
     forall y, y ∈ top ->
       (GrowthepieViews.tvl (summary entry) <= GrowthepieViews.tvl y)%Q).
Proof.
  intros summary top. subst top. unfold GrowthepieViews.getL2Overview.
  fold summary.
  set (cmp := fun a b => (GrowthepieViews.tvl b - GrowthepieViews.tvl a)%Q).
  set (ord := fun a b => (GrowthepieViews.tvl b <= GrowthepieViews.tvl a)%Q).
  set (sorted := sortWith cmp (map summary chainMetrics)).
  assert (sorted ≡ₚ map summary chainMetrics) as Hperm by apply sortWith_perm.
  assert (StronglySorted ord sorted) as Hsorted.
  { apply (sortWith_sorted cmp ord).
    - intros x y. apply descending_before.
    - intros x y. apply descending_not_before.
    - intros x y z Hxy Hyz. unfold ord in *. lra. }
  split; [|split; [|split; [|split]]].
  - rewrite length_take, Hperm, length_map. done.
  - exists (drop limit sorted). by rewrite take_drop.
  - rewrite <- (take_drop limit sorted) in Hsorted.
    by apply StronglySorted_app_1_l in Hsorted.
  - intros x Hx. apply elem_of_take in Hx as (i & Hx & _).
    apply list_elem_of_lookup_2 in Hx. rewrite Hperm in Hx.
    apply list_elem_of_fmap in Hx as (entry & -> & He). by exists entry.
  - intros entry He.
    assert (summary entry ∈ sorted) as Hin.
    { rewrite Hperm. apply list_elem_of_fmap. by exists entry. }
    rewrite <- (take_drop limit sorted) in Hin, Hsorted.
    apply elem_of_app in Hin as [Hin|Hin]; [by left|right].
    intros y Hy. by apply (StronglySorted_app_1_elem_of _ _ _ y (summary entry) Hsorted).
Qed.

(** X17: [getL2Fees], [getBlobData] and [getMetricRanking] keep exactly the
    chains whose value ([txcosts], [rent_paid], the given metric) is
    positive, a chain that lacks the metric counting as 0: [getL2Fees]
    lists them all by increasing fee, [getBlobData] all by decreasing blob
    fee, [getMetricRanking] the first [limit] by decreasing value. *)
Theorem positive_views_sorted (chainMetrics : GrowthepieViews.ChainMetrics)
    (metric : string) (limit : nat) :
  let row := fun key => fun '(chain, metrics) =>
    {| GrowthepieViews.cv_chain := chain;
       GrowthepieViews.cv_value := growthepie.metric metrics key |} in
  let positive := fun key =>
    filter (fun c => negb (Qle_bool (GrowthepieViews.cv_value c) 0))
           (map (row key) chainMetrics) in
  let increasing := fun a b =>
    (GrowthepieViews.cv_value a <= GrowthepieViews.cv_value b)%Q in
  let decreasing := fun a b =>
    (GrowthepieViews.cv_value b <= GrowthepieViews.cv_value a)%Q in
  (GrowthepieViews.getL2Fees chainMetrics ≡ₚ positive "txcosts"%string /\
   StronglySorted increasing (GrowthepieViews.getL2Fees chainMetrics)) /\
  (GrowthepieViews.getBlobData chainMetrics ≡ₚ positive "rent_paid"%string /\
   StronglySorted decreasing (GrowthepieViews.getBlobData chainMetrics)) /\
  (exists rest,
     GrowthepieViews.getMetricRanking chainMetrics metric limit ++ rest ≡ₚ positive metric /\
     length (GrowthepieViews.getMetricRanking chainMetrics metric limit) =
       Nat.min limit (length (positive metric)) /\
     StronglySorted decreasing
       (GrowthepieViews.getMetricRanking chainMetrics metric limit ++ rest)) /\
  (forall key c, c ∈ positive key -> (0 < GrowthepieViews.cv_value c)%Q).
Proof.
  intros row positive increasing decreasing.
  assert (forall l, StronglySorted decreasing
            (sortWith (fun a b => (GrowthepieViews.cv_value b - GrowthepieViews.cv_value a)%Q) l))
    as Hdec.
  { intros l. apply sortWith_sorted.
    - intros x y. apply descending_before.
    - intros x y. apply descending_not_before.
    - intros x y z Hxy Hyz. unfold decreasing in *. lra. }
  split; [|split; [|split]].
  - split; [apply sortWith_perm|]. apply sortWith_sorted.
    + intros x y. apply ascending_before.
    + intros x y. apply ascending_not_before.
    + intros x y z Hxy Hyz. unfold increasing in *. lra.
  - split; [apply sortWith_perm|apply Hdec].
  - unfold GrowthepieViews.getMetricRanking. fold (row metric). fold (positive metric).
    set (sorted := sortWith _ (positive metric)).
    exists (drop limit sorted). rewrite take_drop. split; [apply sortWith_perm|].
    split; [|apply Hdec].
    rewrite length_take. f_equal. subst sorted. by rewrite sortWith_perm.
  - intros key c Hc. apply list_elem_of_filter in Hc as [Hc _].
    apply positive_spec. by apply Is_true_true.
Qed.

(** ** Blob statistics *)

Section BlobFacts.

Import BlobRouting.

Lemma orZero_eq (q : Q) : (orZero q == q)%Q.
Proof.
  unfold orZero, truthy_number. destruct (Z.eqb_spec (Qnum q) 0); simpl; [|reflexivity].
  unfold Qeq. simpl. lia.
Qed.

Lemma totalBlobs_zero (data : list GrowthepieViews.ChainValue) :
  fold_left (fun sum d => (sum + blobCountOrZero d)%Q) data 0%Q = 0%Q.
Proof. induction data as [|d data IH]; simpl; [done|exact IH]. Qed.

Lemma totalSize_bounds (lo hi : Z) (blobs : list value) :
  Forall (fun b => exists q, b = Num q /\ (inject_Z lo <= q <= inject_Z hi)%Q) blobs ->
  forall acc : Q,
    (acc + inject_Z lo * inject_Z (Z.of_nat (length blobs))
     <= fold_left (fun sum b => (sum + sizeOrZero b)%Q) blobs acc
     <= acc + inject_Z hi * inject_Z (Z.of_nat (length blobs)))%Q.
Proof.
  induction 1 as [|b blobs (q & -> & Hq) _ IH]; intros acc.
  - cbn [fold_left length]. change (inject_Z (Z.of_nat 0)) with 0%Q. lra.
  - cbn [fold_left length]. specialize (IH (acc + sizeOrZero (Num q))%Q).
    rewrite Nat2Z.inj_succ. unfold Z.succ. rewrite inject_Z_plus.
    change (inject_Z 1) with 1%Q.
    simpl sizeOrZero in *. pose proof (orZero_eq q) as Ho.
    set (n := inject_Z (Z.of_nat (length blobs))) in *.
    set (s := fold_left _ blobs _) in *.
    set (l := inject_Z lo) in *. set (h := inject_Z hi) in *.
    assert (l * (n + 1) == l * n + l)%Q as Hl by ring.
    assert (h * (n + 1) == h * n + h)%Q as Hh by ring.
    set (ln := (l * n)%Q) in *. set (hn := (h * n)%Q) in *.
    set (l1 := (l * (n + 1))%Q) in *. set (h1 := (h * (n + 1))%Q) in *.
    split; lra.
Qed.

Lemma Math_round_bounds (lo hi : Z) (x : Q) :
  (inject_Z lo <= x <= inject_Z hi)%Q ->
  (inject_Z lo <= Math_round x <= inject_Z hi)%Q.
Proof.
  intros [Hlo Hhi]. unfold Math_round. split.
  - rewrite <- Zle_Qle. rewrite <- (Qfloor_Z lo). apply Qfloor_resp_le. lra.
  - rewrite <- Zle_Qle.
    assert (Qfloor (x + (1 # 2)) < hi + 1)%Z; [|lia].
    rewrite Zlt_Qlt, inject_Z_plus.
    pose proof (Qfloor_le (x + (1 # 2))). change (inject_Z 1) with 1%Q. lra.
Qed.

End BlobFacts.

(** X18: when [getBlobStats] answers from [growthepie], the fallback, the
    blob count it reports is 0 and the average size is 131072, whatever the
    data: the entries of [getBlobData] carry chains and blob fees, and the
    [blob_count] the router sums over is not among their properties. *)
Theorem getBlobStats_growthepie_reports_no_blobs
    (getRecentBlobs : Z -> Settled (list value))
    (getFundamentals : Z -> Settled GrowthepieViews.ChainMetrics)
    (w : World) (r : BlobRouting.BlobStatsResult) :
  fst (BlobRouting.getBlobStats getRecentBlobs getFundamentals w) = Resolved r ->
  BlobRouting.r_source r = "growthepie"%string ->
  BlobRouting.r_recentBlobCount r = 0%Q /\
  BlobRouting.r_avgBlobSize r = 131072%Q /\
  BlobRouting.r_fallbacksUsed r = 1%nat.
Proof.
  unfold BlobRouting.getBlobStats. cbv zeta.
  match goal with |- context [executeWithFallback ?l ?v w] =>
    destruct (executeWithFallback l v w) as [[fr|e] w'] eqn:E end;
    simpl; [|discriminate].
  unfold executeWithFallback in E.
  intros [= <-]. simpl. intros Hsrc.
  apply fallbackLoop_shape in E
    as (evs & _ & pre & s & post & t & evs0 & errs & Hs & Hk & Hn & _ & _ & Ho & _).
  rewrite Hn in Hsrc. rewrite Hk.
  unfold BlobRouting.blobStatsSources in Hs.
  destruct pre as [|p1 [|p2 [|p3 pre]]]; simpl in Hs; try discriminate.
  - injection Hs as <- _. discriminate.
  - injection Hs as _ <- _. simpl in Ho.
    destruct (outcome (getFundamentals t)) as [cm|]; simpl in Ho; [|discriminate].
    injection Ho as <-. simpl. by rewrite totalBlobs_zero.
Qed.

(** The blob explorer is down; the L2 analytics service lists two chains
    that paid blob fees. *)
Lemma getBlobStats_growthepie_reports_no_blobs_witness :
  let getRecentBlobs :=
    settles (Rejected (newError "Blobscan API error: Bad Gateway")) 70 in
  let getFundamentals :=
    settles (Resolved
      [("arbitrum"%string, {[ "rent_paid"%string := 5200%Q ]});
       ("base"%string, {[ "rent_paid"%string := 9100%Q ]})]) 130 in
  exists r,
    fst (BlobRouting.getBlobStats getRecentBlobs getFundamentals freshWorld) =
      Resolved r /\
    BlobRouting.r_source r = "growthepie"%string /\
    BlobRouting.r_recentBlobCount r = 0%Q /\
    BlobRouting.r_avgBlobSize r = 131072%Q /\
    BlobRouting.r_fallbacksUsed r = 1%nat.
Proof.
  intros getRecentBlobs getFundamentals.
  eexists. split; [vm_compute; reflexivity|]. split; [reflexivity|].
  apply (getBlobStats_growthepie_reports_no_blobs getRecentBlobs getFundamentals
           freshWorld); [vm_compute; reflexivity|reflexivity].
Defined.

(** X19: an answer of the blob explorer is never rejected by the validator.
    When its circuit is not open and [getRecentBlobs] resolves,
    [getBlobStats] returns from [blobscan] with [fallbacksUsed] 0; the count
    is the number of blobs; the average size is 0 for an empty list (no
    division takes place) and, when every size is a number between two
    integers, lies between them. *)
Theorem getBlobStats_from_blobscan
    (getRecentBlobs : Z -> Settled (list value))
    (getFundamentals : Z -> Settled GrowthepieViews.ChainMetrics)
    (w : World) (blobs : list value) :
  fst (isCircuitOpen "blobscan" (clock w) (circuitBreakers w)) = false ->
  outcome (getRecentBlobs (clock w)) = Resolved blobs ->
  exists r,
    fst (BlobRouting.getBlobStats getRecentBlobs getFundamentals w) = Resolved r /\
    BlobRouting.r_source r = "blobscan"%string /\
    BlobRouting.r_fallbacksUsed r = 0%nat /\
    (BlobRouting.r_recentBlobCount r == inject_Z (Z.of_nat (length blobs)))%Q /\
    (blobs = [] -> BlobRouting.r_avgBlobSize r = 0%Q) /\
    (forall lo hi : Z,
        blobs <> [] ->
        Forall (fun b => exists q, b = Num q /\ (inject_Z lo <= q <= inject_Z hi)%Q) blobs ->
        (inject_Z lo <= BlobRouting.r_avgBlobSize r <= inject_Z hi)%Q).
Proof.
  intros Hclosed Hres.
  unfold BlobRouting.getBlobStats, executeWithFallback, BlobRouting.blobStatsSources.
  cbn [fallbackLoop name fn].
  destruct (isCircuitOpen "blobscan" (clock w) (circuitBreakers w)) as [open cb].
  simpl in Hclosed. subst open.
  unfold thenSync at 1. rewrite Hres. cbn [outcome tryBody rejects].
  set (stats := BlobRouting.blobscanStats blobs).
  assert (BlobRouting.validate
            {| BlobRouting.recentBlobCount := orZero (BlobRouting.s_recentBlobCount stats);
               BlobRouting.avgBlobSize := orZero (BlobRouting.s_avgBlobSize stats) |} = true)
    as Hv.
  { unfold BlobRouting.validate. simpl. apply Qle_bool_iff. rewrite orZero_eq.
    rewrite <- (Zle_Qle 0). lia. }
  rewrite Hv. simpl. eexists. split; [reflexivity|]. simpl.
  split; [done|]. split; [done|]. split; [apply orZero_eq|]. split.
  - intros ->. reflexivity.
  - intros lo hi Hne Hall. rewrite orZero_eq.
    destruct blobs as [|b blobs]; [done|].
    subst stats. unfold BlobRouting.blobscanStats.
    cbn [BlobRouting.s_avgBlobSize length Nat.ltb Nat.leb].
    apply (Math_round_bounds lo hi).
    pose proof (totalSize_bounds lo hi (b :: blobs) Hall 0%Q) as [Hl Hh].
    assert (0 < inject_Z (Z.of_nat (length (b :: blobs))))%Q as Hpos.
    { rewrite <- (Zlt_Qlt 0). simpl. lia. }
    cbn [length] in *.
    set (n := inject_Z (Z.of_nat (S (length blobs)))) in *.
    set (total := fold_left _ (b :: blobs) 0%Q) in *.
    split; [apply Qle_shift_div_l|apply Qle_shift_div_r]; try done; lra.
Qed.

(** Three blobs of 100000 to 131072 bytes. *)
Lemma getBlobStats_from_blobscan_witness :
  let blobs := [Num 131072; Num 100000; Num 120000%Q] in
  exists r,
    fst (BlobRouting.getBlobStats (settles (Resolved blobs) 70)
           (settles (Resolved []) 130) freshWorld) = Resolved r /\
    BlobRouting.r_source r = "blobscan"%string /\
    BlobRouting.r_fallbacksUsed r = 0%nat /\
    (BlobRouting.r_recentBlobCount r == inject_Z (Z.of_nat (length blobs)))%Q /\
    (blobs = [] -> BlobRouting.r_avgBlobSize r = 0%Q) /\
    (forall lo hi : Z,
        blobs <> [] ->
        Forall (fun b => exists q, b = Num q /\ (inject_Z lo <= q <= inject_Z hi)%Q) blobs ->
        (inject_Z lo <= BlobRouting.r_avgBlobSize r <= inject_Z hi)%Q).
Proof.
  intros blobs.
  apply (getBlobStats_from_blobscan (settles (Resolved blobs) 70)
           (settles (Resolved []) 130) freshWorld blobs); reflexivity.
Defined.

Example getBlobStats_average :
  fst (BlobRouting.getBlobStats
         (settles (Resolved [Num 131072; Num 100000; Num 120000%Q]) 70)
         (settles (Resolved []) 130) freshWorld) =
  Resolved {| BlobRouting.r_recentBlobCount := 3; BlobRouting.r_avgBlobSize := 117024;
              BlobRouting.r_source := "blobscan"; BlobRouting.r_fallbacksUsed := 0 |}.
Proof. vm_compute. reflexivity. Qed.



(** ** The response cache *)

Section JsMapFacts.

Import CacheModel.
Context {V : Type}.
Implicit Types (m : JsMap V) (key k : string) (v : V).

Lemma mapGet_cons k key v m :
  mapGet key ((k, v) :: m) = if String.eqb k key then Some v else mapGet key m.
Proof. unfold mapGet. simpl. by destruct (String.eqb k key). Qed.

Lemma mapGet_mapSet_eq key v m : mapGet key (mapSet key v m) = Some v.
Proof.
  induction m as [|[k v'] m IH]; simpl.
  - by rewrite mapGet_cons, String.eqb_refl.
  - destruct (String.eqb k key) eqn:E; rewrite mapGet_cons.
    + by rewrite String.eqb_refl.
    + by rewrite E.
Qed.

Lemma mapGet_mapSet_ne key k v m :
  key <> k -> mapGet k (mapSet key v m) = mapGet k m.
Proof.
  intros Hne. induction m as [|[k' v'] m IH]; simpl.
  - rewrite mapGet_cons. by apply String.eqb_neq in Hne as ->.
  - destruct (String.eqb k' key) eqn:E; rewrite !mapGet_cons.
    + apply String.eqb_eq in E as ->. by apply String.eqb_neq in Hne as ->.
    + by rewrite IH.
Qed.

Lemma mapGet_mapDelete_eq key m : mapGet key (mapDelete key m) = None.
Proof.
  induction m as [|[k v'] m IH]; [done|].
  unfold mapDelete in *. rewrite filter_cons. simpl.
  destruct (String.eqb k key) eqn:E; simpl; [done|].
  by rewrite mapGet_cons, E.
Qed.

Lemma mapGet_mapDelete_ne key k m :
  key <> k -> mapGet k (mapDelete key m) = mapGet k m.
Proof.
  intros Hne. induction m as [|[k' v'] m IH]; [done|].
  unfold mapDelete in *. rewrite filter_cons. simpl.
  destruct (String.eqb k' key) eqn:E; simpl; rewrite !mapGet_cons.
  - apply String.eqb_eq in E as ->. by apply String.eqb_neq in Hne as ->.
  - by rewrite IH.
Qed.

Lemma mapGet_None key m : mapGet key m = None <-> key ∉ map fst m.
Proof.
  induction m as [|[k v'] m IH]; simpl.
  - split; [intros _; apply not_elem_of_nil|done].
  - rewrite mapGet_cons, not_elem_of_cons.
    destruct (String.eqb_spec k key) as [->|Hne].
    + split; [discriminate|by intros [? _]].
    + rewrite IH. split; [by split|by intros [_ ?]].
Qed.

Lemma keys_mapDelete key m :
  map fst (mapDelete key m) = filter (fun k => k <> key) (map fst m).
Proof.
  induction m as [|[k v'] m IH]; [done|].
  unfold mapDelete in *. rewrite filter_cons. simpl. rewrite filter_cons.
  destruct (String.eqb_spec k key) as [->|Hne]; simpl.
  - rewrite decide_False by (intros H; by apply H). exact IH.
  - rewrite decide_True by done. simpl. by rewrite IH.
Qed.

Lemma keys_mapSet_new key v m :
  key ∉ map fst m -> map fst (mapSet key v m) = map fst m ++ [key].
Proof.
  induction m as [|[k v'] m IH]; simpl; [done|].
  intros [Hne Hnotin]%not_elem_of_cons.
  destruct (String.eqb_spec k key) as [->|_]; [done|]. simpl. by rewrite IH.
Qed.

Lemma keys_mapSet_old key v m :
  key ∈ map fst m -> map fst (mapSet key v m) = map fst m.
Proof.
  induction m as [|[k v'] m IH]; simpl; [by intros ?%elem_of_nil|].
  destruct (String.eqb_spec k key) as [->|Hne]; [done|]. simpl.
  intros [->|Hin]%elem_of_cons; [done|]. by rewrite IH.
Qed.

Lemma length_mapDelete_in key m :
  NoDup (map fst m) -> key ∈ map fst m -> S (length (mapDelete key m)) = length m.
Proof.
  induction m as [|[k v'] m IH]; simpl; [by intros _ ?%elem_of_nil|].
  intros [Hnotin Hnd]%NoDup_cons Hin. unfold mapDelete in *. rewrite filter_cons. simpl.
  destruct (String.eqb_spec k key) as [->|Hne]; simpl.
  - f_equal. clear IH Hin Hnd. induction m as [|[k' v''] m IH]; [done|].
    simpl in Hnotin. apply not_elem_of_cons in Hnotin as [Hne Hnotin].
    rewrite filter_cons. simpl. apply not_eq_sym, String.eqb_neq in Hne as ->.
    simpl. by rewrite IH.
  - apply elem_of_cons in Hin as [->|Hin]; [done|]. by rewrite IH.
Qed.

Lemma length_mapDelete_le key m : (length (mapDelete key m) <= length m)%nat.
Proof. unfold mapDelete. apply length_filter. Qed.

Lemma length_keys m : length (map fst m) = length m.
Proof. apply length_map. Qed.

End JsMapFacts.

Section CacheFacts.

Import CacheModel.
Context {T : Type}.
Implicit Types (c : Cache T) (key k : string) (v : T).

Lemma mapGet_Some_key {V} key (m : JsMap V) (e : V) :
  mapGet key m = Some e -> key ∈ map fst m.
Proof.
  intros H. destruct (decide (key ∈ map fst m)) as [|Hn]; [done|].
  apply mapGet_None in Hn. congruence.
Qed.

Lemma mapDelete_head {V} key (e : V) (m : JsMap V) :
  key ∉ map fst m -> mapDelete key ((key, e) :: m) = m.
Proof.
  intros Hn. unfold mapDelete. rewrite filter_cons. simpl.
  rewrite String.eqb_refl. simpl.
  induction m as [|[k e'] m IH]; [done|].
  simpl in Hn. apply not_elem_of_cons in Hn as [Hne Hn].
  rewrite filter_cons. simpl. apply not_eq_sym, String.eqb_neq in Hne as ->.
  simpl. by rewrite IH.
Qed.

(** The entry written by [put] is there whatever was evicted. *)
Lemma put_lookup key v ttl now c :
  mapGet key (cache (put key v ttl now c)) = Some {| value := v; expiry := now + ttl |}.
Proof. unfold put. simpl. apply mapGet_mapSet_eq. Qed.

Lemma get_hit key now c entry :
  mapGet key (cache c) = Some entry -> (expiry entry <? now) = false ->
  get key now c =
  (Some (value entry),
   {| cache := mapSet key entry (mapDelete key (cache c)); maxSize := maxSize c |}).
Proof. intros H1 H2. unfold get. by rewrite H1, H2. Qed.

Lemma get_expired key now c entry :
  mapGet key (cache c) = Some entry -> (expiry entry <? now) = true ->
  get key now c = (None, {| cache := mapDelete key (cache c); maxSize := maxSize c |}).
Proof. intros H1 H2. unfold get. by rewrite H1, H2. Qed.

Lemma get_lookup_other key k now c :
  key <> k -> mapGet k (cache (snd (get key now c))) = mapGet k (cache c).
Proof.
  intros Hne. unfold get. destruct (mapGet key (cache c)) as [entry|]; [|done].
  destruct (expiry entry <? now); simpl.
  - by apply mapGet_mapDelete_ne.
  - rewrite mapGet_mapSet_ne by done. by apply mapGet_mapDelete_ne.
Qed.

Lemma get_lookup_hit key now c v :
  fst (get key now c) = Some v ->
  forall k, mapGet k (cache (snd (get key now c))) = mapGet k (cache c).
Proof.
  intros Hhit k. destruct (decide (key = k)) as [<-|Hne]; [|by apply get_lookup_other].
  unfold get in *. destruct (mapGet key (cache c)) as [entry|]; [|done].
  destruct (expiry entry <? now); simpl in *; [discriminate|].
  apply mapGet_mapSet_eq.
Qed.

End CacheFacts.

(** X21: a value written with [set(key, value, ttl)] at instant [now] is
    returned by [get(key)] at every instant up to [now + ttl], whatever the
    cache held and even when it was full; reading it does not extend its
    life; the first [get] after [now + ttl] answers [undefined] and removes
    the entry. *)
Theorem cache_put_then_get {T} (c : CacheModel.Cache T) (key : string) (v : T)
    (ttl now now' later : Z) :
  let c1 := CacheModel.put key v ttl now c in
  fst (CacheModel.get key now' c1) = (if now + ttl <? now' then None else Some v) /\
  (now' <= now + ttl ->
   fst (CacheModel.get key later (snd (CacheModel.get key now' c1))) =
   if now + ttl <? later then None else Some v) /\
  (now + ttl < now' ->
   CacheModel.mapGet key (CacheModel.cache (snd (CacheModel.get key now' c1))) = None).
Proof.
  intros c1. pose proof (put_lookup key v ttl now c) as Hl. fold c1 in Hl.
  split; [|split].
  - unfold CacheModel.get. rewrite Hl. simpl. by destruct (now + ttl <? now').
  - intros Hle. rewrite (get_hit key now' c1 _ Hl) by (simpl; lia). simpl.
    unfold CacheModel.get. simpl. rewrite mapGet_mapSet_eq. simpl.
    by destruct (now + ttl <? later).
  - intros Hlt. rewrite (get_expired key now' c1 _ Hl) by (simpl; lia). simpl.
    apply mapGet_mapDelete_eq.
Qed.

(** A price cached for 30 s at 1000 ms, read at 20 s and at 31 s. *)
Lemma cache_put_then_get_witness :
  let c1 := CacheModel.put "coingecko:price:ethereum:usd" 3000%Q 30000 1000
              {| CacheModel.cache := []; CacheModel.maxSize := 200 |} in
  fst (CacheModel.get "coingecko:price:ethereum:usd" 31000
         (snd (CacheModel.get "coingecko:price:ethereum:usd" 20000 c1))) = Some 3000%Q /\
  CacheModel.mapGet "coingecko:price:ethereum:usd"
    (CacheModel.cache (snd (CacheModel.get "coingecko:price:ethereum:usd" 31001 c1))) = None.
Proof.
  intros c1.
  destruct (cache_put_then_get {| CacheModel.cache := []; CacheModel.maxSize := 200 |}
              "coingecko:price:ethereum:usd" 3000%Q 30000 1000 20000 31000)
    as (_ & H2 & _).
  destruct (cache_put_then_get {| CacheModel.cache := []; CacheModel.maxSize := 200 |}
              "coingecko:price:ethereum:usd" 3000%Q 30000 1000 31001 0)
    as (_ & _ & H3).
  split; [apply H2; lia|apply H3; lia].
Defined.

Section CacheInvariant.

Import CacheModel.
Context {T : Type}.
Implicit Types (c : Cache T) (key k : string) (v : T).

Lemma Forall_filter_keep {A} (P : A -> Prop) (Q : A -> Prop) `{forall x, Decision (Q x)}
    (l : list A) :
  Forall P l -> Forall P (filter Q l).
Proof.
  rewrite !Forall_forall. intros Hall x [_ Hx]%list_elem_of_filter. by apply Hall.
Qed.

Lemma wellFormed_get key now c : wellFormed c -> wellFormed (snd (get key now c)).
Proof.
  intros (Hnd & Hne & Hlen). unfold get.
  destruct (mapGet key (cache c)) as [entry|] eqn:E; [|done].
  pose proof (mapGet_Some_key _ _ _ E) as Hin.
  pose proof (length_mapDelete_in key (cache c) Hnd Hin) as Hl.
  assert (key ∉ map fst (mapDelete key (cache c))) as Hout.
  { rewrite keys_mapDelete. intros [? _]%list_elem_of_filter. done. }
  destruct (expiry entry <? now); unfold wellFormed; simpl.
  - rewrite keys_mapDelete. split; [by apply NoDup_filter|].
    split; [by apply Forall_filter_keep|]. lia.
  - rewrite keys_mapSet_new by done. rewrite keys_mapDelete. split; [|split].
    + apply NoDup_app. split; [by apply NoDup_filter|]. split; [|apply NoDup_singleton].
      intros k [Hk _]%list_elem_of_filter ->%list_elem_of_singleton. done.
    + apply Forall_app. split; [by apply Forall_filter_keep|]. apply Forall_singleton.
      rewrite Forall_forall in Hne. by apply Hne.
    + rewrite <- (length_keys (mapSet _ _ _)), keys_mapSet_new by done.
      rewrite length_app, length_keys. simpl. lia.
Qed.

Lemma wellFormed_mapSet key (e : CacheEntry T) (m : JsMap (CacheEntry T)) (n : nat) :
  key <> ""%string ->
  NoDup (map fst m) -> Forall (fun k => k <> ""%string) (map fst m) ->
  (length m < n)%nat \/ ((length m <= n)%nat /\ key ∈ map fst m) ->
  wellFormed {| cache := mapSet key e m; maxSize := n |}.
Proof.
  intros Hk Hnd Hne Hlen. unfold wellFormed. simpl.
  destruct (decide (key ∈ map fst m)) as [Hin|Hout].
  - rewrite keys_mapSet_old by done. do 2 (split; [done|]).
    rewrite <- (length_keys (mapSet _ _ _)), keys_mapSet_old, length_keys by done. lia.
  - rewrite keys_mapSet_new by done. split; [|split].
    + apply NoDup_app. split; [done|]. split; [|apply NoDup_singleton].
      intros k Hin ->%list_elem_of_singleton. done.
    + apply Forall_app. split; [done|]. by apply Forall_singleton.
    + rewrite <- (length_keys (mapSet _ _ _)), keys_mapSet_new by done.
      rewrite length_app, length_keys. simpl. destruct Hlen as [?|[_ ?]]; [lia|done].
Qed.

Lemma wellFormed_put key v ttl now c :
  wellFormed c -> (1 <= maxSize c)%nat -> key <> ""%string ->
  wellFormed (put key v ttl now c).
Proof.
  intros (Hnd & Hne & Hlen) Hmax Hk. unfold put.
  destruct (Nat.leb_spec (maxSize c) (length (cache c))) as [Hfull|Hroom].
  - destruct (cache c) as [|[k0 e0] m] eqn:Ec; [simpl in *; lia|].
    simpl in Hnd, Hne, Hlen, Hfull.
    apply NoDup_cons in Hnd as [Hnotin Hnd]. apply Forall_cons in Hne as [Hk0 Hne].
    assert (truthy_string k0 = true) as ->.
    { unfold truthy_string. by apply negb_true_iff, String.eqb_neq. }
    rewrite mapDelete_head by done.
    apply wellFormed_mapSet; try done. left. lia.
  - apply wellFormed_mapSet; try done. left. lia.
Qed.

End CacheInvariant.

(** X22: the cache never grows beyond its capacity.  If the keys are
    unique and non-empty and there are at most [maxSize >= 1] entries, the
    same holds after [set] with a non-empty key and after [get]. *)
Theorem cache_wellFormed_kept {T} (c : CacheModel.Cache T) :
  CacheModel.wellFormed c -> (1 <= CacheModel.maxSize c)%nat ->
  (forall key v ttl now,
      key <> ""%string -> CacheModel.wellFormed (CacheModel.put key v ttl now c)) /\
  (forall key now, CacheModel.wellFormed (snd (CacheModel.get key now c))) /\
  CacheModel.wellFormed (CacheModel.clear c).
Proof.
  intros Hwf Hmax. split; [|split].
  - intros key v ttl now Hk. by apply wellFormed_put.
  - intros key now. by apply wellFormed_get.
  - unfold CacheModel.wellFormed. simpl. split; [constructor|]. split; [constructor|lia].
Qed.

(** A cache of capacity 2 that is full. *)
Lemma cache_wellFormed_kept_witness :
  let c := {| CacheModel.cache :=
                [("a"%string, {| CacheModel.value := 1%Q; CacheModel.expiry := 500 |});
                 ("b"%string, {| CacheModel.value := 2%Q; CacheModel.expiry := 900 |})];
              CacheModel.maxSize := 2 |} in
  CacheModel.wellFormed (CacheModel.put "c" 3%Q 100 400 c) /\
  length (CacheModel.cache (CacheModel.put "c" 3%Q 100 400 c)) = 2%nat.
Proof.
  intros c.
  assert (CacheModel.wellFormed c) as Hwf.
  { unfold CacheModel.wellFormed. simpl. split; [|split; [|lia]].
    - apply (bool_decide_unpack _). by vm_compute.
    - repeat constructor; discriminate. }
  split; [|reflexivity].
  apply (proj1 (cache_wellFormed_kept c Hwf (le_S _ _ (le_n 1)))). discriminate.
Defined.

(** X23: the cache evicts in least-recently-used order.  A [get] that hits
    moves its key to the most recent position and changes no content; a [set]
    of a new key into a full cache drops exactly the oldest key; so, in a
    cache of capacity at least 2, an entry that has just been read is still
    there after the next [set] of another key. *)
Theorem cache_evicts_least_recently_used {T} (c : CacheModel.Cache T) :
  CacheModel.wellFormed c ->
  (forall key now v,
      fst (CacheModel.get key now c) = Some v ->
      map fst (CacheModel.cache (snd (CacheModel.get key now c))) =
        filter (fun k => k <> key) (map fst (CacheModel.cache c)) ++ [key] /\
      forall k, CacheModel.mapGet k (CacheModel.cache (snd (CacheModel.get key now c))) =
                CacheModel.mapGet k (CacheModel.cache c)) /\
  (forall key v ttl now,
      length (CacheModel.cache c) = CacheModel.maxSize c ->
      (1 <= CacheModel.maxSize c)%nat ->
      key ∉ map fst (CacheModel.cache c) ->
      map fst (CacheModel.cache (CacheModel.put key v ttl now c)) =
        tail (map fst (CacheModel.cache c)) ++ [key]) /\
  (forall key now v key' v' ttl' now',
      (2 <= CacheModel.maxSize c)%nat ->
      fst (CacheModel.get key now c) = Some v ->
      key' <> key ->
      CacheModel.mapGet key
        (CacheModel.cache
           (CacheModel.put key' v' ttl' now' (snd (CacheModel.get key now c)))) =
      CacheModel.mapGet key (CacheModel.cache c)).
Proof.
  intros Hwf.
  assert (forall key now v,
    fst (CacheModel.get key now c) = Some v ->
    map fst (CacheModel.cache (snd (CacheModel.get key now c))) =
      filter (fun k => k <> key) (map fst (CacheModel.cache c)) ++ [key]) as Hmove.
  { intros key now v Hhit. unfold CacheModel.get in *.
    destruct (CacheModel.mapGet key (CacheModel.cache c)) as [entry|]; [|done].
    destruct (CacheModel.expiry entry <? now); simpl in *; [discriminate|].
    rewrite keys_mapSet_new.
    - by rewrite keys_mapDelete.
    - rewrite keys_mapDelete. intros [? _]%list_elem_of_filter. done. }
  split; [|split].
  - intros key now v Hhit. split; [by eapply Hmove|]. by eapply get_lookup_hit.
  - intros key v ttl now Hfull Hmax Hnew. destruct Hwf as (Hnd & Hne & _).
    unfold CacheModel.put. rewrite Hfull, Nat.leb_refl.
    destruct (CacheModel.cache c) as [|[k0 e0] m] eqn:Ec; [simpl in *; lia|].
    simpl in Hnd, Hne, Hnew.
    apply NoDup_cons in Hnd as [Hnotin Hnd]. apply Forall_cons in Hne as [Hk0 _].
    apply not_elem_of_cons in Hnew as [_ Hnew].
    assert (truthy_string k0 = true) as ->.
    { unfold truthy_string. by apply negb_true_iff, String.eqb_neq. }
    simpl. rewrite mapDelete_head by done. by apply keys_mapSet_new.
  - intros key now v key' v' ttl' now' Hmax Hhit Hne.
    pose proof (Hmove key now v Hhit) as Hkeys.
    pose proof (get_lookup_hit key now c v Hhit key) as Hsame.
    pose proof (wellFormed_get key now c Hwf) as (Hnd' & Hne' & Hlen').
    set (c' := snd (CacheModel.get key now c)) in *.
    unfold CacheModel.put. simpl. rewrite mapGet_mapSet_ne by done.
    destruct (Nat.leb_spec (CacheModel.maxSize c') (length (CacheModel.cache c')))
      as [Hfull|]; [|done].
    destruct (CacheModel.cache c') as [|[k0 e0] m] eqn:Ec; [done|].
    assert (CacheModel.maxSize c' = CacheModel.maxSize c) as Hms.
    { subst c'. unfold CacheModel.get.
      destruct (CacheModel.mapGet key (CacheModel.cache c)); [|done].
      by destruct (CacheModel.expiry _ <? now). }
    destruct (truthy_string k0); [|done].
    destruct (decide (k0 = key)) as [Heq|Hk0]; [|by rewrite mapGet_mapDelete_ne].
    exfalso. subst k0. simpl in Hkeys, Hnd', Hfull.
    apply NoDup_cons in Hnd' as [Hnotin _].
    destruct (filter (fun k => k <> key) (map fst (CacheModel.cache c))) as [|k1 l] eqn:Ef.
    + simpl in Hkeys. injection Hkeys as Hm. destruct m; [simpl in Hfull; lia|done].
    + simpl in Hkeys. injection Hkeys as <- Hm.
      assert (key ∈ filter (fun k => k <> key) (map fst (CacheModel.cache c))) as Hin
        by (rewrite Ef; apply list_elem_of_here).
      apply list_elem_of_filter in Hin as [? _]. done.
Qed.

(** In a full cache of capacity 2, reading "a" makes "b" the entry that the
    next insertion drops. *)
Lemma cache_evicts_least_recently_used_witness :
  let c := {| CacheModel.cache :=
                [("a"%string, {| CacheModel.value := 1%Q; CacheModel.expiry := 500 |});
                 ("b"%string, {| CacheModel.value := 2%Q; CacheModel.expiry := 900 |})];
              CacheModel.maxSize := 2 |} in
  CacheModel.mapGet "a"
    (CacheModel.cache (CacheModel.put "c" 3%Q 100 400 (snd (CacheModel.get "a" 300 c)))) =
  CacheModel.mapGet "a" (CacheModel.cache c) /\
  map fst (CacheModel.cache (CacheModel.put "c" 3%Q 100 400 c)) = ["b"; "c"]%string.
Proof.
  intros c.
  assert (CacheModel.wellFormed c) as Hwf.
  { unfold CacheModel.wellFormed. simpl. split; [|split; [|lia]].
    - apply (bool_decide_unpack _). by vm_compute.
    - repeat constructor; discriminate. }
  destruct (cache_evicts_least_recently_used c Hwf) as (_ & H2 & H3).
  split.
  - apply (H3 "a"%string 300 1%Q); [simpl; lia|reflexivity|discriminate].
  - apply (H2 "c"%string 3%Q 100 400); [reflexivity|simpl; lia|].
    simpl. set_solver.
Defined.

(** X24: a response that [cachedFetch] has just fetched and that is truthy
    is served from the cache by the next [cachedFetch] of the same key, with
    [noCache] off, at every instant up to [ttl] ms after it was stored: the
    second call settles at once with the same value and never invokes its
    fetcher. *)
Theorem cachedFetch_second_call_hits {T} (truthyT : T -> bool) (key : string)
    (ttl : Z) (fetcher : Z -> Settled T) (noCache : bool) (now : Z)
    (c : CacheModel.Cache T) (v : T) :
  (noCache = true \/
   forall v0, fst (CacheModel.get key now c) = Some v0 -> truthyT v0 = false) ->
  outcome (fetcher now) = Resolved v ->
  truthyT v = true ->
  let '(o1, now1, c1) := CacheModel.cachedFetch truthyT key ttl fetcher noCache now c in
  o1 = Resolved v /\
  now1 = now + Z.of_N (latency (fetcher now)) /\
  forall (fetcher2 : Z -> Settled T) now2,
    now2 <= now1 + ttl ->
    exists c2,
      CacheModel.cachedFetch truthyT key ttl fetcher2 false now2 c1 =
      (Resolved v, now2, c2).
Proof.
  intros Hfetch Hres Htruthy.
  set (now1 := now + Z.of_N (latency (fetcher now))).
  assert (forall c0, CacheModel.fetchAndStore key ttl fetcher now c0 =
            (Resolved v, now1, CacheModel.put key v ttl now1 c0)) as Hgo.
  { intros c0. unfold CacheModel.fetchAndStore. cbv zeta. by rewrite Hres. }
  assert (forall c0 (fetcher2 : Z -> Settled T) now2,
    now2 <= now1 + ttl ->
    exists c2,
      CacheModel.cachedFetch truthyT key ttl fetcher2 false now2
        (CacheModel.put key v ttl now1 c0) = (Resolved v, now2, c2)) as Hhit.
  { intros c0 fetcher2 now2 Hle. unfold CacheModel.cachedFetch.
    rewrite (get_hit key now2 _ _ (put_lookup key v ttl now1 c0)) by (simpl; lia).
    simpl. rewrite Htruthy. by eexists. }
  unfold CacheModel.cachedFetch. destruct noCache.
  - rewrite Hgo. split; [done|split; [done|exact (Hhit c)]].
  - destruct Hfetch as [?|Hfalsy]; [done|].
    destruct (CacheModel.get key now c) as [[v0|] c0] eqn:Eg; simpl in *.
    + rewrite (Hfalsy v0 eq_refl), Hgo. split; [done|split; [done|exact (Hhit c0)]].
    + rewrite Hgo. split; [done|split; [done|exact (Hhit c0)]].
Qed.

(** An explorer answer fetched at 0 ms and asked for again. *)
Lemma cachedFetch_second_call_hits_witness :
  let c := {| CacheModel.cache := []; CacheModel.maxSize := 200 |} in
  let truthyQ := truthy_number in
  let '(o1, now1, c1) :=
    CacheModel.cachedFetch truthyQ "defillama:tvl:aave" 60000
      (settles (Resolved 11000000000%Q) 250) false 0 c in
  o1 = Resolved 11000000000%Q /\
  now1 = 0 + Z.of_N 250 /\
  forall (fetcher2 : Z -> Settled Q) now2,
    now2 <= now1 + 60000 ->
    exists c2,
      CacheModel.cachedFetch truthyQ "defillama:tvl:aave" 60000 fetcher2 false now2 c1 =
      (Resolved 11000000000%Q, now2, c2).
Proof.
  intros c truthyQ.
  apply (cachedFetch_second_call_hits truthyQ "defillama:tvl:aave" 60000
           (settles (Resolved 11000000000%Q) 250) false 0 c 11000000000%Q).
  - right. intros v0 H. discriminate.
  - reflexivity.
  - reflexivity.
Defined.

(** X25: a falsy response (0, an empty string, [null], [false]) is stored
    but never served: the next [cachedFetch] of the same key invokes its
    fetcher again, however soon it comes, and settles as the fetcher
    does. *)
Theorem cachedFetch_falsy_never_served {T} (truthyT : T -> bool) (key : string)
    (ttl : Z) (fetcher : Z -> Settled T) (noCache : bool) (now : Z)
    (c : CacheModel.Cache T) (v : T) :
  (noCache = true \/
   forall v0, fst (CacheModel.get key now c) = Some v0 -> truthyT v0 = false) ->
  outcome (fetcher now) = Resolved v ->
  truthyT v = false ->
  let '(o1, now1, c1) := CacheModel.cachedFetch truthyT key ttl fetcher noCache now c in
  o1 = Resolved v /\
  CacheModel.mapGet key (CacheModel.cache c1) =
    Some {| CacheModel.value := v; CacheModel.expiry := now1 + ttl |} /\
  forall (fetcher2 : Z -> Settled T) now2,
    let '(o2, settled2, _) :=
      CacheModel.cachedFetch truthyT key ttl fetcher2 false now2 c1 in
    o2 = outcome (fetcher2 now2) /\
    settled2 = now2 + Z.of_N (latency (fetcher2 now2)).
Proof.
  intros Hfetch Hres Hfalsy.
  set (now1 := now + Z.of_N (latency (fetcher now))).
  assert (forall c0 (fetcher2 : Z -> Settled T) now2,
    let '(o2, settled2, _) :=
      CacheModel.cachedFetch truthyT key ttl fetcher2 false now2
        (CacheModel.put key v ttl now1 c0) in
    o2 = outcome (fetcher2 now2) /\
    settled2 = now2 + Z.of_N (latency (fetcher2 now2))) as Hagain.
  { intros c0 fetcher2 now2.
    unfold CacheModel.cachedFetch, CacheModel.get, CacheModel.fetchAndStore.
    rewrite put_lookup. simpl.
    destruct (now1 + ttl <? now2); simpl; [|rewrite Hfalsy];
      by destruct (outcome (fetcher2 now2)). }
  assert (forall c0, CacheModel.fetchAndStore key ttl fetcher now c0 =
            (Resolved v, now1, CacheModel.put key v ttl now1 c0)) as Hgo.
  { intros c0. unfold CacheModel.fetchAndStore. cbv zeta. by rewrite Hres. }
  unfold CacheModel.cachedFetch. destruct noCache.
  - rewrite Hgo. split; [done|]. split; [apply put_lookup|exact (Hagain c)].
  - destruct Hfetch as [?|Hfalsy0]; [done|].
    destruct (CacheModel.get key now c) as [[v0|] c0] eqn:Eg; simpl in *.
    + rewrite (Hfalsy0 v0 eq_refl), Hgo.
      split; [done|]. split; [apply put_lookup|exact (Hagain c0)].
    + rewrite Hgo. split; [done|]. split; [apply put_lookup|exact (Hagain c0)].
Qed.

(** A protocol whose TVL is 0, asked for twice within a second. *)
Lemma cachedFetch_falsy_never_served_witness :
  let c := {| CacheModel.cache := []; CacheModel.maxSize := 200 |} in
  let '(o1, now1, c1) :=
    CacheModel.cachedFetch truthy_number "defillama:tvl:ghost" 60000
      (settles (Resolved 0%Q) 250) false 0 c in
  o1 = Resolved 0%Q /\
  CacheModel.mapGet "defillama:tvl:ghost" (CacheModel.cache c1) =
    Some {| CacheModel.value := 0%Q; CacheModel.expiry := now1 + 60000 |} /\
  forall (fetcher2 : Z -> Settled Q) now2,
    let '(o2, settled2, _) :=
      CacheModel.cachedFetch truthy_number "defillama:tvl:ghost" 60000 fetcher2 false
        now2 c1 in
    o2 = outcome (fetcher2 now2) /\
    settled2 = now2 + Z.of_N (latency (fetcher2 now2)).
Proof.
  intros c.
  apply (cachedFetch_falsy_never_served truthy_number "defillama:tvl:ghost" 60000
           (settles (Resolved 0%Q) 250) false 0 c 0%Q).
  - right. intros v0 H. discriminate.
  - reflexivity.
  - reflexivity.
Defined.

(** X26: when the fetcher fails, [cachedFetch] fails with the same error
    and stores nothing: the cache is what the lookup left, so an entry that
    had expired is gone and is not replaced. *)
Theorem cachedFetch_failure_stores_nothing {T} (truthyT : T -> bool) (key : string)
    (ttl : Z) (fetcher : Z -> Settled T) (noCache : bool) (now : Z)
    (c : CacheModel.Cache T) (e : Error) :
  (noCache = true \/
   forall v0, fst (CacheModel.get key now c) = Some v0 -> truthyT v0 = false) ->
  outcome (fetcher now) = Rejected e ->
  CacheModel.cachedFetch truthyT key ttl fetcher noCache now c =
  (Rejected e, now + Z.of_N (latency (fetcher now)),
   if noCache then c else snd (CacheModel.get key now c)).
Proof.
  intros Hfetch Hres.
  assert (forall c0, CacheModel.fetchAndStore key ttl fetcher now c0 =
            (Rejected e, now + Z.of_N (latency (fetcher now)), c0)) as Hgo.
  { intros c0. unfold CacheModel.fetchAndStore. cbv zeta. by rewrite Hres. }
  unfold CacheModel.cachedFetch.
  destruct noCache; [by rewrite Hgo|].
  destruct Hfetch as [?|Hfalsy]; [done|].
  destruct (CacheModel.get key now c) as [[v0|] c0] eqn:Eg; simpl in *.
  - by rewrite (Hfalsy v0 eq_refl), Hgo.
  - by rewrite Hgo.
Qed.

(** An expired entry and an upstream that is down. *)
Lemma cachedFetch_failure_stores_nothing_witness :
  let c := {| CacheModel.cache :=
                [("growthepie:fundamentals"%string,
                  {| CacheModel.value := 7%Q; CacheModel.expiry := 60000 |})];
              CacheModel.maxSize := 200 |} in
  CacheModel.cachedFetch truthy_number "growthepie:fundamentals" 60000
    (settles (Rejected (newError "growthepie API error: Bad Gateway")) 80)
    false 61000 c =
  (Rejected (newError "growthepie API error: Bad Gateway"), 61000 + Z.of_N 80,
   snd (CacheModel.get "growthepie:fundamentals" 61000 c)).
Proof.
  intros c.
  apply (cachedFetch_failure_stores_nothing truthy_number "growthepie:fundamentals" 60000
           (settles (Rejected (newError "growthepie API error: Bad Gateway")) 80)
           false 61000 c).
  - right. intros v0 H. discriminate.
  - reflexivity.
Defined.

(** ** Facts about [processData] *)

Section StringOrder.

Lemma compare_lt_trans (a b c : string) :
  String.compare a b = Lt -> String.compare b c = Lt -> String.compare a c = Lt.
Proof.
  revert b c. induction a as [|x a IH]; intros [|y b] [|z c]; simpl; try done.
  unfold Ascii.compare.
  destruct (N.compare_spec (N_of_ascii x) (N_of_ascii y)) as [Hxy|Hxy|Hxy]; [| |done].
  - rewrite Hxy.
    destruct (N.compare_spec (N_of_ascii y) (N_of_ascii z)); [apply IH|done|done].
  - intros _.
    destruct (N.compare_spec (N_of_ascii y) (N_of_ascii z)) as [Hyz|Hyz|Hyz]; [| |done].
    + rewrite <- Hyz. intros _. by apply N.compare_lt_iff in Hxy as ->.
    + intros _.
      assert (N_of_ascii x < N_of_ascii z)%N as ->%N.compare_lt_iff by lia. done.
Qed.

Lemma ltb_irrefl (a : string) : String.ltb a a = false.
Proof.
  unfold String.ltb. pose proof (String.compare_antisym a a) as H.
  by destruct (String.compare a a).
Qed.

Lemma ltb_later (d d' x : string) :
  String.ltb d d' = true -> String.ltb d x = false -> String.ltb d' x = false.
Proof.
  unfold String.ltb. intros Hdd' Hdx.
  destruct (String.compare d d') eqn:E1; try discriminate.
  destruct (String.compare d' x) eqn:E2; try done.
  by rewrite (compare_lt_trans _ _ _ E1 E2) in Hdx.
Qed.

End StringOrder.

Section JsMapMore.

Import CacheModel.
Context {V : Type}.
Implicit Types (m : JsMap V) (key k : string) (v : V).

Lemma mapGet_elem_of key v m : mapGet key m = Some v -> (key, v) ∈ m.
Proof.
  induction m as [|[k v'] m IH]; [done|].
  rewrite mapGet_cons. destruct (String.eqb_spec k key) as [->|Hne].
  - intros [= ->]. apply list_elem_of_here.
  - intros H. apply list_elem_of_further. by apply IH.
Qed.

Lemma elem_of_mapGet key v m :
  NoDup (map fst m) -> (key, v) ∈ m -> mapGet key m = Some v.
Proof.
  induction m as [|[k v'] m IH]; simpl; [by intros _ ?%elem_of_nil|].
  intros [Hnotin Hnd]%NoDup_cons [Heq|Hin]%elem_of_cons; rewrite mapGet_cons.
  - injection Heq as -> ->. by rewrite String.eqb_refl.
  - destruct (String.eqb_spec k key) as [->|Hne]; [|by apply IH].
    exfalso. apply Hnotin. apply list_elem_of_fmap. by exists (key, v).
Qed.

Lemma mapSet_mapSet key v v' m : mapSet key v (mapSet key v' m) = mapSet key v m.
Proof.
  induction m as [|[k v''] m IH]; simpl.
  - by rewrite String.eqb_refl.
  - destruct (String.eqb k key) eqn:E; simpl.
    + by rewrite String.eqb_refl.
    + by rewrite E, IH.
Qed.

Lemma NoDup_keys_mapSet key v m :
  NoDup (map fst m) -> NoDup (map fst (mapSet key v m)).
Proof.
  intros Hnd. destruct (decide (key ∈ map fst m)) as [Hin|Hnotin].
  - by rewrite keys_mapSet_old.
  - rewrite keys_mapSet_new by done. apply NoDup_app. split; [done|].
    split; [|apply NoDup_singleton].
    intros x Hx ->%list_elem_of_singleton. by apply Hnotin.
Qed.

End JsMapMore.

Section ProcessDataFacts.

Import GrowthepieData.

Lemma latestOf_nil : latestOf [] ∅.
Proof.
  split.
  - intros k d H. by rewrite lookup_empty in H.
  - by intros j ?%elem_of_nil.
Qed.

Lemma latestOf_insert seen latestDates item :
  latestOf seen latestDates ->
  (forall d, latestDates !! key item = Some d -> String.ltb d (date item) = true) ->
  latestOf (seen ++ [item]) (<[key item := date item]> latestDates).
Proof.
  intros [Hmax Hall] Hnew. split.
  - intros k d Hk. destruct (decide (key item = k)) as [<-|Hne].
    + rewrite lookup_insert_eq in Hk. injection Hk as <-. split.
      * exists item. by rewrite elem_of_app, list_elem_of_singleton; auto.
      * intros j [Hj| ->%list_elem_of_singleton]%elem_of_app Hkey; [|apply ltb_irrefl].
        destruct (Hall j Hj) as [d Hd]. rewrite Hkey in Hd.
        eapply ltb_later; [by apply Hnew|]. by apply (Hmax _ _ Hd).
    + rewrite lookup_insert_ne in Hk by done.
      destruct (Hmax _ _ Hk) as [(i & Hi & Hik & Hid) Hle]. split.
      * exists i. by rewrite elem_of_app; auto.
      * intros j [Hj| ->%list_elem_of_singleton]%elem_of_app Hkey; [by apply Hle|].
        by destruct Hne.
  - intros j [Hj| ->%list_elem_of_singleton]%elem_of_app.
    + destruct (decide (key item = key j)) as [<-|Hne].
      * rewrite lookup_insert_eq. by eexists.
      * rewrite lookup_insert_ne by done. by apply Hall.
    + rewrite lookup_insert_eq. by eexists.
Qed.

Lemma latestOf_noteDate seen latestDates item :
  latestOf seen latestDates -> latestOf (seen ++ [item]) (noteDate latestDates item).
Proof.
  intros Hok. unfold noteDate.
  destruct (latestDates !! key item) as [latest|] eqn:Hl.
  - destruct (String.ltb latest (date item)) eqn:Hlt.
    + apply latestOf_insert; [done|]. intros d Hd. congruence.
    + destruct Hok as [Hmax Hall]. split.
      * intros k d Hk. destruct (Hmax _ _ Hk) as [(i & Hi & Hik & Hid) Hle]. split.
        -- exists i. by rewrite elem_of_app; auto.
        -- intros j [Hj| ->%list_elem_of_singleton]%elem_of_app Hkey; [by apply Hle|].
           rewrite Hkey in Hl. congruence.
      * intros j [Hj| ->%list_elem_of_singleton]%elem_of_app; [by apply Hall|].
        by eexists.
  - apply latestOf_insert; [done|]. intros d Hd. congruence.
Qed.

Lemma latestOf_fold data : forall seen latestDates,
  latestOf seen latestDates ->
  latestOf (seen ++ data) (fold_left noteDate data latestDates).
Proof.
  induction data as [|item data IH]; intros seen latestDates Hok; simpl.
  - by rewrite app_nil_r.
  - replace (seen ++ item :: data) with ((seen ++ [item]) ++ data)
      by (by rewrite <- app_assoc).
    apply IH. by apply latestOf_noteDate.
Qed.

Lemma extract_eq latestDates chainMetrics item :
  extract latestDates chainMetrics item =
  if bool_decide (latestDates !! key item = Some (date item)) then
    CacheModel.mapSet (origin_key item)
      (<[metric_key item := value item]>
         (default ∅ (CacheModel.mapGet (origin_key item) chainMetrics)))
      chainMetrics
  else chainMetrics.
Proof.
  unfold extract. destruct (bool_decide _); [|done].
  destruct (CacheModel.mapGet (origin_key item) chainMetrics) as [metrics|] eqn:Hget.
  - by rewrite Hget.
  - by rewrite mapGet_mapSet_eq, mapSet_mapSet.
Qed.

Lemma extractedFrom_extract latestDates seen chainMetrics item :
  extractedFrom latestDates seen chainMetrics ->
  extractedFrom latestDates (seen ++ [item]) (extract latestDates chainMetrics item).
Proof.
  intros (Hnd & Hsound & Hcomplete). rewrite extract_eq.
  destruct (bool_decide_reflect (latestDates !! key item = Some (date item)))
    as [Hlatest|Hold].
  - split; [by apply NoDup_keys_mapSet|]. split.
    + intros o metrics m v Hget Hm.
      destruct (decide (origin_key item = o)) as [<-|Hne].
      * rewrite mapGet_mapSet_eq in Hget. injection Hget as <-.
        destruct (decide (metric_key item = m)) as [<-|Hnm].
        -- rewrite lookup_insert_eq in Hm. injection Hm as <-.
           exists item. by rewrite elem_of_app, list_elem_of_singleton; auto.
        -- rewrite lookup_insert_ne in Hm by done.
           destruct (CacheModel.mapGet (origin_key item) chainMetrics)
             as [old|] eqn:Hold; simpl in Hm; [|by rewrite lookup_empty in Hm].
           destruct (Hsound _ _ _ _ Hold Hm) as (i & Hi & ?). exists i.
           by rewrite elem_of_app; auto.
      * rewrite mapGet_mapSet_ne in Hget by done.
        destruct (Hsound _ _ _ _ Hget Hm) as (i & Hi & ?). exists i.
        by rewrite elem_of_app; auto.
    + intros j [Hj| ->%list_elem_of_singleton]%elem_of_app Hjl.
      * destruct (Hcomplete j Hj Hjl) as (metrics & Hget & Hm).
        destruct (decide (origin_key item = origin_key j)) as [Heq|Hne].
        -- rewrite <- Heq in *. rewrite mapGet_mapSet_eq, Hget. simpl.
           eexists. split; [done|].
           destruct (decide (metric_key item = metric_key j)) as [<-|Hnm].
           ++ rewrite lookup_insert_eq. by eexists.
           ++ by rewrite lookup_insert_ne.
        -- rewrite mapGet_mapSet_ne by done. by exists metrics.
      * rewrite mapGet_mapSet_eq. eexists. split; [done|].
        rewrite lookup_insert_eq. by eexists.
  - split; [done|]. split.
    + intros o metrics m v Hget Hm.
      destruct (Hsound _ _ _ _ Hget Hm) as (i & Hi & ?). exists i.
      by rewrite elem_of_app; auto.
    + intros j [Hj| ->%list_elem_of_singleton]%elem_of_app Hjl; [by apply Hcomplete|].
      done.
Qed.

Lemma extractedFrom_fold latestDates data : forall seen chainMetrics,
  extractedFrom latestDates seen chainMetrics ->
  extractedFrom latestDates (seen ++ data)
    (fold_left (extract latestDates) data chainMetrics).
Proof.
  induction data as [|item data IH]; intros seen chainMetrics Hok; simpl.
  - by rewrite app_nil_r.
  - replace (seen ++ item :: data) with ((seen ++ [item]) ++ data)
      by (by rewrite <- app_assoc).
    apply IH. by apply extractedFrom_extract.
Qed.

Lemma processData_spec data :
  latestOf data (fold_left noteDate data ∅) /\
  extractedFrom (fold_left noteDate data ∅) data (processData data).
Proof.
  split.
  - apply (latestOf_fold data [] ∅ latestOf_nil).
  - apply (extractedFrom_fold _ data [] []). split; [constructor|]. split.
    + intros o metrics m v H. discriminate.
    + by intros item ?%elem_of_nil.
Qed.

End ProcessDataFacts.

(** X27: what [processData] makes of the flat export.  Every chain appears
    once in the result.  Every value stored for a chain and a metric is the
    value of an item of the export with that chain and that metric, and no
    item with the same joined key [origin_metric] has a later date. *)
Theorem processData_keeps_latest (data : list GrowthepieData.Item) :
  NoDup (GrowthepieViews.getAvailableChains (GrowthepieData.processData data)) /\
  forall chain metrics metric v,
    (chain, metrics) ∈ GrowthepieData.processData data ->
    metrics !! metric = Some v ->
    exists item,
      item ∈ data /\
      GrowthepieData.origin_key item = chain /\
      GrowthepieData.metric_key item = metric /\
      GrowthepieData.value item = v /\
      forall other,
        other ∈ data -> GrowthepieData.key other = GrowthepieData.key item ->
        String.ltb (GrowthepieData.date item) (GrowthepieData.date other) = false.
Proof.
  destruct (processData_spec data) as [[Hmax _] (Hnd & Hsound & _)].
  split; [exact Hnd|].
  intros chain metrics metric v Hin Hm.
  apply (elem_of_mapGet _ _ _ Hnd) in Hin.
  destruct (Hsound _ _ _ _ Hin Hm) as (item & Hi & Ho & Hmk & Hv & Hl).
  exists item. repeat split; try done.
  intros other Hother Hkey. by apply (Hmax _ _ Hl).
Qed.

(** X28: no item of the export is lost to an older one.  If the items
    whose joined key [origin_metric] equals that of [item] all have its
    chain and its metric, the result has a value for that chain and that
    metric. *)
Theorem processData_covers (data : list GrowthepieData.Item) (item : GrowthepieData.Item) :
  item ∈ data ->
  (forall other,
      other ∈ data -> GrowthepieData.key other = GrowthepieData.key item ->
      GrowthepieData.origin_key other = GrowthepieData.origin_key item /\
      GrowthepieData.metric_key other = GrowthepieData.metric_key item) ->
  exists metrics,
    (GrowthepieData.origin_key item, metrics) ∈ GrowthepieData.processData data /\
    is_Some (metrics !! GrowthepieData.metric_key item).
Proof.
  intros Hin Hsame.
  destruct (processData_spec data) as [[Hmax Hall] (Hnd & _ & Hcomplete)].
  destruct (Hall item Hin) as [d Hd].
  destruct (Hmax _ _ Hd) as [(j & Hj & Hjk & Hjd) _].
  destruct (Hsame j Hj Hjk) as [Ho Hm].
  assert (fold_left GrowthepieData.noteDate data ∅ !! GrowthepieData.key j =
          Some (GrowthepieData.date j)) as Hjl by (by rewrite Hjk, Hjd).
  destruct (Hcomplete j Hj Hjl) as (metrics & Hget & Hsome).
  exists metrics. rewrite <- Ho, <- Hm. split; [|done].
  by apply mapGet_elem_of.
Qed.


(** The older of the two Arbitrum items: the chain has a TVL in the result. *)
Lemma processData_covers_witness :
  exists metrics,
    ("arbitrum"%string, metrics) ∈ GrowthepieData.processData sampleExport /\
    is_Some (metrics !! "tvl"%string).
Proof.
  apply (processData_covers sampleExport
           {| GrowthepieData.origin_key := "arbitrum"; GrowthepieData.metric_key := "tvl";
              GrowthepieData.date := "2024-05-16";
              GrowthepieData.value := 17400000000 |}).
  - apply list_elem_of_further, list_elem_of_here.
  - intros other Hin Hkey. unfold sampleExport in Hin.
    repeat (apply elem_of_cons in Hin as [->|Hin]); [done|done|discriminate|].
    by apply elem_of_nil in Hin.
Defined.

Example processData_sampleExport :
  GrowthepieData.processData sampleExport =
  [("arbitrum"%string, {[ "tvl"%string := 17500000000%Q ]});
   ("base"%string, {[ "tvl"%string := 9000000000%Q ]})].
Proof. by vm_compute. Qed.

(** Two different pairs with the same joined key: the older one is left
    out, and its chain with it. *)
Example processData_joined_key_clash :
  GrowthepieData.processData
    [ {| GrowthepieData.origin_key := "polygon_zkevm"; GrowthepieData.metric_key := "tvl";
         GrowthepieData.date := "2024-05-17"; GrowthepieData.value := 1 |};
      {| GrowthepieData.origin_key := "polygon"; GrowthepieData.metric_key := "zkevm_tvl";
         GrowthepieData.date := "2024-05-16"; GrowthepieData.value := 2 |} ] =
  [("polygon_zkevm"%string, {[ "tvl"%string := 1%Q ]})].
Proof. by vm_compute. Qed.

(** ** Facts about the rate limiter *)

Section FilterFacts.

Context {A : Type}.
Implicit Types (P Q : A -> Prop) (l : list A).

Lemma filter_filter_weaken P Q `{!forall x, Decision (P x)} `{!forall x, Decision (Q x)} l :
  (forall x, x ∈ l -> P x -> Q x) -> filter P (filter Q l) = filter P l.
Proof.
  induction l as [|x l IH]; intros HPQ; [done|].
  assert (filter P (filter Q l) = filter P l) as IH'
    by (apply IH; intros y Hy; apply HPQ; by apply list_elem_of_further).
  rewrite (filter_cons Q). destruct (decide (Q x)) as [HQ|HQ].
  - rewrite !(filter_cons P). destruct (decide (P x)); by rewrite IH'.
  - rewrite (filter_cons P). destruct (decide (P x)) as [HP|HP]; [|done].
    destruct HQ. apply HPQ; [apply list_elem_of_here|done].
Qed.

Lemma length_filter_weaken P Q `{!forall x, Decision (P x)} `{!forall x, Decision (Q x)} l :
  (forall x, x ∈ l -> P x -> Q x) -> (length (filter P l) <= length (filter Q l))%nat.
Proof.
  induction l as [|x l IH]; intros HPQ; [done|].
  assert (length (filter P l) <= length (filter Q l))%nat as IH'
    by (apply IH; intros y Hy; apply HPQ; by apply list_elem_of_further).
  rewrite (filter_cons P), (filter_cons Q).
  destruct (decide (P x)) as [HP|HP], (decide (Q x)) as [HQ|HQ]; simpl; try lia.
  destruct HQ. apply HPQ; [apply list_elem_of_here|done].
Qed.

Lemma filter_none P `{!forall x, Decision (P x)} l :
  (forall x, x ∈ l -> ~ P x) -> filter P l = [].
Proof.
  induction l as [|x l IH]; intros HP; [done|].
  rewrite filter_cons. destruct (decide (P x)) as [Hx|Hx].
  - destruct (HP x); [apply list_elem_of_here|done].
  - apply IH. intros y Hy. apply HP. by apply list_elem_of_further.
Qed.

End FilterFacts.

Section RateLimitFacts.

Import Security.

Lemma turn_eq now rl :
  turn now rl =
  let kept := filter (fun t => now - t < windowMs rl) (requests rl) in
  if Z.of_nat (length kept) <? maxRequests rl
  then (true, {| requests := kept ++ [now];
                 maxRequests := maxRequests rl; windowMs := windowMs rl |})
  else (false, {| requests := kept;
                  maxRequests := maxRequests rl; windowMs := windowMs rl |}).
Proof.
  unfold turn, canMakeRequest. cbv zeta.
  by destruct (Z.of_nat _ <? maxRequests rl).
Qed.

Lemma turn_settings now rl :
  windowMs (snd (turn now rl)) = windowMs rl /\
  maxRequests (snd (turn now rl)) = maxRequests rl.
Proof.
  rewrite turn_eq. cbv zeta. by destruct (Z.of_nat _ <? maxRequests rl).
Qed.

Lemma limiterTracks_create maxRequests windowMs p :
  limiterTracks p (create maxRequests windowMs) [].
Proof.
  split; [done|]. intros before g after H. by destruct before.
Qed.

Lemma limiterTracks_turn p now rl granted :
  0 < windowMs rl -> p <= now ->
  limiterTracks p rl granted ->
  limiterTracks now (snd (turn now rl))
    (if fst (turn now rl) then granted ++ [now] else granted).
Proof.
  intros HW Hp [Hreq Hcount]. unfold limiterTracks.
  destruct (turn_settings now rl) as [-> ->].
  rewrite turn_eq. cbv zeta. rewrite Hreq.
  rewrite filter_filter_weaken by (intros t _ Ht; lia).
  destruct (Z.ltb_spec (Z.of_nat (length (filter (fun t => now - t < windowMs rl) granted)))
              (maxRequests rl)) as [Hfree|Hfull]; simpl.
  - split.
    + rewrite filter_app. f_equal. rewrite filter_cons, decide_True by lia. done.
    + intros before g after Heq.
      destruct after as [|x after _] using rev_ind.
      * apply app_inj_tail in Heq as [<- <-].
        rewrite filter_app, length_app, filter_cons, decide_True by lia.
        simpl. lia.
      * rewrite app_comm_cons, app_assoc in Heq.
        apply app_inj_tail in Heq as [-> _]. by apply (Hcount before g after).
  - done.
Qed.

Lemma limiterTracks_turns instants : forall p rl granted,
  0 < windowMs rl ->
  StronglySorted Z.le (p :: instants) ->
  limiterTracks p rl granted ->
  exists p',
    limiterTracks p' (snd (turns instants rl granted)) (fst (turns instants rl granted)) /\
    windowMs (snd (turns instants rl granted)) = windowMs rl /\
    maxRequests (snd (turns instants rl granted)) = maxRequests rl.
Proof.
  induction instants as [|now rest IH]; intros p rl granted HW Hsorted Htracks.
  - by exists p.
  - cbn [turns].
    pose proof (limiterTracks_turn p now rl granted HW) as Hstep.
    destruct (turn_settings now rl) as [HW' HM'].
    destruct (turn now rl) as [ok rl'] eqn:Hturn. simpl in Hstep, HW', HM'.
    apply StronglySorted_inv in Hsorted as [Hrest Hle].
    apply Forall_cons in Hle as [Hle _].
    destruct (IH now rl' (if ok then granted ++ [now] else granted)) as (p' & H1 & H2 & H3);
      [lia|done|by apply Hstep|].
    exists p'. by rewrite H2, H3, HW', HM'.
Qed.

Lemma slotsWithin_bound W M granted :
  0 <= M ->
  (forall before g after,
      granted = before ++ g :: after ->
      Z.of_nat (length (filter (fun t => g - t < W) (before ++ [g]))) <= M) ->
  forall x, Z.of_nat (length (slotsWithin W x granted)) <= M.
Proof.
  intros HM. induction granted as [|g before IH] using rev_ind; intros Hcount x.
  - done.
  - unfold slotsWithin in *. destruct (decide (g <= x)) as [Hg|Hg].
    + etrans; [|apply (Hcount before g []); done].
      apply inj_le, length_filter_weaken. intros t _ Ht. lia.
    + rewrite filter_app, filter_cons, decide_False, filter_nil, app_nil_r by lia.
      apply IH. intros before' g' after' ->.
      apply (Hcount before' g' (after' ++ [g])). by rewrite <- app_assoc.
Qed.

Lemma waitForSlot_enough W M R base timer :
  1 <= M -> (forall t, t + 100 <= timer t) -> Forall (fun t => t <= base) R ->
  forall f cur rl,
    windowMs rl = W -> maxRequests rl = M ->
    (forall x, cur <= x ->
       filter (fun t => x - t < W) (requests rl) = filter (fun t => x - t < W) R) ->
    base + W <= cur + 100 * Z.of_nat f ->
    exists slot rl',
      waitForSlot timer (S f) cur rl = Some (slot, rl') /\
      cur <= slot /\
      requests rl' = filter (fun t => slot - t < W) R ++ [slot] /\
      Z.of_nat (length (filter (fun t => slot - t < W) R)) < M.
Proof.
  intros HM Htimer Hpast. induction f as [|f IH]; intros cur rl HW HMrl Hsame Hlate.
  - cbn [waitForSlot]. rewrite turn_eq. cbv zeta. rewrite HW, HMrl, (Hsame cur) by lia.
    assert (filter (fun t => cur - t < W) R = []) as Hnone.
    { apply filter_none. intros t Ht. rewrite Forall_forall in Hpast.
      specialize (Hpast t Ht). lia. }
    destruct (Z.ltb_spec (Z.of_nat (length (filter (fun t => cur - t < W) R))) M)
      as [Hfree|Hfull]; [|rewrite Hnone in Hfull; simpl in Hfull; lia].
    exists cur. eexists. split; [reflexivity|]. simpl. split; [lia|]. split; [done|lia].
  - cbn [waitForSlot]. rewrite turn_eq. cbv zeta. rewrite HW, HMrl, (Hsame cur) by lia.
    destruct (Z.ltb_spec (Z.of_nat (length (filter (fun t => cur - t < W) R))) M)
      as [Hfree|Hfull].
    + exists cur. eexists. split; [reflexivity|]. simpl. split; [lia|]. split; [done|lia].
    + specialize (Htimer cur) as Hnext.
      destruct (IH (timer cur)
                  {| requests := filter (fun t => cur - t < W) R;
                     maxRequests := M; windowMs := W |})
        as (slot & rl' & Hrun & Hslot & Hreqs & Hlen); try done.
      * intros x Hx. simpl. apply filter_filter_weaken. intros t _ Ht. lia.
      * lia.
      * exists slot, rl'. split; [exact Hrun|]. split; [lia|]. done.
Qed.

Lemma waitForSlot_never timer rl :
  maxRequests rl <= 0 -> forall fuel now, waitForSlot timer fuel now rl = None.
Proof.
  intros HM fuel. revert rl HM. induction fuel as [|fuel IH]; intros rl HM now; [done|].
  cbn [waitForSlot]. rewrite turn_eq. cbv zeta.
  destruct (Z.ltb_spec (Z.of_nat (length (filter (fun t => now - t < windowMs rl)
                                            (requests rl)))) (maxRequests rl)); [lia|].
  by apply IH.
Qed.

End RateLimitFacts.

(** X29: the limiter does what it is for.  Whatever the callers of
    [waitForSlot] and the instants of their turns, no window of [windowMs]
    milliseconds holds more than [maxRequests] granted slots. *)
Theorem rate_limit_respected (maxRequests windowMs : Z) (instants : list Z) :
  0 < windowMs -> 0 <= maxRequests ->
  StronglySorted Z.le instants ->
  forall x,
    Z.of_nat (length (Security.slotsWithin windowMs x
                        (fst (Security.turns instants
                                (Security.create maxRequests windowMs) []))))
    <= maxRequests.
Proof.
  intros HW HM Hsorted x.
  assert (exists p,
            limiterTracks p
              (snd (Security.turns instants (Security.create maxRequests windowMs) []))
              (fst (Security.turns instants (Security.create maxRequests windowMs) [])) /\
            Security.windowMs
              (snd (Security.turns instants (Security.create maxRequests windowMs) []))
            = windowMs /\
            Security.maxRequests
              (snd (Security.turns instants (Security.create maxRequests windowMs) []))
            = maxRequests) as (p & [_ Hcount] & HW' & HM').
  { destruct instants as [|now rest].
    - exists 0. split; [apply limiterTracks_create|done].
    - apply (limiterTracks_turns (now :: rest) now
               (Security.create maxRequests windowMs) []); [done| |].
      + constructor; [done|]. constructor; [lia|].
        by apply StronglySorted_inv in Hsorted as [_ ?].
      + apply limiterTracks_create. }
  rewrite HW', HM' in Hcount. by apply slotsWithin_bound.
Qed.

(** Five turns in 40 ms on a limiter of two slots a second. *)
Lemma rate_limit_respected_witness :
  Z.of_nat (length (Security.slotsWithin 1000 40
                      (fst (Security.turns [0; 0; 10; 20; 40]
                              (Security.create 2 1000) []))))
  <= 2.
Proof.
  apply (rate_limit_respected 2 1000 [0; 0; 10; 20; 40]); [lia|lia|].
  repeat first [lia | constructor].
Defined.

Example two_slots_granted :
  fst (Security.turns [0; 0; 10; 20; 40; 1000; 1005] (Security.create 2 1000) []) =
  [0; 0; 1000; 1005].
Proof. reflexivity. Qed.

(** X30: a lone caller of [waitForSlot] gets its slot.  With room for at
    least one request, timers that fire no earlier than asked and no
    recorded request in the future, the call returns, at an instant at
    which fewer than [maxRequests] of the recorded requests are less than
    [windowMs] old; the limiter then holds those and the new one. *)
Theorem waitForSlot_returns (timer : Z -> Z) (rl : Security.RateLimiter) (now : Z) :
  1 <= Security.maxRequests rl ->
  (forall t, t + 100 <= timer t) ->
  Forall (fun t => t <= now) (Security.requests rl) ->
  exists n, forall fuel, (n <= fuel)%nat ->
    exists slot rl',
      Security.waitForSlot timer fuel now rl = Some (slot, rl') /\
      now <= slot /\
      Security.requests rl' =
        filter (fun t => slot - t < Security.windowMs rl) (Security.requests rl) ++ [slot] /\
      Z.of_nat (length (Security.requests rl')) <= Security.maxRequests rl.
Proof.
  intros HM Htimer Hpast.
  exists (S (Z.to_nat (Security.windowMs rl))). intros [|f] Hfuel; [lia|].
  destruct (waitForSlot_enough (Security.windowMs rl) (Security.maxRequests rl)
              (Security.requests rl) now timer HM Htimer Hpast f now rl)
    as (slot & rl' & Hrun & Hslot & Hreqs & Hlen); try done; [lia|].
  exists slot, rl'. split; [done|]. split; [done|]. split; [done|].
  rewrite Hreqs, length_app. simpl. lia.
Qed.

(** Two requests 400 and 100 ms ago, two slots a second. *)
Lemma waitForSlot_returns_witness :
  exists n, forall fuel, (n <= fuel)%nat ->
    exists slot rl',
      Security.waitForSlot (fun t => t + 100) fuel 500
        {| Security.requests := [100; 400];
           Security.maxRequests := 2; Security.windowMs := 1000 |} = Some (slot, rl') /\
      500 <= slot /\
      Security.requests rl' = filter (fun t => slot - t < 1000) [100; 400] ++ [slot] /\
      Z.of_nat (length (Security.requests rl')) <= 2.
Proof.
  apply (waitForSlot_returns (fun t => t + 100)
           {| Security.requests := [100; 400];
              Security.maxRequests := 2; Security.windowMs := 1000 |} 500).
  - simpl. lia.
  - intros t. lia.
  - simpl. repeat first [lia | constructor].
Defined.

Example waitForSlot_waits :
  Security.waitForSlot (fun t => t + 100) 10 500
    {| Security.requests := [100; 400];
       Security.maxRequests := 2; Security.windowMs := 1000 |} =
  Some (1100, {| Security.requests := [400; 1100];
                 Security.maxRequests := 2; Security.windowMs := 1000 |}).
Proof. reflexivity. Qed.
